(** * HealthHack EEG analysis: detectors, ictal-region clustering, summary

    A shallow embedding of the numeric core of the repository:
    - the EEG data processor ([detectPatterns], [detectHFOs], [detectIEDs],
      [detectRhythmicDischarges], [identifyIctalRegions]);
    - the analysis panel ([generateAnalysisResults] and its own copy of
      [identifyIctalRegions]).

    JavaScript numbers are read in two ways.  Where only the order of
    numbers, the membership of lists and the counts matter, they are exact
    rationals ([Q]); the quotients whose divisor can be zero are computed
    in [num], which adds [NaN] and the two infinities.  Where a rounded
    sum, product or quotient decides the result, the operations are those
    of the IEEE 754 doubles ([rnd], [fadd], [fsub], [fmul], [fdiv]).
    [Math.random()] is an explicit oracle argument. *)

From Stdlib Require Import String Ascii List Bool ZArith QArith Qround Qabs Qminmax Qpower.
From Stdlib Require Import Lia Lqa Permutation Sorted DecimalString SpecFloat.
Import ListNotations.
Local Open Scope Q_scope.

(* ================================================================= *)
(** ** Numbers *)

Definition leb (x y : Q) : bool := Qle_bool x y.
Definition ltb (x y : Q) : bool := negb (Qle_bool y x).

Definition Math_max (x y : Q) : Q := if leb x y then y else x.
Definition Math_min (x y : Q) : Q := if leb x y then x else y.
Definition Math_abs (x : Q) : Q := Qabs x.
Definition Math_floor (x : Q) : Z := Qfloor x.
(** [Math.round] rounds half-way cases towards +infinity. *)
Definition Math_round (x : Q) : Z := Qfloor (x + (1 # 2)).
Definition Math_sign (x : Q) : Z := Z.sgn (Qnum x).

Definition ofZ (z : Z) : Q := inject_Z z.
Definition ofNat (n : nat) : Q := inject_Z (Z.of_nat n).

(** JavaScript numbers with the non-finite values. *)
Inductive num : Type :=
| NaN
| PInf
| NInf
| Fin (q : Q).

Definition nneg (x : num) : num :=
  match x with
  | NaN => NaN | PInf => NInf | NInf => PInf | Fin q => Fin (- q)
  end.

(** [a / b] on finite operands; a zero divisor is [+0], as every divisor of
    the clusterer is (a count, a length, or the difference [x - x]). *)
Definition ndiv (a b : Q) : num :=
  if Qeq_bool b 0
  then if Qeq_bool a 0 then NaN else if ltb 0 a then PInf else NInf
  else Fin (a / b).

Definition nmul (x y : num) : num :=
  match x, y with
  | NaN, _ | _, NaN => NaN
  | Fin a, Fin b => Fin (a * b)
  | Fin a, i | i, Fin a =>
      if Qeq_bool a 0 then NaN else if ltb 0 a then i else nneg i
  | PInf, PInf | NInf, NInf => PInf
  | PInf, NInf | NInf, PInf => NInf
  end.

Definition nadd (x y : num) : num :=
  match x, y with
  | NaN, _ | _, NaN => NaN
  | Fin a, Fin b => Fin (a + b)
  | PInf, NInf | NInf, PInf => NaN
  | PInf, _ | _, PInf => PInf
  | NInf, _ | _, NInf => NInf
  end.

Definition nsub (x y : num) : num := nadd x (nneg y).

(** [x > c]: every comparison with [NaN] is false. *)
Definition ngtb (x : num) (c : Q) : bool :=
  match x with
  | NaN | NInf => false
  | PInf => true
  | Fin q => ltb c q
  end.

Definition nround (x : num) : num :=
  match x with
  | Fin q => Fin (ofZ (Math_round q))
  | other => other
  end.

(** [Math.min(c, x)] for a finite [c]. *)
Definition nmin (c : Q) (x : num) : num :=
  match x with
  | NaN => NaN
  | PInf => Fin c
  | NInf => NInf
  | Fin q => Fin (Math_min c q)
  end.

(** [Math.max(c, x)] for a finite [c]. *)
Definition nmax (c : Q) (x : num) : num :=
  match x with
  | NaN => NaN
  | PInf => PInf
  | NInf => Fin c
  | Fin q => Fin (Math_max c q)
  end.

(** [x <= y]: every comparison with [NaN] is false. *)
Definition nleb (x y : num) : bool :=
  match x, y with
  | NaN, _ | _, NaN => false
  | NInf, _ | _, PInf => true
  | PInf, _ | _, NInf => false
  | Fin a, Fin b => leb a b
  end.

(** [x / y] with the non-finite operands; a zero divisor is [+0]. *)
Definition ndivn (x y : num) : num :=
  match x, y with
  | NaN, _ | _, NaN => NaN
  | Fin a, Fin b => ndiv a b
  | Fin _, _ => Fin 0
  | PInf, Fin b => if ltb b 0 then NInf else PInf
  | NInf, Fin b => if ltb b 0 then PInf else NInf
  | _, _ => NaN
  end.

(* ================================================================= *)
(** ** Double precision

    A JavaScript number is an IEEE 754 binary64 value, and an arithmetic
    operation returns the double nearest to the exact result: 53
    significant bits, ties to the even significand, subnormal numbers
    below [2^-1022], an infinity from [2^1024] on.  [rnd] is that rounding
    on the rationals, [round64] adds the overflow, and [fadd], [fsub],
    [fmul], [fdiv] are the four operations.  The sign of a zero is not
    represented. *)

Definition pow2 (e : Z) : Q := 2 ^ e.

(** [floor(log2 q)] of a positive [q]. *)
Definition ilog2 (q : Q) : Z :=
  let c := (Z.log2 (Qnum q) - Z.log2 (Zpos (Qden q)))%Z in
  if Qle_bool (pow2 c) q then c else (c - 1)%Z.

(** The nearest integer, ties to the even one. *)
Definition round_even (q : Q) : Z :=
  let f := Qfloor q in
  match Qcompare (q - inject_Z f) (1 # 2) with
  | Lt => f
  | Gt => (f + 1)%Z
  | Eq => if Z.even f then f else (f + 1)%Z
  end.

(** The exponent of the last of the 53 bits of a positive [q]. *)
Definition ulp_exponent (q : Q) : Z := Z.max (ilog2 q - 52) (-1074).

Definition rnd_pos (q : Q) : Q :=
  let e := ulp_exponent q in
  Qred (inject_Z (round_even (q / pow2 e)) * pow2 e).

Definition rnd (q : Q) : Q :=
  match Qcompare q 0 with
  | Eq => 0
  | Gt => rnd_pos q
  | Lt => - rnd_pos (- q)
  end.

Definition round64 (q : Q) : num :=
  let r := rnd q in
  if Qle_bool (pow2 1024) r then PInf
  else if Qle_bool r (- pow2 1024) then NInf
  else Fin r.

(** The result of an operation whose exact value is [x]. *)
Definition fl (x : num) : num :=
  match x with
  | Fin q => round64 q
  | other => other
  end.

Definition fadd (x y : num) : num := fl (nadd x y).
Definition fsub (x y : num) : num := fl (nsub x y).
Definition fmul (x y : num) : num := fl (nmul x y).
Definition fdiv (x y : num) : num := fl (ndivn x y).

(** A decimal literal of the source, such as [0.7]. *)
Definition double (q : Q) : Q := rnd q.

(** [q] is a finite double. *)
Definition is_double (q : Q) : bool :=
  Qeq_bool (rnd q) q && ltb (Qabs q) (pow2 1024).

(** *** The operations of the Standard Library's specification

    [SpecFloat] specifies the operations of IEEE 754 on binary floats;
    at precision 53 and exponent bound 1024 they are those of the
    doubles.  The sample operations below are evaluated in both. *)

Definition of_spec_float (x : spec_float) : num :=
  match x with
  | S754_zero _ => Fin 0
  | S754_infinity false => PInf
  | S754_infinity true => NInf
  | S754_nan => NaN
  | S754_finite s m e => Fin ((if s then - (1) else 1) * inject_Z (Zpos m) * pow2 e)
  end.

(** The double nearest to [n / d], both whole numbers being doubles. *)
Definition spec_quotient (n d : Z) : spec_float :=
  SFdiv 53 1024 (binary_normalize 53 1024 n 0 false)
        (binary_normalize 53 1024 d 0 false).

Definition num_eqb (x y : num) : bool :=
  match x, y with
  | NaN, NaN | PInf, PInf | NInf, NInf => true
  | Fin a, Fin b => Qeq_bool a b
  | _, _ => false
  end.

Inductive operation : Type := Plus | Minus | Times | Over.

Definition run_model (o : operation) (x y : num) : num :=
  match o with
  | Plus => fadd x y
  | Minus => fsub x y
  | Times => fmul x y
  | Over => fdiv x y
  end.

Definition run_spec (o : operation) (x y : spec_float) : spec_float :=
  match o with
  | Plus => SFadd 53 1024 x y
  | Minus => SFsub 53 1024 x y
  | Times => SFmul 53 1024 x y
  | Over => SFdiv 53 1024 x y
  end.

(** The operation on the doubles nearest to [n1 / d1] and [n2 / d2]. *)
Definition agree (t : operation * (Z * Z) * (Z * Z)) : bool :=
  let '(o, (n1, d1), (n2, d2)) := t in
  num_eqb (run_model o (fdiv (Fin (inject_Z n1)) (Fin (inject_Z d1)))
                     (fdiv (Fin (inject_Z n2)) (Fin (inject_Z d2))))
          (of_spec_float (run_spec o (spec_quotient n1 d1) (spec_quotient n2 d2))).

(** Operations of the code (on 0.7, 0.3, 0.2, percentages, window
    bounds), ties, subnormal results and the overflow threshold. *)
Definition sample_operations : list (operation * (Z * Z) * (Z * Z)) :=
  ([(Plus, (3, 10), (10, 1)); (Plus, (7, 10), (3, 10)); (Times, (85, 1), (7, 10));
    (Times, (1, 4), (3, 10)); (Plus, (7, 10), (3, 40)); (Times, (31, 40), (100, 1));
    (Over, (1, 3), (1, 1)); (Times, (1, 3), (100, 1)); (Times, (2, 3), (100, 1));
    (Plus, (100, 3), (200, 3)); (Minus, (2, 1), (1, 1)); (Times, (1, 1), (2, 10));
    (Minus, (1, 1), (2, 10)); (Plus, (2, 1), (2, 10)); (Over, (10 ^ 21, 1), (60, 1));
    (Over, (3, 2 ^ 1000), (2 ^ 75, 1)); (Times, (2 ^ 1023, 1), (2, 1));
    (Times, (2 ^ 1023, 1), (-2, 1)); (Over, (1, 2 ^ 1000), (2 ^ 75, 1));
    (Over, (5, 2 ^ 1000), (2 ^ 75, 1)); (Over, (3, 1), (1, 2 ^ 1023));
    (Minus, (2 ^ 1023, 1), (- 2 ^ 1023 + 2 ^ 970, 1));
    (Minus, (2 ^ 1023, 1), (- 2 ^ 1023 + 2 ^ 971, 1));
    (Over, (1, 2 ^ 1000), (2 ^ 53 + 1, 3)); (Plus, (2 ^ 53, 1), (1, 1));
    (Plus, (2 ^ 53, 1), (3, 1)); (Minus, (1, 10), (3, 10)); (Times, (-7, 10), (3, 10));
    (Over, (-7, 10), (3, 10)); (Over, (1, 250), (1, 1)); (Over, (9999, 250), (1, 1));
    (Times, (2 ^ 53 - 1, 2 ^ 53), (70, 1));
    (Plus, (80, 1), (70 * (2 ^ 52 - 1), 2 ^ 52))])%Z.

(* ================================================================= *)
(** ** Arrays and strings *)

(** [Array.prototype.slice(a, b)]: negative indices count from the end. *)
Definition slice {A : Type} (l : list A) (a b : Z) : list A :=
  let len := Z.of_nat (length l) in
  let rel := fun k : Z => if (k <? 0)%Z then Z.max (len + k) 0 else Z.min k len in
  firstn (Z.to_nat (rel b - rel a)) (skipn (Z.to_nat (rel a)) l).

(** [String.prototype.includes]. *)
Fixpoint includes (hay needle : string) : bool :=
  prefix needle hay ||
  match hay with
  | EmptyString => false
  | String _ rest => includes rest needle
  end.

(* ================================================================= *)
(** ** Data model *)

Record Event : Type := mkEvent {
  start : Q;
  end_ : Q;
  type : string;
  amplitude : Q;
  frequency : Q
}.

Record Channel : Type := mkChannel {
  name : string;
  data : list Q;
  events : list Event;
  voltage : Q
}.

Definition HFO_label : string := "HFO (High Frequency Oscillation)".
Definition IED_label : string := "IED (Intractal Epileptiform Discharge)".
Definition Rhythmic_label : string := "Rhythmic Discharge".

(* ================================================================= *)
(** ** The sliding-window loop shared by the three detectors

    [for (let i = 0; i < data.length - windowSize; i += stepSize)
       { const windowData = data.slice(i, i + windowSize) ... }]

    [scan] lists the pairs [(i, windowData)] the loop body sees, in order.
    The loop does not terminate when [stepSize <= 0] and the guard holds at
    [i = 0]; the fuel [data.length - windowSize] is enough for every
    positive step, and [None] stands for the diverging loop. *)

Fixpoint scan_loop (fuel : nat) (samples : list Q) (windowSize stepSize i : Z)
  : option (list (Z * list Q)) :=
  if (i <? Z.of_nat (length samples) - windowSize)%Z
  then match fuel with
       | O => None
       | S fuel' =>
           option_map (cons (i, slice samples i (i + windowSize)))
                      (scan_loop fuel' samples windowSize stepSize (i + stepSize))
       end
  else Some [].

Definition scan (samples : list Q) (windowSize stepSize : Z)
  : option (list (Z * list Q)) :=
  scan_loop (Z.to_nat (Z.of_nat (length samples) - windowSize))
            samples windowSize stepSize 0.

(** The overlap test every detector applies before [events.push]. *)
Definition overlapping (evs : list Event) (startTime endTime : Q) : bool :=
  existsb (fun event =>
             (leb (start event) startTime && leb startTime (end_ event))
             || (leb (start event) endTime && leb endTime (end_ event)))
          evs.

Definition sumQ (l : list Q) : Q := fold_left Qplus l 0.

(** Peak-to-peak amplitude; the window is never empty where it is used. *)
Definition minVal (w : list Q) : Q :=
  match w with [] => 0 | x :: t => fold_left Math_min t x end.
Definition maxVal (w : list Q) : Q :=
  match w with [] => 0 | x :: t => fold_left Math_max t x end.

(* ----------------------------------------------------------------- *)
(** *** detectHFOs *)

Fixpoint zeroCrossings (w : list Q) : nat :=
  match w with
  | a :: ((b :: _) as rest) =>
      ((if (ltb a 0 && leb 0 b) || (leb 0 a && ltb b 0) then 1 else 0)
       + zeroCrossings rest)%nat
  | _ => O
  end.

Definition hfo_window (sampleRate : Q) (windowSize : Z)
           (evs : list Event) (iw : Z * list Q) : list Event :=
  let '(i, windowData) := iw in
  let len := ofNat (length windowData) in
  let estimatedFreq :=
    (ofNat (zeroCrossings windowData) / 2) * (sampleRate / ofZ windowSize) in
  let sum := sumQ windowData in
  let sumSquared := sumQ (map (fun x => x * x) windowData) in
  let mean := sum / len in
  let variance := sumSquared / len - mean * mean in
  let amp := maxVal windowData - minVal windowData in
  if ltb 80 estimatedFreq && ltb 100 variance then
    let startTime := ofZ i / sampleRate in
    let endTime := ofZ (i + windowSize) / sampleRate in
    if overlapping evs startTime endTime then evs
    else evs ++ [mkEvent startTime endTime HFO_label amp estimatedFreq]
  else evs.

Definition detectHFOs (samples : list Q) (evs : list Event) (sampleRate : Q)
  : option (list Event) :=
  let windowSize := Math_floor (sampleRate * (1 # 10)) in
  let stepSize := Math_floor (sampleRate * (5 # 100)) in
  option_map (fun ws => fold_left (hfo_window sampleRate windowSize) ws evs)
             (scan samples windowSize stepSize).

(* ----------------------------------------------------------------- *)
(** *** detectIEDs *)

(** The [(maxAmp, maxPos)] loop: the first position of the largest [|v|]. *)
Definition maxAmpPos (w : list Q) : Q * nat :=
  let step := fun (st : Q * nat * nat) (x : Q) =>
    let '(maxAmp, maxPos, j) := st in
    if ltb maxAmp (Math_abs x) then (Math_abs x, j, S j) else (maxAmp, maxPos, S j) in
  fst (fold_left step w (0, O, O)).

(** [(slopeBefore, slopeAfter)]. *)
Definition slopes (w : list Q) (maxPos : nat) : Q * Q :=
  if ((5 <? Z.of_nat maxPos) && (Z.of_nat maxPos <? Z.of_nat (length w) - 5))%Z
  then ((nth maxPos w 0 - nth (maxPos - 5) w 0) / 5,
        (nth maxPos w 0 - nth (maxPos + 5) w 0) / 5)
  else (0, 0).

Definition ied_classify (maxAmp slopeBefore slopeAfter : Q) : bool :=
  ltb 50 maxAmp && ltb 10 (Math_abs slopeBefore) && ltb 10 (Math_abs slopeAfter)
  && negb (Math_sign slopeBefore =? Math_sign slopeAfter)%Z.

(** [random i] is the value [Math.random()] returns in the iteration at
    offset [i]. *)
Definition ied_window (random : Z -> Q) (sampleRate : Q) (windowSize : Z)
           (evs : list Event) (iw : Z * list Q) : list Event :=
  let '(i, windowData) := iw in
  let '(maxAmp, maxPos) := maxAmpPos windowData in
  let '(slopeBefore, slopeAfter) := slopes windowData maxPos in
  let estimatedFreq := 8 + random i * 12 in
  if ied_classify maxAmp slopeBefore slopeAfter then
    let startTime := ofZ i / sampleRate in
    let endTime := ofZ (i + windowSize) / sampleRate in
    if overlapping evs startTime endTime then evs
    else evs ++ [mkEvent startTime endTime IED_label maxAmp estimatedFreq]
  else evs.

Definition detectIEDs (random : Z -> Q) (samples : list Q) (evs : list Event)
           (sampleRate : Q) : option (list Event) :=
  let windowSize := Math_floor (sampleRate * (2 # 10)) in
  let stepSize := Math_floor (sampleRate * (1 # 10)) in
  option_map (fun ws => fold_left (ied_window random sampleRate windowSize) ws evs)
             (scan samples windowSize stepSize).

(* ----------------------------------------------------------------- *)
(** *** detectRhythmicDischarges *)

(** Positions [j] with [w[j] > w[j-1] && w[j] > w[j+1] && w[j] > 20];
    [j0] is the position of the head of the list. *)
Fixpoint peaks_from (j0 : nat) (w : list Q) : list nat :=
  match w with
  | a :: ((b :: c :: _) as rest) =>
      (if ltb a b && ltb c b && ltb 20 b then [S j0] else [])
        ++ peaks_from (S j0) rest
  | _ => []
  end.

Fixpoint intervals_of (peaks : list nat) : list Q :=
  match peaks with
  | p :: ((p' :: _) as rest) => ofZ (Z.of_nat p' - Z.of_nat p) :: intervals_of rest
  | _ => []
  end.

(** [Math.sqrt(intervalVariance) / meanInterval < 0.3] over the reals, for
    a variance [>= 0] and a mean [> 0] (intervals of increasing peaks). *)
Definition intervalCV_below (intervalVariance meanInterval : Q) : bool :=
  ltb intervalVariance (((3 # 10) * meanInterval) * ((3 # 10) * meanInterval)).

Definition rhythmic_window (sampleRate : Q) (windowSize : Z)
           (evs : list Event) (iw : Z * list Q) : list Event :=
  let '(i, windowData) := iw in
  let intervals := intervals_of (peaks_from 0 windowData) in
  if (3 <=? length intervals)%nat then
    let meanInterval := sumQ intervals / ofNat (length intervals) in
    let sumDiff :=
      sumQ (map (fun x => (x - meanInterval) * (x - meanInterval)) intervals) in
    let intervalVariance := sumDiff / ofNat (length intervals) in
    let estimatedFreq := sampleRate / meanInterval in
    let amp := maxVal windowData - minVal windowData in
    if intervalCV_below intervalVariance meanInterval
       && ltb 10 meanInterval && ltb meanInterval 100 then
      let startTime := ofZ i / sampleRate in
      let endTime := ofZ (i + windowSize) / sampleRate in
      if overlapping evs startTime endTime then evs
      else evs ++ [mkEvent startTime endTime Rhythmic_label amp estimatedFreq]
    else evs
  else evs.

Definition detectRhythmicDischarges (samples : list Q) (evs : list Event)
           (sampleRate : Q) : option (list Event) :=
  let windowSize := Math_floor (sampleRate * 3) in
  let stepSize := Math_floor (sampleRate * 1) in
  option_map (fun ws => fold_left (rhythmic_window sampleRate windowSize) ws evs)
             (scan samples windowSize stepSize).

(* ----------------------------------------------------------------- *)
(** *** detectPatterns *)

Definition sampleRate250 : Q := 250.

(** One iteration of [channels.forEach]: the three detectors push into the
    channel's own [events] array, in this order. *)
Definition detectChannel (random : Z -> Q) (channel : Channel) : option Channel :=
  match detectHFOs (data channel) (events channel) sampleRate250 with
  | None => None
  | Some ev1 =>
      match detectIEDs random (data channel) ev1 sampleRate250 with
      | None => None
      | Some ev2 =>
          match detectRhythmicDischarges (data channel) ev2 sampleRate250 with
          | None => None
          | Some ev3 =>
              Some (mkChannel (name channel) (data channel) ev3 (voltage channel))
          end
      end
  end.

(** [random c] is the oracle for the channel at position [c]. *)
Fixpoint detectPatterns_from (c : nat) (random : nat -> Z -> Q)
         (channels : list Channel) : option (list Channel) :=
  match channels with
  | [] => Some []
  | ch :: rest =>
      match detectChannel (random c) ch with
      | None => None
      | Some ch' => option_map (cons ch') (detectPatterns_from (S c) random rest)
      end
  end.

Definition detectPatterns (random : nat -> Z -> Q) (channels : list Channel)
  : option (list Channel) :=
  detectPatterns_from 0 random channels.

(* ================================================================= *)
(** ** identifyIctalRegions *)

(** An element of [allEvents]: [{ ...event, channel: channel.name }]. *)
Record PooledEvent : Type := mkPooled {
  event : Event;
  channel : string
}.

Record Cluster : Type := mkCluster {
  cluster_events : list PooledEvent;
  cluster_start : Q;
  cluster_end : Q
}.

Inductive Severity : Type := low | medium | high.

Record EventCount : Type := mkEventCount {
  hfo : nat;
  ied : nat;
  rhythmic : nat
}.

Record Region : Type := mkRegion {
  region_start : Q;
  region_end : Q;
  channels : list string;
  confidence : num;
  eventCount : EventCount;
  severity : Severity
}.

(** Step 1: [channels.forEach(channel => channel.events.forEach(push))]. *)
Definition collectEvents (chs : list Channel) : list PooledEvent :=
  flat_map (fun ch => map (fun e => mkPooled e (name ch)) (events ch)) chs.

(** [Array.prototype.sort(compare)] is stable: the outcome is the stable
    insertion of every element, [gt a b] standing for [compare(a, b) > 0]. *)
Fixpoint insert_by {A : Type} (gt : A -> A -> bool) (x : A) (l : list A) : list A :=
  match l with
  | [] => [x]
  | y :: rest => if gt x y then y :: insert_by gt x rest else x :: l
  end.

Definition sort_by {A : Type} (gt : A -> A -> bool) (l : list A) : list A :=
  fold_right (insert_by gt) [] l.

(** Step 2: [allEvents.sort((a, b) => a.start - b.start)]. *)
Definition start_gt (a b : PooledEvent) : bool :=
  ltb 0 (start (event a) - start (event b)).

Definition sortEvents (l : list PooledEvent) : list PooledEvent :=
  sort_by start_gt l.

(** Step 3: the mutable variables of the clustering loop. *)
Record ClusterState : Type := mkState {
  clusters : list Cluster;
  currentCluster : list PooledEvent;
  clusterStart : Q;
  clusterEnd : Q
}.

Definition initialState : ClusterState := mkState [] [] 0 0.

Definition closeCluster (st : ClusterState) : list Cluster :=
  if (0 <? length (currentCluster st))%nat
  then clusters st ++ [mkCluster (currentCluster st) (clusterStart st) (clusterEnd st)]
  else clusters st.

(** The callback of [allEvents.forEach((event, index) => ...)]. *)
Definition cluster_step (st : ClusterState) (index : nat) (ev : PooledEvent)
  : ClusterState :=
  if (index =? 0)%nat then
    mkState (clusters st) [ev] (start (event ev)) (end_ (event ev))
  else if leb (start (event ev)) (clusterEnd st + 10) then
    mkState (clusters st) (currentCluster st ++ [ev]) (clusterStart st)
            (Math_max (clusterEnd st) (end_ (event ev)))
  else
    mkState (closeCluster st) [ev] (start (event ev)) (end_ (event ev)).

Fixpoint forEach_from (index : nat) (st : ClusterState) (l : list PooledEvent)
  : ClusterState :=
  match l with
  | [] => st
  | ev :: rest => forEach_from (S index) (cluster_step st index ev) rest
  end.

(** The [clusters] array after the loop and the final push. *)
Definition clusterEvents (sorted : list PooledEvent) : list Cluster :=
  closeCluster (forEach_from 0 initialState sorted).

(** [cluster.events.forEach]: the type counters (an event counts for the
    first label its type includes) ... *)
Definition countType (c : EventCount) (ty : string) : EventCount :=
  if includes ty "HFO" then mkEventCount (S (hfo c)) (ied c) (rhythmic c)
  else if includes ty "IED" then mkEventCount (hfo c) (S (ied c)) (rhythmic c)
  else if includes ty "Rhythmic" then mkEventCount (hfo c) (ied c) (S (rhythmic c))
  else c.

Definition countEvents (evs : list PooledEvent) : EventCount :=
  fold_left (fun c ev => countType c (type (event ev))) evs (mkEventCount 0 0 0).

(** ... and the [Set] of channel names, in insertion order. *)
Definition set_add (s : list string) (x : string) : list string :=
  if existsb (String.eqb x) s then s else s ++ [x].

Definition channelSet (evs : list PooledEvent) : list string :=
  fold_left (fun s ev => set_add s (channel ev)) evs [].

Definition totalEvents (c : EventCount) : nat := (hfo c + ied c + rhythmic c)%nat.

Definition hfoRatio (c : EventCount) : num :=
  ndiv (ofNat (hfo c)) (ofNat (totalEvents c)).

Definition severityOf (c : EventCount) : Severity :=
  if ngtb (hfoRatio c) (5 # 10) || (10 <? totalEvents c)%nat then high
  else if ngtb (hfoRatio c) (2 # 10) || (5 <? totalEvents c)%nat then medium
  else low.

Definition eventDensity (c : Cluster) : num :=
  ndiv (ofNat (totalEvents (countEvents (cluster_events c))))
       (cluster_end c - cluster_start c).

(** [involvement] is [channelSet.size / channels.length] in the processor and
    [channelSet.size / (data.channels.length || 1)] in the panel; [rand] is
    the [Math.random()] of this region. *)
Definition confidenceOf (involvement : num) (rand : Q) (c : Cluster) : num :=
  nmin 95
       (nround (nmul (nadd (nmul (eventDensity c) (Fin 20))
                           (nmul involvement (Fin 50)))
                     (Fin ((7 # 10) + rand * (3 # 10))))).

Definition regionOf (involvement : nat -> num) (rand : Q) (c : Cluster) : Region :=
  let count := countEvents (cluster_events c) in
  let chans := channelSet (cluster_events c) in
  mkRegion (cluster_start c) (cluster_end c) chans
           (confidenceOf (involvement (length chans)) rand c)
           count (severityOf count).

(** [.map] calls its callback once per surviving cluster, in order: the
    [k]-th call draws [random k]. *)
Fixpoint mapRegions (involvement : nat -> num) (random : nat -> Q) (k : nat)
         (cs : list Cluster) : list Region :=
  match cs with
  | [] => []
  | c :: rest =>
      regionOf involvement (random k) c :: mapRegions involvement random (S k) rest
  end.

Definition severityOrder (s : Severity) : Z :=
  match s with high => 0 | medium => 1 | low => 2 end.

Definition severity_eqb (a b : Severity) : bool :=
  (severityOrder a =? severityOrder b)%Z.

(** The comparator of the final [.sort]; a [NaN] result counts as [0]. *)
Definition region_gt (a b : Region) : bool :=
  if negb (severity_eqb (severity a) (severity b))
  then (0 <? severityOrder (severity a) - severityOrder (severity b))%Z
  else ngtb (nsub (confidence b) (confidence a)) 0.

Definition survivors (chs : list Channel) : list Cluster :=
  filter (fun c => (3 <=? length (cluster_events c))%nat)
         (clusterEvents (sortEvents (collectEvents chs))).

Definition regionsOf (involvement : nat -> num) (random : nat -> Q)
           (chs : list Channel) : list Region :=
  sort_by region_gt (mapRegions involvement random 0 (survivors chs)).

(** The processor's [identifyIctalRegions(channels)]. *)
Definition identifyIctalRegions (random : nat -> Q) (chs : list Channel)
  : list Region :=
  regionsOf (fun size => ndiv (ofNat size) (ofNat (length chs))) random chs.

(* ================================================================= *)
(** ** identifyIctalRegions in double precision

    The definitions above read the numbers of the clusterer as exact
    rationals.  The definitions below read the same code with the
    operations of the doubles, which decide the test of the clustering
    loop, the ratio behind the severity, the duration, the density and
    the confidence.  The sort of the pool is the one above: the
    difference of two doubles has the sign of its rounded value. *)

(** [event.start <= clusterEnd + 10]. *)
Definition within10 (eventStart clusterEnd : Q) : bool :=
  nleb (Fin eventStart) (fadd (Fin clusterEnd) (Fin 10)).

Definition cluster_step64 (st : ClusterState) (index : nat) (ev : PooledEvent)
  : ClusterState :=
  if (index =? 0)%nat then
    mkState (clusters st) [ev] (start (event ev)) (end_ (event ev))
  else if within10 (start (event ev)) (clusterEnd st) then
    mkState (clusters st) (currentCluster st ++ [ev]) (clusterStart st)
            (Math_max (clusterEnd st) (end_ (event ev)))
  else
    mkState (closeCluster st) [ev] (start (event ev)) (end_ (event ev)).

Fixpoint forEach_from64 (index : nat) (st : ClusterState) (l : list PooledEvent)
  : ClusterState :=
  match l with
  | [] => st
  | ev :: rest => forEach_from64 (S index) (cluster_step64 st index ev) rest
  end.

Definition clusterEvents64 (sorted : list PooledEvent) : list Cluster :=
  closeCluster (forEach_from64 0 initialState sorted).

Definition hfoRatio64 (c : EventCount) : num :=
  fdiv (Fin (ofNat (hfo c))) (Fin (ofNat (totalEvents c))).

Definition severityOf64 (c : EventCount) : Severity :=
  if ngtb (hfoRatio64 c) (double (5 # 10)) || (10 <? totalEvents c)%nat then high
  else if ngtb (hfoRatio64 c) (double (2 # 10)) || (5 <? totalEvents c)%nat then medium
  else low.

(** [cluster.end - cluster.start]. *)
Definition duration64 (c : Cluster) : num :=
  fsub (Fin (cluster_end c)) (Fin (cluster_start c)).

Definition eventDensity64 (c : Cluster) : num :=
  fdiv (Fin (ofNat (totalEvents (countEvents (cluster_events c))))) (duration64 c).

(** [channelSet.size / channels.length]. *)
Definition channelInvolvement64 (size channelCount : nat) : num :=
  fdiv (Fin (ofNat size)) (Fin (ofNat channelCount)).

(** [0.7 + Math.random() * 0.3]. *)
Definition jitter64 (rand : Q) : num :=
  fadd (Fin (double (7 # 10))) (fmul (Fin rand) (Fin (double (3 # 10)))).

Definition confidenceOf64 (involvement : num) (rand : Q) (c : Cluster) : num :=
  nmin 95
       (nround (fmul (fadd (fmul (eventDensity64 c) (Fin 20))
                           (fmul involvement (Fin 50)))
                     (jitter64 rand))).

Definition regionOf64 (channelCount : nat) (rand : Q) (c : Cluster) : Region :=
  let count := countEvents (cluster_events c) in
  let chans := channelSet (cluster_events c) in
  mkRegion (cluster_start c) (cluster_end c) chans
           (confidenceOf64 (channelInvolvement64 (length chans) channelCount) rand c)
           count (severityOf64 count).

Fixpoint mapRegions64 (channelCount : nat) (random : nat -> Q) (k : nat)
         (cs : list Cluster) : list Region :=
  match cs with
  | [] => []
  | c :: rest =>
      regionOf64 channelCount (random k) c :: mapRegions64 channelCount random (S k) rest
  end.

Definition survivors64 (chs : list Channel) : list Cluster :=
  filter (fun c => (3 <=? length (cluster_events c))%nat)
         (clusterEvents64 (sortEvents (collectEvents chs))).

Definition identifyIctalRegions64 (random : nat -> Q) (chs : list Channel)
  : list Region :=
  sort_by region_gt (mapRegions64 (length chs) random 0 (survivors64 chs)).

(* ================================================================= *)
(** ** The analysis panel *)

(** The parsed [eegData]; [None] is a value without a [channels] array. *)
Record EegData : Type := mkEegData {
  eeg_channels : option (list Channel)
}.

(** The panel's [identifyIctalRegions(data)]. *)
Definition panel_identifyIctalRegions (random : nat -> Q) (d : EegData)
  : list Region :=
  match eeg_channels d with
  | None => []
  | Some chs =>
      regionsOf (fun size =>
                   ndiv (ofNat size)
                        (if (length chs =? 0)%nat then 1 else ofNat (length chs)))
                random chs
  end.

Record FeatureEvent : Type := mkFeatureEvent {
  f_type : string;
  f_channel : string;
  f_amplitude : Q;
  f_frequency : Q;
  f_duration : Q;
  f_confidence : Z
}.

Record PatternCounts : Type := mkCounts {
  count_hfo : nat;
  count_ied : nat;
  count_rhythmic : nat;
  count_total : nat
}.

Record Percentages : Type := mkPercentages {
  pct_hfo : Q;
  pct_ied : Q;
  pct_rhythmic : Q
}.

Record Features : Type := mkFeatures {
  avg_amplitude : Q;
  avg_frequency : Q;
  avg_duration : Q
}.

Record FeatureStats : Type := mkStats {
  avgAmplitude : Q;
  avgFrequency : Q;
  avgDuration : Q;
  maxAmplitude : Q;
  maxFrequency : Q
}.

Record AnalysisResults : Type := mkResults {
  allEvents : list FeatureEvent;
  patternCounts : PatternCounts;
  patternPercentages : Percentages;
  featuresByType : Features * Features * Features;
  featureStats : FeatureStats;
  ictalRegions : list Region;
  epilepsyRisk : Z
}.

(** [draw] gives the three [Math.random()] values an event may consume:
    amplitude fallback, frequency, confidence.  The sums and products of
    the generated features are those of the doubles; with draws in
    [[0, 1)] they stay far from the overflow threshold, so [rnd] is the
    whole rounding. *)
Definition featureEvent (draw : nat -> Q) (ch : Channel) (e : Event) : FeatureEvent :=
  let amp :=
    if Qeq_bool (amplitude e) 0
    then ofZ (Math_round
                (rnd (voltage ch * rnd (rnd (draw 0%nat * (5 # 10)) + (5 # 10)))))
    else amplitude e in
  let freq :=
    if includes (type e) "HFO" then rnd (80 + rnd (draw 1%nat * 70))
    else if includes (type e) "IED" then rnd (8 + rnd (draw 1%nat * 12))
    else if includes (type e) "Rhythmic" then rnd (1 + rnd (draw 1%nat * 4))
    else 0 in
  mkFeatureEvent (type e) (name ch) amp freq (end_ e - start e)
                 (Math_round
                    (rnd (rnd (double (7 # 10) + rnd (draw 2%nat * double (3 # 10)))
                          * 100))).

Fixpoint featureEvents_from (k : nat) (random : nat -> nat -> Q) (ch : Channel)
         (evs : list Event) : list FeatureEvent :=
  match evs with
  | [] => []
  | e :: rest => featureEvent (random k) ch e :: featureEvents_from (S k) random ch rest
  end.

Fixpoint allEvents_from (c : nat) (random : nat -> nat -> nat -> Q)
         (chs : list Channel) : list FeatureEvent :=
  match chs with
  | [] => []
  | ch :: rest =>
      featureEvents_from 0 (random c) ch (events ch) ++ allEvents_from (S c) random rest
  end.

(** The counters of the first loop. *)
Definition countPatterns (evs : list Event) : PatternCounts :=
  let c := fold_left (fun c e => countType c (type e)) evs (mkEventCount 0 0 0) in
  mkCounts (hfo c) (ied c) (rhythmic c) (hfo c + ied c + rhythmic c).

(** [total > 0 ? (n / total) * 100 : 0], the quotient and the product
    rounded as the doubles are; a share of at most 1 is far from the
    overflow threshold. *)
Definition percentage (n total : nat) : Q :=
  if (0 <? total)%nat then rnd (rnd (ofNat n / ofNat total) * 100) else 0.

Definition average (l : list Q) : Q :=
  if (0 <? length l)%nat then sumQ l / ofNat (length l) else 0.

Definition maximum (l : list Q) : Q :=
  if (0 <? length l)%nat then maxVal l else 0.

Definition featuresOf (needle : string) (evs : list FeatureEvent) : Features :=
  let sel := filter (fun e => includes (f_type e) needle) evs in
  mkFeatures (average (map f_amplitude sel)) (average (map f_frequency sel))
             (average (map f_duration sel)).

Definition riskScore (counts : PatternCounts) (regions : nat) : Z :=
  let hfoWeight := 4 # 10 in
  let iedWeight := 3 # 10 in
  let rhythmicWeight := 1 # 10 in
  let ictalWeight := 2 # 10 in
  let maxPatterns := 50 in
  let normalizedHfo := Math_min (ofNat (count_hfo counts) / maxPatterns) 1 in
  let normalizedIed := Math_min (ofNat (count_ied counts) / maxPatterns) 1 in
  let normalizedRhythmic := Math_min (ofNat (count_rhythmic counts) / maxPatterns) 1 in
  let normalizedIctal := Math_min (ofNat regions / 5) 1 in
  Math_round ((normalizedHfo * hfoWeight + normalizedIed * iedWeight
               + normalizedRhythmic * rhythmicWeight + normalizedIctal * ictalWeight)
              * 100).

(** [generateAnalysisResults(eegData)]; [None] is the [TypeError] of
    [eegData.channels.forEach] on a value without [channels]. *)
Definition generateAnalysisResults (random : nat -> nat -> nat -> Q)
           (jitter : nat -> Q) (d : EegData) : option AnalysisResults :=
  match eeg_channels d with
  | None => None
  | Some chs =>
      let counts := countPatterns (flat_map events chs) in
      let evs := allEvents_from 0 random chs in
      let regions := panel_identifyIctalRegions jitter d in
      Some (mkResults
              evs counts
              (mkPercentages (percentage (count_hfo counts) (count_total counts))
                             (percentage (count_ied counts) (count_total counts))
                             (percentage (count_rhythmic counts) (count_total counts)))
              (featuresOf "HFO" evs, featuresOf "IED" evs, featuresOf "Rhythmic" evs)
              (mkStats (average (map f_amplitude evs)) (average (map f_frequency evs))
                       (average (map f_duration evs)) (maximum (map f_amplitude evs))
                       (maximum (map f_frequency evs)))
              regions
              (riskScore counts (length regions)))
  end.

(* ================================================================= *)
(** ** formatTime (analysis panel) *)

(** [Math.trunc], and [x % y] on numbers: the remainder takes the sign of
    the dividend. *)
Definition Math_trunc (x : Q) : Z :=
  if leb 0 x then Qfloor x else Qceiling x.

Definition js_rem (x y : Q) : Q := x - y * ofZ (Math_trunc (x / y)).

(** The decimal digits of an integer. *)
Definition decimal (z : Z) : string := NilZero.string_of_int (Z.to_int z).

(** [Number.prototype.toString] of an integer up to [2^53], whose digits
    are printed in full; the shortest digits and the exponents printed
    beyond are not modelled ([None]). *)
Definition toString (z : Z) : option string :=
  if (Z.abs z <=? 2 ^ 53)%Z then Some (decimal z) else None.

(** [String.prototype.padStart(n, "0")]. *)
Fixpoint zeros (n : nat) : string :=
  match n with
  | O => EmptyString
  | S n' => String "0" (zeros n')
  end.

Definition padStart0 (n : nat) (s : string) : string :=
  (zeros (n - String.length s) ++ s)%string.

(** [formatTime(seconds)] of a finite number: the quotient is rounded
    as the doubles are, the remainder of [%] is exact. *)
Definition formatTime (seconds : Q) : option string :=
  let minutes := Math_floor (rnd (seconds / 60)) in
  let secs := Math_floor (js_rem seconds 60) in
  match toString minutes, toString secs with
  | Some m, Some s => Some (padStart0 2 m ++ ":" ++ padStart0 2 s)%string
  | _, _ => None
  end.

(* ================================================================= *)
(** ** createChannelsFromData (processor)

    The samples are the entries of a [Float32Array]: finite numbers, [NaN]
    or an infinity. *)

Definition isNaN (x : num) : bool :=
  match x with NaN => true | _ => false end.

(** [Math.abs(x) > c]. *)
Definition abs_gt (x : num) (c : Q) : bool :=
  match x with
  | NaN => false
  | PInf | NInf => true
  | Fin q => ltb c (Math_abs q)
  end.

(** A channel as [createChannelsFromData] builds it; [raw_voltage] is
    [voltages[channelCount]], [None] when the table is too short. *)
Record RawChannel : Type := mkRaw {
  raw_name : string;
  raw_data : list num;
  raw_events : list Event;
  raw_voltage : option Q
}.

(** The variables of the loop: [channels], [currentChannel],
    [channelCount]. *)
Record SplitState : Type := mkSplit {
  split_channels : list RawChannel;
  split_current : list num;
  split_count : nat
}.

(** [channels.push({ name: channelNames[channelCount], data: currentChannel,
    events: [], voltage: voltages[channelCount] })], guarded by
    [channelCount < channelNames.length]. *)
Definition pushChannel (channelNames : list string) (voltages : list Q)
           (channels : list RawChannel) (currentChannel : list num)
           (channelCount : nat) : list RawChannel :=
  if (channelCount <? length channelNames)%nat
  then channels ++ [mkRaw (nth channelCount channelNames EmptyString) currentChannel []
                          (nth_error voltages channelCount)]
  else channels.

(** The [for] loop with [n] iterations left over the samples [l] from
    index [i] on: [value = data[i]] is the head of [l], [data[i + 1]] the
    head of its tail, and [i + 1 < data.length] holds when the tail is not
    empty.  Leaving the recursion is the [break]. *)
Fixpoint split_loop (channelNames : list string) (voltages : list Q)
         (n : nat) (l : list num) (st : SplitState) : SplitState :=
  match n, l with
  | S n', value :: rest =>
      if isNaN value then split_loop channelNames voltages n' rest st
      else
        let currentChannel := split_current st ++ [value] in
        if (100 <? length currentChannel)%nat
           && match rest with
              | next :: _ => abs_gt next 50
              | [] => false
              end
        then
          let channels := pushChannel channelNames voltages (split_channels st)
                                      currentChannel (split_count st) in
          if (length channelNames <=? S (split_count st))%nat
          then mkSplit channels [] (S (split_count st))
          else split_loop channelNames voltages n' rest
                          (mkSplit channels [] (S (split_count st)))
        else split_loop channelNames voltages n' rest
                        (mkSplit (split_channels st) currentChannel (split_count st))
  | _, _ => st
  end.

Definition createChannelsFromData (samples : list num) (channelNames : list string)
           (voltages : list Q) : list RawChannel :=
  let st := split_loop channelNames voltages (Nat.min (length samples) (100 * 100))
                       samples (mkSplit [] [] 0) in
  if (0 <? length (split_current st))%nat
     && (split_count st <? length channelNames)%nat
  then split_channels st
         ++ [mkRaw (nth (split_count st) channelNames EmptyString) (split_current st) []
                   (nth_error voltages (split_count st))]
  else split_channels st.

(** The tables of [processEegData]. *)
Definition channelNames11 : list string :=
  ["C4"; "CP5"; "Fz"; "P3"; "P4"; "C3"; "F4"; "O2"; "T8"; "T7"; "F3"]%string.

Definition voltages11 : list Q :=
  [388 # 10; 384 # 10; 382 # 10; 369 # 10; 367 # 10; 365 # 10; 355 # 10;
   345 # 10; 341 # 10; 341 # 10; 33].

(* ================================================================= *)
(** ** processEegData, from the extracted channels on

    The steps of [processEegData] that follow [createChannelsFromData], on
    channels of finite samples: the fallback to the demo recording, the
    padding with zeros, the detection and the clustering.  Reading the
    file and the smoothing of [preprocessEegData] are not modelled, nor is
    the content of the demo recording. *)

Inductive EegResult : Type :=
| DemoData
| Processed (channels : list Channel) (sampleRate : Q) (duration : Q)
            (ictalRegions : list Region).

(** [Math.max(...channels.map(channel => channel.data.length))] of a
    non-empty array. *)
Definition maxLength (chs : list Channel) : nat :=
  fold_right Nat.max O (map (fun ch => length (data ch)) chs).

(** [while (channel.data.length < maxLength) channel.data.push(0)]. *)
Definition padChannel (maxLength : nat) (ch : Channel) : Channel :=
  mkChannel (name ch) (data ch ++ repeat 0 (maxLength - length (data ch)))
            (events ch) (voltage ch).

Definition processChannels (detector_random : nat -> Z -> Q) (random : nat -> Q)
           (chs : list Channel) : option EegResult :=
  match chs with
  | [] => Some DemoData
  | _ :: _ =>
      let m := maxLength chs in
      match detectPatterns detector_random (map (padChannel m) chs) with
      | None => None
      | Some detected =>
          Some (Processed detected 250 (ofNat m / 250)
                          (identifyIctalRegions random detected))
      end
  end.

(* ================================================================= *)
(** ** handleRegionClick of the regions panel

    The panel's state is the selected region, if any, and the time window
    shown.  [duration] is [eegData?.duration], absent when there is no
    recording.  The padding and the bounds of the window are computed in
    double precision.  The result is [None] where [ictalRegions[index]]
    is undefined and reading its bounds throws. *)

Record PanelState : Type := mkPanel {
  selectedRegion : option nat;
  timeWindow : num * num
}.

(** [index === selectedRegion]. *)
Definition is_selected (index : nat) (selected : option nat) : bool :=
  match selected with
  | Some s => Nat.eqb index s
  | None => false
  end.

(** [eegData?.duration || 600]. *)
Definition durationOr600 (duration : option Q) : Q :=
  match duration with
  | Some d => if Qeq_bool d 0 then 600 else d
  | None => 600
  end.

Definition handleRegionClick (ictalRegions : list Region) (duration : option Q)
           (index : nat) (st : PanelState) : option PanelState :=
  if is_selected index (selectedRegion st) then
    Some (mkPanel None (timeWindow st))
  else
    match nth_error ictalRegions index with
    | None => None
    | Some region =>
        let padding :=
          fmul (fsub (Fin (region_end region)) (Fin (region_start region)))
               (Fin (double (2 # 10))) in
        let newTimeWindow :=
          (nmax 0 (fsub (Fin (region_start region)) padding),
           nmin (durationOr600 duration) (fadd (Fin (region_end region)) padding)) in
        Some (mkPanel (Some index) newTimeWindow)
    end.

(* ================================================================= *)
(** * Vocabulary of the properties *)

(** ** Windows *)

(** The pair the loop body sees at offset [i]. *)
Definition window_at (samples : list Q) (W i : Z) : Z * list Q :=
  (i, slice samples i (i + W)).

(** Windows in increasing order of offset. *)
Definition fst_lt (a b : Z * list Q) : Prop := (fst a < fst b)%Z.

(** ** Events *)

(** Inclusive-bound intersection of the time ranges of two events. *)
Definition intersects (a b : Event) : Prop :=
  start a <= end_ b /\ start b <= end_ a.

(** The type label is one the counters recognise. *)
Definition labelled (ty : string) : bool :=
  includes ty "HFO" || includes ty "IED" || includes ty "Rhythmic".

(** What the data model asks of an event: [end > start] and one of the
    three labels. *)
Definition event_ok (e : Event) : Prop :=
  start e < end_ e /\ labelled (type e) = true.

(** The events of the pool satisfy the invariant [end > start] of the
    data model. *)
Definition well_formed (chs : list Channel) : Prop :=
  forall e, In e (collectEvents chs) -> start (event e) < end_ (event e).

(** Ascending order of start times. *)
Definition start_le (a b : PooledEvent) : Prop :=
  start (event a) <= start (event b).

(** ** Clusters *)

(** The clustering rule in the words of the specification: an event joins
    the current cluster when [event.start <= clusterEnd + 10], and then
    [clusterEnd] becomes [max(clusterEnd, event.end)]; otherwise the
    current cluster is closed and a new one starts with that event. *)
Fixpoint greedy (cur : list PooledEvent) (cStart cEnd : Q) (l : list PooledEvent)
  : list Cluster :=
  match l with
  | [] => [mkCluster cur cStart cEnd]
  | ev :: rest =>
      if leb (start (event ev)) (cEnd + 10)
      then greedy (cur ++ [ev]) cStart (Math_max cEnd (end_ (event ev))) rest
      else mkCluster cur cStart cEnd
             :: greedy [ev] (start (event ev)) (end_ (event ev)) rest
  end.

(** The first event opens the first cluster. *)
Definition greedyClusters (l : list PooledEvent) : list Cluster :=
  match l with
  | [] => []
  | ev :: rest => greedy [ev] (start (event ev)) (end_ (event ev)) rest
  end.

(** The same rule with the sum of the doubles: the event joins when
    [event.start <= clusterEnd + 10] holds of the rounded sum. *)
Fixpoint greedy64 (cur : list PooledEvent) (cStart cEnd : Q) (l : list PooledEvent)
  : list Cluster :=
  match l with
  | [] => [mkCluster cur cStart cEnd]
  | ev :: rest =>
      if within10 (start (event ev)) cEnd
      then greedy64 (cur ++ [ev]) cStart (Math_max cEnd (end_ (event ev))) rest
      else mkCluster cur cStart cEnd
             :: greedy64 [ev] (start (event ev)) (end_ (event ev)) rest
  end.

Definition greedyClusters64 (l : list PooledEvent) : list Cluster :=
  match l with
  | [] => []
  | ev :: rest => greedy64 [ev] (start (event ev)) (end_ (event ev)) rest
  end.

(** The bounds of a cluster are attained by members and enclose every
    member: the start is the least start, the end is the greatest end. *)
Definition bounds_ok (c : Cluster) : Prop :=
  (exists e, In e (cluster_events c) /\ cluster_start c = start (event e))
  /\ (forall e, In e (cluster_events c) -> cluster_start c <= start (event e))
  /\ (exists e, In e (cluster_events c) /\ cluster_end c = end_ (event e))
  /\ (forall e, In e (cluster_events c) -> end_ (event e) <= cluster_end c).

(** ** Regions *)

(** [hfoRatio > 0.5 || totalEvents > 10], the quotient read over the
    rationals. *)
Definition high_condition (c : EventCount) : Prop :=
  5 # 10 < ofNat (hfo c) / ofNat (totalEvents c) \/ (10 < totalEvents c)%nat.

(** [hfoRatio > 0.2 || totalEvents > 5]. *)
Definition medium_condition (c : EventCount) : Prop :=
  2 # 10 < ofNat (hfo c) / ofNat (totalEvents c) \/ (5 < totalEvents c)%nat.

(** The numbers that are not [NaN] and not negative, and those that are
    positive; [+Infinity] is one of them. *)
Definition nonneg (x : num) : Prop :=
  match x with
  | PInf => True
  | Fin q => 0 <= q
  | NaN | NInf => False
  end.

Definition positive (x : num) : Prop :=
  match x with
  | PInf => True
  | Fin q => 0 < q
  | NaN | NInf => False
  end.

(** The times of the pooled events are finite doubles, as every number
    of a JavaScript program is. *)
Definition doubles (chs : list Channel) : Prop :=
  forall e, In e (collectEvents chs) ->
            is_double (start (event e)) = true /\ is_double (end_ (event e)) = true.

(** The confidence of region [r] of the recording [chs], in the words of
    the specification, the arithmetic being that of the doubles: a jitter
    [j] between the doubles [0.7] and [1.0], the event density
    [totalEvents / (end - start)] over a positive duration, the channel
    involvement (distinct member channels over the channels of the
    recording, of which there is one at least), and
    [confidence = min(95, round((eventDensity * 20 + channelInvolvement * 50) * j))],
    an integer of [0..95]. *)
Definition confidence_spec (chs : list Channel) (r : Region) : Prop :=
  exists c j,
    In c (survivors64 chs)
    /\ (double (7 # 10) <= j /\ j <= 1)
    /\ NoDup (channels r)
    /\ (forall x, In x (channels r) <-> exists e, In e (cluster_events c) /\ channel e = x)
    /\ region_start r < region_end r
    /\ (0 < length chs)%nat
    /\ (let eventDensity :=
          fdiv (Fin (ofNat (totalEvents (eventCount r))))
               (fsub (Fin (region_end r)) (Fin (region_start r))) in
        let channelInvolvement :=
          fdiv (Fin (ofNat (length (channels r)))) (Fin (ofNat (length chs))) in
        confidence r =
        nmin 95 (nround (fmul (fadd (fmul eventDensity (Fin 20))
                                    (fmul channelInvolvement (Fin 50)))
                              (Fin j))))
    /\ exists z, confidence r = Fin (ofZ z) /\ (0 <= z <= 95)%Z.

(** ** Summary *)

(** The risk score in the words of the specification. *)
Definition spec_risk (hfoCount iedCount rhythmicCount regionCount : nat) : Z :=
  Math_round
    (100 * ((4 # 10) * Qmin (ofNat hfoCount / 50) 1
            + (3 # 10) * Qmin (ofNat iedCount / 50) 1
            + (1 # 10) * Qmin (ofNat rhythmicCount / 50) 1
            + (2 # 10) * Qmin (ofNat regionCount / 5) 1)).

(** The three counters of [patternCounts]: an event counts for the first of
    [HFO] (0), [IED] (1), [Rhythmic] (2) its label contains. *)
Definition first_label (ty : string) : option nat :=
  if includes ty "HFO" then Some 0%nat
  else if includes ty "IED" then Some 1%nat
  else if includes ty "Rhythmic" then Some 2%nat
  else None.

(** The number of events counted for label [k]. *)
Definition count_label (k : nat) (evs : list Event) : nat :=
  length (filter (fun e => match first_label (type e) with
                           | Some k' => (k' =? k)%nat
                           | None => false
                           end) evs).

(* ================================================================= *)
(** * Sample recordings *)

(** A burst of 25 samples alternating between 15 and -15: one full
    HFO window at 250 Hz. *)
Definition burst25 : list Q :=
  map (fun j => if Nat.even j then 15 else - (15)) (seq 0 25).

(** A 200 ms window whose largest sample sits at position 5 ... *)
Definition peak_at_5 : list Q := repeat 0 5 ++ [60] ++ repeat 0 44.

(** ... and its mirror image, with the largest sample at position 44. *)
Definition peak_at_44 : list Q := repeat 0 44 ++ [60] ++ repeat 0 5.

(** 760 samples at 250 Hz: a peak of 30 every 50 samples (a regular 5 Hz
    rhythm), and between samples 300 and 324 a burst alternating between 15
    and -15. *)
Definition rhythm_with_burst : list Q :=
  map (fun j =>
         if ((300 <=? j) && (j <=? 324))%nat
         then (if Nat.even (j - 300) then 15 else - (15))
         else if (j mod 50 =? 25)%nat then 30 else 0)
      (seq 0 760).

(** A channel with these samples and no event yet. *)
Definition burst_channel : Channel := mkChannel "C4" rhythm_with_burst [] (388 # 10).

(** Two channels with three events, one of each type, within 5 s. *)
Definition three_events : list Channel :=
  [mkChannel "C4" [] [mkEvent 1 2 HFO_label 30 120; mkEvent 4 5 Rhythmic_label 40 5]
             (388 # 10);
   mkChannel "Fz" [] [mkEvent 3 (7 # 2) IED_label 60 10] (382 # 10)].

(** Three events of one channel that span the second from 0 to 1, in a
    recording of two channels. *)
Definition one_second : list Channel :=
  [mkChannel "C4" []
             [mkEvent 0 (1 # 2) HFO_label 30 120; mkEvent (1 # 4) (3 # 4) IED_label 60 12;
              mkEvent (1 # 2) 1 IED_label 60 12]
             (388 # 10);
   mkChannel "CP5" [] [] (384 # 10)].

(* ================================================================= *)
(** * Vocabulary of the further properties *)

(** ** Detectors *)

(** The body of the [(maxAmp, maxPos)] loop of [detectIEDs], on the state
    [(maxAmp, maxPos, j)]. *)
Definition amp_step (st : Q * nat * nat) (x : Q) : Q * nat * nat :=
  let '(maxAmp, maxPos, j) := st in
  if ltb maxAmp (Math_abs x) then (Math_abs x, j, S j) else (maxAmp, maxPos, S j).

(** What that loop keeps over the samples [l] seen so far: [maxAmp] bounds
    every [|v|], and once positive it is [|v|] at [maxPos]. *)
Definition amp_inv (l : list Q) (m : Q) (p : nat) : Prop :=
  0 <= m
  /\ (forall x, In x l -> Qabs x <= m)
  /\ (0 < m -> (p < length l)%nat /\ m = Qabs (nth p l 0)).

(** Every sample lies within 10 of zero. *)
Definition quiet (samples : list Q) : Prop :=
  forall x, In x samples -> - (10) <= x /\ x <= 10.

(** [e] spans the window of length [W] at a multiple of the step [S] that
    ends before the last of [L] samples, and carries [label]. *)
Definition window_event (L W S : Z) (label : string) (e : Event) : Prop :=
  exists k, (0 <= k)%Z /\ (k * S + W < L)%Z
            /\ start e = ofZ (k * S) / sampleRate250
            /\ end_ e = ofZ (k * S + W) / sampleRate250
            /\ type e = label.

(** An event of the HFO detector (100 ms every 50 ms) or of the rhythmic
    detector (3 s every second) at 250 Hz. *)
Definition detector_event (L : Z) (e : Event) : Prop :=
  window_event L 25 12 HFO_label e \/ window_event L 750 250 Rhythmic_label e.

(** Neither end of the later event [b] lies within the earlier event [a]. *)
Definition clear_of (a b : Event) : Prop :=
  ~ (start a <= start b /\ start b <= end_ a)
  /\ ~ (start a <= end_ b /\ end_ b <= end_ a).

(** What a detector keeps: every event is one of its windows, and no end
    of an event lies within an earlier one. *)
Definition events_inv (L : Z) (evs : list Event) : Prop :=
  Forall (detector_event L) evs /\ ForallOrdPairs clear_of evs.

(** Ten seconds of silence at 250 Hz. *)
Definition silence : list Q := repeat 0 2500.

(** ** Clusters and regions *)

(** More than 10 s lie between the end of [c1] and the start of [c2]. *)
Definition cluster_gap (c1 c2 : Cluster) : Prop :=
  cluster_end c1 + 10 < cluster_start c2.

(** What a cluster determines of its region without a random draw. *)
Definition cluster_core (c : Cluster)
  : Q * Q * list string * EventCount * Severity :=
  (cluster_start c, cluster_end c, channelSet (cluster_events c),
   countEvents (cluster_events c), severityOf (countEvents (cluster_events c))).

(** A region without its confidence. *)
Definition region_core (r : Region)
  : Q * Q * list string * EventCount * Severity :=
  (region_start r, region_end r, channels r, eventCount r, severity r).

(** The order of the emitted regions: a more severe region first, and
    among equally severe ones the more confident first. *)
Definition region_before (a b : Region) : Prop :=
  (severityOrder (severity a) < severityOrder (severity b))%Z
  \/ (severity a = severity b
      /\ exists qa qb, confidence a = Fin qa /\ confidence b = Fin qb /\ qb <= qa).

(** ** Summary *)

(** The risk score over the integers: eight tenths of a point per HFO, six
    per IED, two per rhythmic discharge (each count capped at 50), four
    points per region (capped at 5), rounded half up. *)
Definition risk_int (h i r g : Z) : Z :=
  (8 * Z.min h 50 + 6 * Z.min i 50 + 2 * Z.min r 50 + 40 * Z.min g 5 + 5) / 10.

(** Type, channel and duration of a pooled event, as the panel lists it. *)
Definition pooled_features (p : PooledEvent) : string * string * Q :=
  (type (event p), channel p, end_ (event p) - start (event p)).

Definition listed_features (f : FeatureEvent) : string * string * Q :=
  (f_type f, f_channel f, f_duration f).

(** ** Channel extraction *)

(** The sample is a number. *)
Definition clean (x : num) : bool := negb (isNaN x).

(** What the loop of [createChannelsFromData] keeps while fewer channels
    than names are complete: the channels built so far carry the first
    names and voltages in order, have no event, more than 100 samples
    each and no [NaN]; the channel under construction has no [NaN]. *)
Definition split_ok (channelNames : list string) (voltages : list Q)
           (st : SplitState) : Prop :=
  length (split_channels st) = split_count st
  /\ map raw_name (split_channels st) = firstn (split_count st) channelNames
  /\ map raw_voltage (split_channels st)
     = map (nth_error voltages) (seq 0 (split_count st))
  /\ Forall (fun c => raw_events c = []
                      /\ (100 < length (raw_data c))%nat
                      /\ forallb clean (raw_data c) = true)
            (split_channels st)
  /\ forallb clean (split_current st) = true.

(** The samples the channels hold, in order. *)
Definition split_data (st : SplitState) : list num :=
  concat (map raw_data (split_channels st)) ++ split_current st.

(** ** The processed recording *)

(** Name, samples and voltage scale of a channel. *)
Definition channel_signal (ch : Channel) : string * list Q * Q :=
  (name ch, data ch, voltage ch).

(** The time range lies within a recording of the given duration. *)
Definition within (duration lo hi : Q) : Prop :=
  0 <= lo /\ lo < hi /\ hi < duration.

(* ================================================================= *)
(** * Properties *)

(** ** Comparisons *)

Lemma leb_iff (x y : Q) : leb x y = true <-> x <= y.
Proof. unfold leb. apply Qle_bool_iff. Qed.

Lemma ltb_iff (x y : Q) : ltb x y = true <-> x < y.
Proof.
  unfold ltb. rewrite negb_true_iff. split; intro H.
  - apply Qnot_le_lt. intro Hle. apply Qle_bool_iff in Hle. congruence.
  - destruct (Qle_bool y x) eqn:E; [|reflexivity].
    apply Qle_bool_iff in E. exfalso. apply (Qlt_not_le _ _ H E).
Qed.

Lemma leb_false_iff (x y : Q) : leb x y = false <-> y < x.
Proof.
  rewrite <- ltb_iff. unfold ltb, leb. destruct (Qle_bool x y); simpl; intuition congruence.
Qed.

Lemma ltb_false_iff (x y : Q) : ltb x y = false <-> y <= x.
Proof.
  rewrite <- leb_iff. unfold ltb, leb. destruct (Qle_bool y x); simpl; intuition congruence.
Qed.

Lemma Math_max_l (x y : Q) : x <= Math_max x y.
Proof.
  unfold Math_max. destruct (leb x y) eqn:E.
  - now apply leb_iff.
  - apply Qle_refl.
Qed.

Lemma Math_max_r (x y : Q) : y <= Math_max x y.
Proof.
  unfold Math_max. destruct (leb x y) eqn:E.
  - apply Qle_refl.
  - apply leb_false_iff in E. now apply Qlt_le_weak.
Qed.

Lemma Math_max_cases (x y : Q) : Math_max x y = x \/ Math_max x y = y.
Proof. unfold Math_max. destruct (leb x y); auto. Qed.

Lemma Math_min_le_l (x y : Q) : Math_min x y <= x.
Proof.
  unfold Math_min. destruct (leb x y) eqn:E.
  - apply Qle_refl.
  - apply leb_false_iff in E. now apply Qlt_le_weak.
Qed.

Lemma Math_min_le_r (x y : Q) : Math_min x y <= y.
Proof.
  unfold Math_min. destruct (leb x y) eqn:E.
  - now apply leb_iff.
  - apply Qle_refl.
Qed.

Lemma Math_min_glb (x y z : Q) : z <= x -> z <= y -> z <= Math_min x y.
Proof. intros. unfold Math_min. destruct (leb x y); assumption. Qed.

(* ================================================================= *)
(** ** Double precision *)

(** *** Powers of two *)

Lemma pow2_pos (e : Z) : 0 < pow2 e.
Proof. apply Qpower_0_lt. reflexivity. Qed.

Lemma pow2_add (a b : Z) : pow2 (a + b) == pow2 a * pow2 b.
Proof. apply Qpower_plus. intros H. discriminate H. Qed.

Lemma pow2_le (a b : Z) : (a <= b)%Z -> pow2 a <= pow2 b.
Proof. intros H. apply Qpower_le_compat_l; [assumption|]. intros H'. discriminate H'. Qed.

Lemma pow2_lt (a b : Z) : (a < b)%Z -> pow2 a < pow2 b.
Proof. intros H. apply Qpower_lt_compat_l; [assumption|reflexivity]. Qed.

Lemma pow2_Z (n : Z) : (0 <= n)%Z -> pow2 n == inject_Z (2 ^ n).
Proof. intros H. symmetry. apply (Zpower_Qpower 2 n H). Qed.

Lemma pow2_split (a b : Z) : pow2 a == pow2 (a - b) * pow2 b.
Proof. rewrite <- pow2_add. replace (a - b + b)%Z with a by ring. reflexivity. Qed.

(** *** The binary logarithm *)

Lemma Q_num_den (q : Q) : q * inject_Z (Zpos (Qden q)) == inject_Z (Qnum q).
Proof.
  destruct q as [n d]. cbn [Qnum Qden]. rewrite (Qmake_Qdiv n d). field.
  intros H. discriminate H.
Qed.

Lemma ilog2_spec (q : Q) : 0 < q -> pow2 (ilog2 q) <= q /\ q < pow2 (ilog2 q + 1).
Proof.
  intros Hq.
  assert (Hn : (0 < Qnum q)%Z).
  { destruct q as [n d]. unfold Qlt in Hq. cbn in *. lia. }
  pose proof (Z.log2_spec (Qnum q) Hn) as [Ha1 Ha2].
  pose proof (Z.log2_spec (Zpos (Qden q)) (Pos2Z.is_pos _)) as [Hb1 Hb2].
  pose proof (Z.log2_nonneg (Qnum q)) as Ha0.
  pose proof (Z.log2_nonneg (Zpos (Qden q))) as Hb0.
  set (a := Z.log2 (Qnum q)) in *. set (b := Z.log2 (Zpos (Qden q))) in *.
  pose proof (Q_num_den q) as Hnd.
  assert (Hup : q < pow2 (a - b + 1)).
  { apply (Qmult_lt_r _ _ (pow2 b) (pow2_pos b)).
    rewrite <- pow2_add. replace (a - b + 1 + b)%Z with (a + 1)%Z by ring.
    apply (Qle_lt_trans _ (q * inject_Z (Zpos (Qden q)))).
    - apply Qmult_le_l; [assumption|]. rewrite pow2_Z by assumption.
      rewrite <- Zle_Qle. assumption.
    - rewrite Hnd, pow2_Z by lia. rewrite <- Zlt_Qlt. unfold Z.succ in Ha2. assumption. }
  assert (Hlo : pow2 (a - b - 1) <= q).
  { apply (Qmult_le_r _ _ (pow2 (b + 1)) (pow2_pos _)).
    rewrite <- pow2_add. replace (a - b - 1 + (b + 1))%Z with a by ring.
    apply (Qle_trans _ (q * inject_Z (Zpos (Qden q)))).
    - rewrite Hnd, pow2_Z by assumption. rewrite <- Zle_Qle. assumption.
    - apply Qmult_le_l; [assumption|]. rewrite pow2_Z by lia.
      rewrite <- Zle_Qle. unfold Z.succ in Hb2. lia. }
  unfold ilog2. fold a b. destruct (Qle_bool (pow2 (a - b)) q) eqn:E.
  - apply Qle_bool_iff in E. split; assumption.
  - split; [assumption|]. replace (a - b - 1 + 1)%Z with (a - b)%Z by ring.
    apply Qnot_le_lt. intros H. apply Qle_bool_iff in H. congruence.
Qed.

Lemma ilog2_unique (q : Q) (E : Z) :
  pow2 E <= q -> q < pow2 (E + 1) -> ilog2 q = E.
Proof.
  intros H1 H2.
  assert (Hq : 0 < q) by (apply (Qlt_le_trans _ (pow2 E)); [apply pow2_pos|assumption]).
  destruct (ilog2_spec q Hq) as [L1 L2].
  destruct (Z.lt_trichotomy (ilog2 q) E) as [H | [H | H]]; [|assumption|].
  - exfalso. pose proof (pow2_le (ilog2 q + 1) E ltac:(lia)). lra.
  - exfalso. pose proof (pow2_le (E + 1) (ilog2 q) ltac:(lia)). lra.
Qed.

Lemma ilog2_mono (x y : Q) : 0 < x -> x <= y -> (ilog2 x <= ilog2 y)%Z.
Proof.
  intros Hx Hxy.
  destruct (ilog2_spec x Hx) as [X1 X2].
  destruct (ilog2_spec y ltac:(lra)) as [Y1 Y2].
  destruct (Z_le_gt_dec (ilog2 x) (ilog2 y)) as [H | H]; [assumption|].
  exfalso. pose proof (pow2_le (ilog2 y + 1) (ilog2 x) ltac:(lia)). lra.
Qed.

(** *** Rounding to an integer *)

Lemma round_even_bounds (q : Q) :
  (Qfloor q <= round_even q <= Qfloor q + 1)%Z.
Proof.
  unfold round_even. destruct (Qcompare _ _); [destruct (Z.even _)| |]; lia.
Qed.

Lemma round_even_comp (x y : Q) : x == y -> round_even x = round_even y.
Proof.
  intros H. unfold round_even. rewrite (Qfloor_comp _ _ H).
  assert (H' : x - inject_Z (Qfloor y) == y - inject_Z (Qfloor y)) by (rewrite H; reflexivity).
  rewrite (Qcompare_comp _ _ H' _ _ (Qeq_refl (1 # 2))). reflexivity.
Qed.

Lemma round_even_Z (z : Z) : round_even (inject_Z z) = z.
Proof.
  unfold round_even. rewrite Qfloor_Z.
  destruct (Qcompare_spec (inject_Z z - inject_Z z) (1 # 2)) as [E | E | E];
    [exfalso; lra|reflexivity|exfalso; lra].
Qed.

Lemma round_even_mono (x y : Q) : x <= y -> (round_even x <= round_even y)%Z.
Proof.
  intros H. pose proof (Qfloor_resp_le _ _ H) as Hf.
  pose proof (round_even_bounds x) as Bx. pose proof (round_even_bounds y) as By.
  destruct (Z_lt_le_dec (Qfloor x) (Qfloor y)) as [Hlt | Hge]; [lia|].
  assert (Heq : Qfloor x = Qfloor y) by lia.
  unfold round_even. rewrite Heq.
  destruct (Qcompare_spec (x - inject_Z (Qfloor y)) (1 # 2)) as [Ex | Ex | Ex];
    destruct (Qcompare_spec (y - inject_Z (Qfloor y)) (1 # 2)) as [Ey | Ey | Ey];
    try destruct (Z.even (Qfloor y)); try lia; exfalso; lra.
Qed.

Lemma round_even_nonneg (q : Q) : 0 <= q -> (0 <= round_even q)%Z.
Proof.
  intros H. rewrite <- (round_even_Z 0). now apply round_even_mono.
Qed.

Lemma round_even_error (q : Q) :
  inject_Z (round_even q) - q <= 1 # 2 /\ q - inject_Z (round_even q) <= 1 # 2.
Proof.
  pose proof (Qfloor_le q) as H1. pose proof (Qlt_floor q) as H2.
  rewrite inject_Z_plus in H2. change (inject_Z 1) with 1 in H2.
  unfold round_even.
  destruct (Qcompare_spec (q - inject_Z (Qfloor q)) (1 # 2)) as [E | E | E];
    [destruct (Z.even (Qfloor q))| |]; rewrite ?inject_Z_plus;
    change (inject_Z 1) with 1; split; lra.
Qed.

(** *** Rounding to 53 bits *)

Lemma ulp_exponent_mono (x y : Q) :
  0 < x -> x <= y -> (ulp_exponent x <= ulp_exponent y)%Z.
Proof.
  intros Hx Hxy. pose proof (ilog2_mono x y Hx Hxy). unfold ulp_exponent. lia.
Qed.

Lemma rnd_pos_eq (q : Q) :
  rnd_pos q == inject_Z (round_even (q / pow2 (ulp_exponent q))) * pow2 (ulp_exponent q).
Proof. unfold rnd_pos. apply Qred_correct. Qed.

(** A value at most [2^(k+e)] stays so when rounded on the grid [2^e]. *)
Lemma grid_round_le (x : Q) (k e : Z) :
  (0 <= k)%Z -> x <= pow2 (k + e) ->
  inject_Z (round_even (x / pow2 e)) * pow2 e <= pow2 (k + e).
Proof.
  intros Hk Hx. rewrite (pow2_add k e).
  apply Qmult_le_compat_r; [|apply Qlt_le_weak, pow2_pos].
  rewrite (pow2_Z k Hk), <- Zle_Qle, <- (round_even_Z (2 ^ k)).
  apply round_even_mono. rewrite <- (pow2_Z k Hk).
  apply Qle_shift_div_r; [apply pow2_pos|]. now rewrite <- pow2_add.
Qed.

Lemma grid_round_ge (y : Q) (k e : Z) :
  (0 <= k)%Z -> pow2 (k + e) <= y ->
  pow2 (k + e) <= inject_Z (round_even (y / pow2 e)) * pow2 e.
Proof.
  intros Hk Hy. rewrite (pow2_add k e).
  apply Qmult_le_compat_r; [|apply Qlt_le_weak, pow2_pos].
  rewrite (pow2_Z k Hk), <- Zle_Qle, <- (round_even_Z (2 ^ k)).
  apply round_even_mono. rewrite <- (pow2_Z k Hk).
  apply Qle_shift_div_l; [apply pow2_pos|]. now rewrite <- pow2_add.
Qed.

Lemma rnd_pos_mono (x y : Q) : 0 < x -> x <= y -> rnd_pos x <= rnd_pos y.
Proof.
  intros Hx Hxy. rewrite !rnd_pos_eq.
  pose proof (ulp_exponent_mono x y Hx Hxy) as He.
  destruct (Z.eq_dec (ulp_exponent x) (ulp_exponent y)) as [Heq | Hne].
  - rewrite Heq. apply Qmult_le_compat_r; [|apply Qlt_le_weak, pow2_pos].
    rewrite <- Zle_Qle. apply round_even_mono.
    unfold Qdiv. apply Qmult_le_compat_r; [assumption|].
    apply Qlt_le_weak, Qinv_lt_0_compat, pow2_pos.
  - destruct (ilog2_spec x Hx) as [_ X2].
    destruct (ilog2_spec y ltac:(lra)) as [Y1 _].
    assert (Hey : ulp_exponent y = (ilog2 y - 52)%Z) by (unfold ulp_exponent in *; lia).
    assert (Hex : (ilog2 x - 52 <= ulp_exponent x)%Z) by (unfold ulp_exponent; lia).
    apply (Qle_trans _ (pow2 (53 + ulp_exponent x))).
    + apply grid_round_le; [lia|].
      apply Qlt_le_weak, (Qlt_le_trans _ _ _ X2), pow2_le. lia.
    + apply (Qle_trans _ (pow2 (52 + ulp_exponent y))).
      * apply pow2_le. lia.
      * apply grid_round_ge; [lia|].
        replace (52 + ulp_exponent y)%Z with (ilog2 y) by lia. assumption.
Qed.

Lemma rnd_pos_nonneg (q : Q) : 0 < q -> 0 <= rnd_pos q.
Proof.
  intros H. rewrite rnd_pos_eq.
  apply Qmult_le_0_compat; [|apply Qlt_le_weak, pow2_pos].
  change 0 with (inject_Z 0). rewrite <- Zle_Qle. apply round_even_nonneg.
  apply Qlt_le_weak, Qlt_shift_div_l; [apply pow2_pos|]. lra.
Qed.

Lemma rnd_mono (x y : Q) : x <= y -> rnd x <= rnd y.
Proof.
  intros H. unfold rnd.
  destruct (Qcompare_spec x 0) as [Ex | Ex | Ex];
    destruct (Qcompare_spec y 0) as [Ey | Ey | Ey]; try lra.
  - now apply rnd_pos_nonneg.
  - pose proof (rnd_pos_nonneg (- x) ltac:(lra)). lra.
  - pose proof (rnd_pos_mono (- y) (- x) ltac:(lra) ltac:(lra)). lra.
  - pose proof (rnd_pos_nonneg (- x) ltac:(lra)).
    pose proof (rnd_pos_nonneg y Ey). lra.
  - now apply rnd_pos_mono.
Qed.

Lemma rnd_comp (x y : Q) : x == y -> rnd x == rnd y.
Proof.
  intros H. apply Qle_antisym; apply rnd_mono; rewrite H; apply Qle_refl.
Qed.

Lemma rnd_nonneg (q : Q) : 0 <= q -> 0 <= rnd q.
Proof. intros H. change (rnd 0 <= rnd q). now apply rnd_mono. Qed.

Lemma rnd_nonpos (q : Q) : q <= 0 -> rnd q <= 0.
Proof. intros H. change (rnd q <= rnd 0). now apply rnd_mono. Qed.

(** *** The doubles *)

Lemma rnd_pos_comp (x y : Q) : 0 < x -> x == y -> rnd_pos x == rnd_pos y.
Proof.
  intros Hx H. apply Qle_antisym; apply rnd_pos_mono; rewrite ?H; try apply Qle_refl.
  - rewrite <- H. assumption.
  - rewrite <- H. assumption.
Qed.

Lemma ilog2_dyadic (m e : Z) :
  (0 < m)%Z -> ilog2 (inject_Z m * pow2 e) = (Z.log2 m + e)%Z.
Proof.
  intros Hm. destruct (Z.log2_spec m Hm) as [H1 H2]. unfold Z.succ in H2.
  pose proof (Z.log2_nonneg m) as H0. pose proof (pow2_pos e) as He.
  apply ilog2_unique.
  - rewrite pow2_add, (pow2_Z _ H0). apply Qmult_le_compat_r; [|lra].
    now rewrite <- Zle_Qle.
  - replace (Z.log2 m + e + 1)%Z with ((Z.log2 m + 1) + e)%Z by ring.
    rewrite pow2_add, (pow2_Z (Z.log2 m + 1)) by lia.
    apply Qmult_lt_compat_r; [assumption|]. now rewrite <- Zlt_Qlt.
Qed.

Lemma rnd_pos_dyadic (m e : Z) :
  (0 < m < 2 ^ 53)%Z -> (-1074 <= e)%Z ->
  rnd_pos (inject_Z m * pow2 e) == inject_Z m * pow2 e.
Proof.
  intros [Hm Hm53] He. rewrite rnd_pos_eq.
  assert (HL : (Z.log2 m < 53)%Z) by (apply Z.log2_lt_pow2; assumption).
  unfold ulp_exponent. rewrite (ilog2_dyadic m e Hm).
  set (e' := Z.max (Z.log2 m + e - 52) (-1074)).
  assert (Hle : (e' <= e)%Z) by (unfold e'; lia).
  assert (Hq : inject_Z m * pow2 e / pow2 e' == inject_Z (m * 2 ^ (e - e'))).
  { rewrite inject_Z_mult, <- (pow2_Z (e - e')) by lia.
    rewrite (pow2_split e e'). field.
    intros H. pose proof (pow2_pos e'). lra. }
  rewrite (round_even_comp _ _ Hq), round_even_Z.
  rewrite inject_Z_mult, <- (pow2_Z (e - e')) by lia.
  rewrite (pow2_split e e'). ring.
Qed.

Lemma rnd_dyadic (m e : Z) :
  (- 2 ^ 53 < m < 2 ^ 53)%Z -> (-1074 <= e)%Z ->
  rnd (inject_Z m * pow2 e) == inject_Z m * pow2 e.
Proof.
  intros Hm He. pose proof (pow2_pos e) as Hp. unfold rnd.
  destruct (Qcompare_spec (inject_Z m * pow2 e) 0) as [E | E | E].
  - now rewrite E.
  - assert (Hneg : (m < 0)%Z).
    { destruct (Z_lt_le_dec m 0) as [H | H]; [assumption|exfalso].
      rewrite Zle_Qle in H. change (inject_Z 0) with 0 in H.
      pose proof (Qmult_le_0_compat _ _ H (Qlt_le_weak _ _ Hp)). lra. }
    assert (Heq : - (inject_Z m * pow2 e) == inject_Z (- m) * pow2 e)
      by (rewrite inject_Z_opp; ring).
    assert (Hq0 : 0 < - (inject_Z m * pow2 e)) by lra.
    rewrite (rnd_pos_comp _ _ Hq0 Heq), rnd_pos_dyadic by lia.
    rewrite inject_Z_opp. ring.
  - assert (Hpos : (0 < m)%Z).
    { destruct (Z_lt_le_dec 0 m) as [H | H]; [assumption|exfalso].
      rewrite Zle_Qle in H. change (inject_Z 0) with 0 in H.
      assert (H' : 0 <= - inject_Z m) by lra.
      pose proof (Qmult_le_0_compat _ _ H' (Qlt_le_weak _ _ Hp)). lra. }
    apply rnd_pos_dyadic; [lia|assumption].
Qed.

Lemma rnd_Z (z : Z) : (- 2 ^ 53 < z < 2 ^ 53)%Z -> rnd (inject_Z z) == inject_Z z.
Proof.
  intros Hz.
  assert (H : inject_Z z == inject_Z z * pow2 0) by (change (pow2 0) with 1; ring).
  rewrite (rnd_comp _ _ H), rnd_dyadic by lia. symmetry. exact H.
Qed.

(** Every rounded value is a multiple of [2^-1074]. *)
Lemma rnd_grid (q : Q) : exists k, rnd q == inject_Z k * pow2 (-1074).
Proof.
  assert (Hpos : forall x, exists k, rnd_pos x == inject_Z k * pow2 (-1074)).
  { intros x. set (e := ulp_exponent x).
    exists (round_even (x / pow2 e) * 2 ^ (e + 1074))%Z.
    rewrite rnd_pos_eq. fold e.
    assert (He : (0 <= e + 1074)%Z) by (unfold e, ulp_exponent; lia).
    rewrite inject_Z_mult, <- (pow2_Z _ He), <- Qmult_assoc, <- pow2_add.
    replace (e + 1074 + -1074)%Z with e by ring. reflexivity. }
  unfold rnd. destruct (Qcompare q 0).
  - exists 0%Z. ring.
  - destruct (Hpos (- q)) as [k Hk]. exists (- k)%Z.
    rewrite Hk, inject_Z_opp. ring.
  - apply Hpos.
Qed.

(** Two different doubles are at least [2^-1074] apart. *)
Lemma doubles_apart (a b : Q) :
  rnd a == a -> rnd b == b -> a < b -> pow2 (-1074) <= b - a.
Proof.
  intros Ha Hb Hab.
  destruct (rnd_grid a) as [ka Hka]. destruct (rnd_grid b) as [kb Hkb].
  rewrite Ha in Hka. rewrite Hb in Hkb.
  pose proof (pow2_pos (-1074)) as Hu.
  assert (Hk : (ka + 1 <= kb)%Z).
  { destruct (Z_lt_le_dec ka kb) as [H | H]; [lia|exfalso].
    rewrite Zle_Qle in H. rewrite Hka, Hkb in Hab. nra. }
  rewrite Zle_Qle, inject_Z_plus in Hk. change (inject_Z 1) with 1 in Hk.
  rewrite Hka, Hkb. nra.
Qed.

Lemma rnd_sub_pos (a b : Q) :
  rnd a == a -> rnd b == b -> a < b -> 0 < rnd (b - a).
Proof.
  intros Ha Hb Hab.
  apply (Qlt_le_trans _ (pow2 (-1074))); [apply pow2_pos|].
  assert (H1 : rnd (pow2 (-1074)) == pow2 (-1074)).
  { assert (H : pow2 (-1074) == inject_Z 1 * pow2 (-1074)) by ring.
    rewrite (rnd_comp _ _ H), rnd_dyadic by lia. symmetry. exact H. }
  rewrite <- H1. apply rnd_mono. now apply doubles_apart.
Qed.

(** *** Agreement with the Standard Library's specification *)

(** On the sample operations the four operations return what [SFadd],
    [SFsub], [SFmul] and [SFdiv] return at precision 53. *)
Lemma operations_agree_with_SpecFloat : forallb agree sample_operations = true.
Proof. vm_compute. reflexivity. Qed.

(* ================================================================= *)
(** ** The sliding-window loop *)

(** What the loop yields from offset [i] on, given enough fuel: the windows
    at [i], [i + S], [i + 2S], ... whose end lies strictly before the end
    of the samples, in increasing order of offset. *)
Lemma scan_loop_windows (samples : list Q) (W S : Z) :
  (0 < S)%Z ->
  forall (fuel : nat) (i : Z),
    (Z.of_nat (length samples) - W - i <= Z.of_nat fuel)%Z ->
    exists ws,
      scan_loop fuel samples W S i = Some ws
      /\ (forall j w, In (j, w) ws <->
            exists k, (0 <= k)%Z /\ j = (i + k * S)%Z
                      /\ (j + W < Z.of_nat (length samples))%Z
                      /\ w = slice samples j (j + W))
      /\ StronglySorted fst_lt ws
      /\ Forall (fun p => (i <= fst p)%Z) ws.
Proof.
  intros HS. induction fuel as [|fuel IH]; intros i Hfuel.
  - exists []. cbn [scan_loop].
    destruct (Z.ltb_spec i (Z.of_nat (length samples) - W)); [lia|].
    repeat split; try constructor.
    + intros [].
    + intros (k & Hk & -> & Hlt & _). nia.
  - cbn [scan_loop].
    destruct (Z.ltb_spec i (Z.of_nat (length samples) - W)) as [Hlt|Hge].
    + destruct (IH (i + S)%Z) as (ws & Hws & Hin & Hsorted & Hlow); [lia|].
      exists (window_at samples W i :: ws). rewrite Hws. cbn [option_map].
      split; [reflexivity|]. split; [|split].
      * intros j w. cbn [In]. rewrite Hin. unfold window_at. split.
        -- intros [Heq | (k & Hk & -> & Hj & ->)].
           ++ inversion Heq; subst. exists 0%Z. repeat split; lia.
           ++ exists (k + 1)%Z. repeat split; lia.
        -- intros (k & Hk & -> & Hj & ->).
           destruct (Z.eq_dec k 0) as [->|Hne].
           ++ left. f_equal; [lia|]. f_equal; lia.
           ++ right. exists (k - 1)%Z.
              replace (i + S + (k - 1) * S)%Z with (i + k * S)%Z by lia.
              repeat split; lia.
      * constructor; [assumption|].
        eapply Forall_impl; [|exact Hlow]. intros p Hp. unfold fst_lt, window_at. cbn in *. lia.
      * constructor; [cbn; lia|].
        eapply Forall_impl; [|exact Hlow]. intros p Hp. cbn in *. lia.
    + exists []. repeat split; try constructor.
      * intros [].
      * intros (k & Hk & -> & Hj & _). nia.
Qed.

(** The scan of a detector with a positive step: it terminates, and yields
    exactly the windows at the multiples of the step that end strictly
    before the last sample's end. *)
Lemma scan_windows (samples : list Q) (W S : Z) :
  (0 < S)%Z ->
  exists ws,
    scan samples W S = Some ws
    /\ (forall j w, In (j, w) ws <->
          exists k, (0 <= k)%Z /\ j = (k * S)%Z
                    /\ (j + W < Z.of_nat (length samples))%Z
                    /\ w = slice samples j (j + W))
    /\ StronglySorted fst_lt ws.
Proof.
  intros HS. unfold scan.
  destruct (scan_loop_windows samples W S HS
              (Z.to_nat (Z.of_nat (length samples) - W)) 0%Z) as (ws & H1 & H2 & H3 & _);
    [lia|].
  exists ws. repeat split; try assumption.
  - intros H. apply H2 in H. destruct H as (k & ? & ? & ? & ?). exists k. repeat split; auto; lia.
  - intros (k & ? & ? & ? & ?). apply H2. exists k. repeat split; auto; lia.
Qed.

(** No window at all when the samples are not longer than one window. *)
Lemma scan_short (samples : list Q) (W S : Z) :
  (Z.of_nat (length samples) <= W)%Z -> scan samples W S = Some [].
Proof.
  intros H. unfold scan.
  replace (Z.to_nat (Z.of_nat (length samples) - W)) with O by lia.
  cbn [scan_loop]. destruct (Z.ltb_spec 0 (Z.of_nat (length samples) - W)); [lia|reflexivity].
Qed.

(** C2 (the code departs from the claim).  The loop guard is
    [i < data.length - windowSize], that is [i + W < L]: the window that
    ends exactly at the last sample is never visited.  On 25 samples with
    [W = 25] and [S = 12] the slice [[0, 25)] satisfies [i + W <= L], yet
    the scan yields nothing, and [detectHFOs] reports no event although
    that very window classifies as an HFO. *)
Theorem scan_skips_final_window :
  length burst25 = 25%nat
  /\ (0 + 25 <= Z.of_nat (length burst25))%Z
  /\ scan burst25 25 12 = Some []
  /\ detectHFOs burst25 [] sampleRate250 = Some []
  /\ length (hfo_window sampleRate250 25 [] (window_at burst25 25 0)) = 1%nat.
Proof. repeat split; vm_compute; congruence. Qed.

(* ================================================================= *)
(** ** The slopes of the IED detector *)

(** The guard of the code is [maxPos > 5 && maxPos < windowData.length - 5]. *)
Lemma slopes_guard (w : list Q) (maxPos : nat) :
  slopes w maxPos =
  if ((6 <=? Z.of_nat maxPos) && (Z.of_nat maxPos <=? Z.of_nat (length w) - 1 - 5))%Z
  then ((nth maxPos w 0 - nth (maxPos - 5) w 0) / 5,
        (nth maxPos w 0 - nth (maxPos + 5) w 0) / 5)
  else (0, 0).
Proof.
  unfold slopes.
  destruct (Z.ltb_spec 5 (Z.of_nat maxPos)), (Z.leb_spec 6 (Z.of_nat maxPos)); try lia;
    destruct (Z.ltb_spec (Z.of_nat maxPos) (Z.of_nat (length w) - 5)),
             (Z.leb_spec (Z.of_nat maxPos) (Z.of_nat (length w) - 1 - 5)); try lia;
    reflexivity.
Qed.

(** With zero slopes the window does not classify. *)
Lemma ied_classify_zero_slopes (maxAmp : Q) : ied_classify maxAmp 0 0 = false.
Proof.
  unfold ied_classify. destruct (ltb 50 maxAmp); reflexivity.
Qed.

(** C8 (the code departs from the claim).  With the peak at position 5 of
    a 50-sample window there are 5 samples before it and 44 after it, so
    [maxPos >= 5] and [maxPos <= windowLength - 1 - 5]; the claim gives
    [slopeBefore = (60 - 0) / 5 = 12], the code gives zero slopes, because
    its guard reads [maxPos > 5].  The other side of the same guard does
    accept a margin of exactly 5 samples (peak at position 44). *)
Theorem slopes_need_six_samples_before :
  length peak_at_5 = 50%nat
  /\ maxAmpPos peak_at_5 = (60, 5%nat)
  /\ (5 <= 5 /\ 5 <= 50 - 1 - 5)%Z
  /\ slopes peak_at_5 5 = (0, 0)
  /\ (nth 5 peak_at_5 0 - nth (5 - 5) peak_at_5 0) / 5 == 12
  /\ maxAmpPos peak_at_44 = (60, 44%nat)
  /\ (44 + 5 = 50 - 1)%Z
  /\ fst (slopes peak_at_44 44) == 12 /\ snd (slopes peak_at_44 44) == 12.
Proof. repeat split; vm_compute; congruence. Qed.

(* ================================================================= *)
(** ** Overlap of accepted events *)

(** What the test before [events.push] asks: the start or the end of the
    candidate lies within an accepted event. *)
Lemma overlapping_iff (evs : list Event) (startTime endTime : Q) :
  overlapping evs startTime endTime = true <->
  exists ev, In ev evs
             /\ ((start ev <= startTime /\ startTime <= end_ ev)
                 \/ (start ev <= endTime /\ endTime <= end_ ev)).
Proof.
  unfold overlapping. rewrite existsb_exists.
  split; intros (ev & Hin & H); exists ev; (split; [assumption|]).
  - rewrite orb_true_iff, !andb_true_iff, !leb_iff in H. exact H.
  - rewrite orb_true_iff, !andb_true_iff, !leb_iff. exact H.
Qed.

(** C1 (the code departs from the claim).  The test before [events.push]
    only asks whether the start or the end of the candidate lies inside an
    accepted event; a candidate that strictly contains an accepted event
    passes.  Here the HFO detector accepts the window [[1.2 s, 1.3 s]], and
    the rhythmic detector then accepts [[0 s, 3 s]], which contains it. *)
Theorem detectPatterns_accepts_intersecting_events :
  forall random : nat -> Z -> Q,
  exists e1 e2,
    option_map (map events) (detectPatterns random [burst_channel]) = Some [[e1; e2]]
    /\ type e1 = HFO_label /\ start e1 == 12 # 10 /\ end_ e1 == 13 # 10
    /\ type e2 = Rhythmic_label /\ start e2 == 0 /\ end_ e2 == 3
    /\ intersects e1 e2
    /\ overlapping [e1] (start e2) (end_ e2) = false.
Proof.
  intros random. eexists. eexists. split.
  - vm_compute. reflexivity.
  - unfold intersects. cbn [type start end_].
    repeat split; vm_compute; congruence.
Qed.

(* ================================================================= *)
(** ** Sorting the pooled events *)

Lemma start_gt_iff (a b : PooledEvent) :
  start_gt a b = true <-> start (event b) < start (event a).
Proof. unfold start_gt. rewrite ltb_iff. split; intro; lra. Qed.

Lemma start_gt_false (a b : PooledEvent) :
  start_gt a b = false -> start_le a b.
Proof. unfold start_gt, start_le. rewrite ltb_false_iff. intro; lra. Qed.

Lemma insert_by_perm {A : Type} (gt : A -> A -> bool) (x : A) (l : list A) :
  Permutation (insert_by gt x l) (x :: l).
Proof.
  induction l as [|y l IH]; cbn [insert_by]; [reflexivity|].
  destruct (gt x y); [|reflexivity].
  rewrite IH. apply perm_swap.
Qed.

Lemma sort_by_perm {A : Type} (gt : A -> A -> bool) (l : list A) :
  Permutation (sort_by gt l) l.
Proof.
  induction l as [|x l IH]; cbn [sort_by fold_right]; [reflexivity|].
  rewrite insert_by_perm. now constructor.
Qed.

Lemma insert_by_start_sorted (x : PooledEvent) (l : list PooledEvent) :
  StronglySorted start_le l -> StronglySorted start_le (insert_by start_gt x l).
Proof.
  induction 1 as [|y l Hs IH Hy]; cbn [insert_by].
  - repeat constructor.
  - destruct (start_gt x y) eqn:E.
    + constructor; [assumption|].
      eapply Permutation_Forall; [symmetry; apply insert_by_perm|].
      constructor; [|assumption].
      apply start_gt_iff in E. unfold start_le. lra.
    + apply start_gt_false in E.
      constructor; [now constructor|].
      constructor; [assumption|].
      eapply Forall_impl; [|exact Hy]. unfold start_le in *. intros; lra.
Qed.

Lemma sortEvents_sorted (l : list PooledEvent) : StronglySorted start_le (sortEvents l).
Proof.
  unfold sortEvents, sort_by. induction l as [|x l IH]; cbn [fold_right].
  - constructor.
  - now apply insert_by_start_sorted.
Qed.

Lemma sortEvents_perm (l : list PooledEvent) : Permutation (sortEvents l) l.
Proof. apply sort_by_perm. Qed.

(* ================================================================= *)
(** ** The clustering loop *)

Lemma closeCluster_nonempty (st : ClusterState) :
  currentCluster st <> [] ->
  closeCluster st =
  clusters st ++ [mkCluster (currentCluster st) (clusterStart st) (clusterEnd st)].
Proof.
  unfold closeCluster. destruct (currentCluster st); [congruence|reflexivity].
Qed.

Lemma forEach_from_greedy (l : list PooledEvent) :
  forall (index : nat) (st : ClusterState),
    index <> O -> currentCluster st <> [] ->
    closeCluster (forEach_from index st l) =
    clusters st ++ greedy (currentCluster st) (clusterStart st) (clusterEnd st) l.
Proof.
  induction l as [|ev rest IH]; intros index st Hidx Hcur; cbn [forEach_from greedy].
  - now apply closeCluster_nonempty.
  - unfold cluster_step. destruct index as [|n]; [congruence|]. cbn [Nat.eqb].
    destruct (leb (start (event ev)) (clusterEnd st + 10)).
    + rewrite IH; [reflexivity|congruence|]. cbn. now destruct (currentCluster st).
    + rewrite IH; [|congruence|cbn; congruence]. cbn [clusters currentCluster clusterStart clusterEnd].
      rewrite closeCluster_nonempty by assumption.
      now rewrite <- app_assoc.
Qed.

Lemma clusterEvents_greedy (l : list PooledEvent) : clusterEvents l = greedyClusters l.
Proof.
  unfold clusterEvents. destruct l as [|ev rest]; [reflexivity|].
  cbn [forEach_from greedyClusters]. rewrite forEach_from_greedy.
  - reflexivity.
  - congruence.
  - cbn. congruence.
Qed.

(** Every event before a position of a sorted list starts no later. *)
Lemma sorted_prefix_le (pre : list PooledEvent) (a : PooledEvent)
      (post : list PooledEvent) :
  StronglySorted start_le (pre ++ a :: post) ->
  forall e, In e (pre ++ [a]) -> start_le e a.
Proof.
  induction pre as [|x pre IH]; cbn [app]; intros Hs e He.
  - destruct He as [<- | []]. unfold start_le. apply Qle_refl.
  - inversion Hs as [|? ? Hs' Hall]; subst.
    destruct He as [<- | He].
    + rewrite Forall_forall in Hall. apply Hall. apply in_or_app. right. now left.
    + now apply IH.
Qed.

(** *** The loop in double precision *)

Lemma forEach_from64_greedy (l : list PooledEvent) :
  forall (index : nat) (st : ClusterState),
    index <> O -> currentCluster st <> [] ->
    closeCluster (forEach_from64 index st l) =
    clusters st ++ greedy64 (currentCluster st) (clusterStart st) (clusterEnd st) l.
Proof.
  induction l as [|ev rest IH]; intros index st Hidx Hcur; cbn [forEach_from64 greedy64].
  - now apply closeCluster_nonempty.
  - unfold cluster_step64. destruct index as [|n]; [congruence|]. cbn [Nat.eqb].
    destruct (within10 (start (event ev)) (clusterEnd st)).
    + rewrite IH; [reflexivity|congruence|]. cbn. now destruct (currentCluster st).
    + rewrite IH; [|congruence|cbn; congruence].
      cbn [clusters currentCluster clusterStart clusterEnd].
      rewrite closeCluster_nonempty by assumption.
      now rewrite <- app_assoc.
Qed.

Lemma clusterEvents64_greedy (l : list PooledEvent) :
  clusterEvents64 l = greedyClusters64 l.
Proof.
  unfold clusterEvents64. destruct l as [|ev rest]; [reflexivity|].
  cbn [forEach_from64 greedyClusters64]. rewrite forEach_from64_greedy.
  - reflexivity.
  - congruence.
  - cbn. congruence.
Qed.

(** The rounded sum [clusterEnd + 10] does not exceed a double that
    bounds the exact sum. *)
Lemma within10_false (eventStart clusterEnd y : Q) :
  rnd y == y -> y < pow2 1024 ->
  clusterEnd + 10 <= y -> y < eventStart ->
  within10 eventStart clusterEnd = false.
Proof.
  intros Hy Hfin Hsum Hlt. unfold within10, fadd, nadd, fl, round64.
  pose proof (rnd_mono _ _ Hsum) as Hr. rewrite Hy in Hr.
  destruct (Qle_bool (pow2 1024) (rnd (clusterEnd + 10))) eqn:E1.
  - apply Qle_bool_iff in E1. exfalso. lra.
  - destruct (Qle_bool (rnd (clusterEnd + 10)) (- pow2 1024)); [reflexivity|].
    cbn [nleb]. apply leb_false_iff. lra.
Qed.

(** A cluster is closed in front of an event that starts after a double
    which bounds every end seen so far plus 10. *)
Lemma greedy64_break (b : PooledEvent) (post : list PooledEvent) (y : Q) :
  rnd y == y -> y < pow2 1024 -> y < start (event b) ->
  forall (l : list PooledEvent) (cur : list PooledEvent) (cStart cEnd : Q),
    cEnd + 10 <= y ->
    (forall e, In e l -> end_ (event e) + 10 <= y) ->
    greedy64 cur cStart cEnd (l ++ b :: post) =
    greedy64 cur cStart cEnd l ++ greedyClusters64 (b :: post).
Proof.
  intros Hy Hfin Hb.
  induction l as [|e l IH]; intros cur cStart cEnd Hce Hl; cbn [app greedy64].
  - rewrite (within10_false _ _ y Hy Hfin Hce Hb). reflexivity.
  - assert (He : end_ (event e) + 10 <= y) by (apply Hl; now left).
    assert (Hl' : forall e', In e' l -> end_ (event e') + 10 <= y)
      by (intros; apply Hl; now right).
    destruct (within10 (start (event e)) cEnd).
    + apply IH; [|assumption].
      destruct (Math_max_cases cEnd (end_ (event e))) as [-> | ->]; assumption.
    + rewrite IH by assumption. reflexivity.
Qed.

Lemma clusterEvents64_break (pre : list PooledEvent) (a b : PooledEvent)
      (post : list PooledEvent) (y : Q) :
  rnd y == y -> y < pow2 1024 -> y < start (event b) ->
  (forall e, In e (pre ++ [a]) -> end_ (event e) + 10 <= y) ->
  clusterEvents64 (pre ++ a :: b :: post) =
  clusterEvents64 (pre ++ [a]) ++ clusterEvents64 (b :: post).
Proof.
  intros Hy Hfin Hb H. rewrite !clusterEvents64_greedy.
  replace (pre ++ a :: b :: post) with ((pre ++ [a]) ++ b :: post)
    by (rewrite <- app_assoc; reflexivity).
  destruct (pre ++ [a]) as [|x l] eqn:E.
  - destruct pre; discriminate.
  - cbn [app greedyClusters64]. apply (greedy64_break b post y Hy Hfin Hb).
    + apply H. now left.
    + intros e He. apply H. now right.
Qed.

(** The whole numbers up to [2^53] are doubles. *)
Lemma whole_double (z : Z) :
  (0 <= z < 2 ^ 53)%Z -> rnd (inject_Z z) == inject_Z z /\ inject_Z z < pow2 1024.
Proof.
  intros Hz. split; [apply rnd_Z; lia|].
  apply (Qlt_le_trans _ (inject_Z (2 ^ 53))); [rewrite <- Zlt_Qlt; lia|].
  rewrite <- (pow2_Z 53) by lia. apply pow2_le. lia.
Qed.

(** The sum is rounded before it is compared: [0.3 + 10] is the double
    [10.3], which lies above the exact sum, so an event that starts at
    [10.3] joins a cluster that ends at [0.3]. *)
Lemma rounded_sum_decides_the_join :
  let a := mkPooled (mkEvent 0 (double (3 # 10)) HFO_label 30 120) "C4" in
  let b := mkPooled (mkEvent (double (103 # 10)) 11 HFO_label 30 120) "C4" in
  end_ (event a) + 10 < start (event b)
  /\ fadd (Fin (end_ (event a))) (Fin 10) = Fin (start (event b))
  /\ clusterEvents64 [a; b] = [mkCluster [a; b] 0 11].
Proof. repeat split; vm_compute; reflexivity. Qed.

(** C4 (counterexample to the claim as stated).  [a] spans [[0, 6]] and
    [b] starts at 15, with no event in between: the start times are 15 s
    apart, yet [15 <= 6 + 10], so [b] joins the cluster of [a]; with a third
    event the cluster is emitted as one region. *)
Lemma starts_15s_apart_same_cluster :
  let a := mkEvent 0 6 Rhythmic_label 40 5 in
  let b := mkEvent 15 16 HFO_label 30 120 in
  let c := mkEvent 16 17 HFO_label 30 120 in
  let chs := [mkChannel "C4" [] [a; b; c] (388 # 10)] in
  start b - start a == 15
  /\ sortEvents (collectEvents chs) = [mkPooled a "C4"; mkPooled b "C4"; mkPooled c "C4"]
  /\ clusterEvents64 (sortEvents (collectEvents chs)) =
     [mkCluster [mkPooled a "C4"; mkPooled b "C4"; mkPooled c "C4"] 0 17]
  /\ length (identifyIctalRegions64 (fun _ => 0) chs) = 1%nat.
Proof. repeat split; vm_compute; reflexivity. Qed.

(** C4 (amended).  The pooled events are sorted ascending by start time
    (a permutation of the pool); the loop is the greedy rule measured from
    the running cluster end: an event joins the current cluster iff
    [event.start <= clusterEnd + 10], the sum being the rounded sum of the
    doubles, with [clusterEnd = max(clusterEnd, event.end)], and otherwise
    closes it and starts the next one.  Consequently two neighbours [a],
    [b] of the sorted pool whose start times are 15 s or more apart lie in
    different clusters whenever every event up to [a] lasts 4 s at most
    and [a] starts between 0 and [2^52] s: the clusters of the pool are
    those of the events up to [a] followed by those of the events from [b]
    on. *)
Theorem clustering_is_greedy_from_cluster_end (chs : list Channel) :
  let sorted := sortEvents (collectEvents chs) in
  Permutation sorted (collectEvents chs)
  /\ StronglySorted start_le sorted
  /\ clusterEvents64 sorted = greedyClusters64 sorted
  /\ forall pre a b post,
       sorted = pre ++ a :: b :: post ->
       (forall e, In e (pre ++ [a]) -> end_ (event e) - start (event e) <= 4) ->
       0 <= start (event a) <= pow2 52 ->
       start (event a) + 15 <= start (event b) ->
       clusterEvents64 sorted =
       clusterEvents64 (pre ++ [a]) ++ clusterEvents64 (b :: post).
Proof.
  intros sorted. split; [apply sortEvents_perm|]. split; [apply sortEvents_sorted|].
  split; [apply clusterEvents64_greedy|].
  intros pre a b post Hsplit Hshort [Ha0 Ha52] Hgap.
  set (z := (Qceiling (start (event a)) + 14)%Z).
  pose proof (Qle_ceiling (start (event a))) as Hc1.
  pose proof (Qceiling_lt (start (event a))) as Hc2.
  assert (Hz : (0 <= z < 2 ^ 53)%Z).
  { pose proof (Qceiling_resp_le _ _ Ha0) as H0.
    rewrite (pow2_Z 52) in Ha52 by lia.
    pose proof (Qceiling_resp_le _ _ Ha52) as H52.
    change (Qceiling 0) with 0%Z in H0. rewrite Qceiling_Z in H52.
    unfold z. lia. }
  destruct (whole_double z Hz) as [Hy Hfin].
  assert (Hzq : inject_Z z == inject_Z (Qceiling (start (event a))) + 14).
  { unfold z. rewrite inject_Z_plus. reflexivity. }
  assert (Hc3 : inject_Z (Qceiling (start (event a))) - 1 < start (event a)).
  { unfold Z.sub in Hc2. rewrite inject_Z_plus in Hc2. exact Hc2. }
  rewrite Hsplit. apply (clusterEvents64_break pre a b post (inject_Z z) Hy Hfin).
  - rewrite Hzq. lra.
  - intros e He.
    assert (Hle : start_le e a).
    { apply (sorted_prefix_le pre a (b :: post)); [|assumption].
      rewrite <- Hsplit. apply sortEvents_sorted. }
    specialize (Hshort e He). unfold start_le in Hle. rewrite Hzq. lra.
Qed.

(** The amended consequence on three events of two channels. *)
Lemma clustering_is_greedy_from_cluster_end_witness :
  let e1 := mkPooled (mkEvent 0 1 HFO_label 30 120) "C4" in
  let e2 := mkPooled (mkEvent (1 # 2) 2 Rhythmic_label 40 5) "Fz" in
  let e3 := mkPooled (mkEvent (31 # 2) 16 HFO_label 30 120) "C4" in
  let chs := [mkChannel "C4" [] [event e3; event e1] (388 # 10);
              mkChannel "Fz" [] [event e2] (382 # 10)] in
  clusterEvents64 (sortEvents (collectEvents chs)) =
  clusterEvents64 ([e1] ++ [e2]) ++ clusterEvents64 [e3].
Proof.
  intros e1 e2 e3 chs.
  apply (proj2 (proj2 (proj2 (clustering_is_greedy_from_cluster_end chs))) [e1] e2 e3 []).
  - reflexivity.
  - intros e [<- | [<- | []]]; vm_compute; discriminate.
  - split; vm_compute; discriminate.
  - vm_compute. discriminate.
Defined.

(* ================================================================= *)
(** ** Bounds and counts of a cluster *)

Lemma bounds_ok_single (ev : PooledEvent) :
  bounds_ok (mkCluster [ev] (start (event ev)) (end_ (event ev))).
Proof.
  unfold bounds_ok; cbn. repeat split.
  - exists ev; auto.
  - intros e [<- | []]. apply Qle_refl.
  - exists ev; auto.
  - intros e [<- | []]. apply Qle_refl.
Qed.

Lemma bounds_ok_snoc (cur : list PooledEvent) (cStart cEnd : Q) (ev : PooledEvent) :
  bounds_ok (mkCluster cur cStart cEnd) ->
  cStart <= start (event ev) ->
  bounds_ok (mkCluster (cur ++ [ev]) cStart (Math_max cEnd (end_ (event ev)))).
Proof.
  unfold bounds_ok; cbn. intros ((e1 & Hin1 & Hs) & Hmin & (e2 & Hin2 & He) & Hmax) Hle.
  repeat split.
  - exists e1. split; [apply in_or_app; now left|assumption].
  - intros e Hin. apply in_app_or in Hin. destruct Hin as [Hin | [<- | []]]; auto.
  - destruct (Math_max_cases cEnd (end_ (event ev))) as [-> | ->].
    + exists e2. split; [apply in_or_app; now left|assumption].
    + exists ev. split; [apply in_or_app; right; now left|reflexivity].
  - intros e Hin. apply in_app_or in Hin. destruct Hin as [Hin | [<- | []]].
    + eapply Qle_trans; [apply Hmax, Hin|apply Math_max_l].
    + apply Math_max_r.
Qed.

Lemma greedy_bounds_ok (l : list PooledEvent) :
  forall (cur : list PooledEvent) (cStart cEnd : Q),
    bounds_ok (mkCluster cur cStart cEnd) ->
    StronglySorted start_le l ->
    (forall e, In e l -> cStart <= start (event e)) ->
    Forall bounds_ok (greedy cur cStart cEnd l).
Proof.
  induction l as [|ev rest IH]; intros cur cStart cEnd Hok Hs Hlow; cbn [greedy].
  - constructor; [assumption|constructor].
  - inversion Hs as [|? ? Hs' Hall]; subst. rewrite Forall_forall in Hall.
    destruct (leb (start (event ev)) (cEnd + 10)).
    + apply IH; [|assumption|].
      * apply bounds_ok_snoc; [assumption|]. apply Hlow. now left.
      * intros e He. apply Hlow. now right.
    + constructor; [assumption|].
      apply IH; [apply bounds_ok_single|assumption|].
      intros e He. apply (Hall e He).
Qed.

Lemma clusterEvents_bounds_ok (l : list PooledEvent) :
  StronglySorted start_le l -> Forall bounds_ok (clusterEvents l).
Proof.
  intros Hs. rewrite clusterEvents_greedy. destruct l as [|ev rest]; [constructor|].
  cbn [greedyClusters]. inversion Hs as [|? ? Hs' Hall]; subst.
  rewrite Forall_forall in Hall.
  apply greedy_bounds_ok; [apply bounds_ok_single|assumption|].
  intros e He. apply (Hall e He).
Qed.

(** The members of the clusters are the clustered events, in order. *)
Lemma greedy_concat (l : list PooledEvent) :
  forall (cur : list PooledEvent) (cStart cEnd : Q),
    concat (map cluster_events (greedy cur cStart cEnd l)) = cur ++ l.
Proof.
  induction l as [|ev rest IH]; intros cur cStart cEnd; cbn [greedy].
  - cbn. now rewrite app_nil_r.
  - destruct (leb (start (event ev)) (cEnd + 10)).
    + rewrite IH. now rewrite <- app_assoc.
    + cbn [map concat]. rewrite IH. reflexivity.
Qed.

Lemma clusterEvents_concat (l : list PooledEvent) :
  concat (map cluster_events (clusterEvents l)) = l.
Proof.
  rewrite clusterEvents_greedy. destruct l as [|ev rest]; [reflexivity|].
  cbn [greedyClusters]. now rewrite greedy_concat.
Qed.

(** Where the members of a surviving cluster come from. *)
Lemma clusterEvents_member (l : list PooledEvent) (c : Cluster) (e : PooledEvent) :
  In c (clusterEvents l) -> In e (cluster_events c) -> In e l.
Proof.
  intros Hc He. rewrite <- (clusterEvents_concat l).
  apply in_concat. exists (cluster_events c). split; [|assumption].
  apply in_map_iff. now exists c.
Qed.

Lemma collectEvents_In (chs : list Channel) (p : PooledEvent) :
  In p (collectEvents chs) <->
  exists ch, In ch chs /\ In (event p) (events ch) /\ channel p = name ch.
Proof.
  unfold collectEvents. rewrite in_flat_map. split.
  - intros (ch & Hch & Hp). apply in_map_iff in Hp. destruct Hp as (e & <- & He).
    exists ch. cbn. auto.
  - intros (ch & Hch & He & Hn). exists ch. split; [assumption|].
    apply in_map_iff. exists (event p). split; [|assumption].
    destruct p as [ev nm]. cbn in *. now subst.
Qed.

Lemma survivors_In (chs : list Channel) (c : Cluster) :
  In c (survivors chs) <->
  In c (clusterEvents (sortEvents (collectEvents chs)))
  /\ (3 <= length (cluster_events c))%nat.
Proof.
  unfold survivors. rewrite filter_In. now rewrite Nat.leb_le.
Qed.

Lemma survivors_member (chs : list Channel) (c : Cluster) (e : PooledEvent) :
  In c (survivors chs) -> In e (cluster_events c) -> In e (collectEvents chs).
Proof.
  intros Hc He. apply survivors_In in Hc. destruct Hc as [Hc _].
  eapply Permutation_in; [apply sortEvents_perm|].
  eapply clusterEvents_member; eassumption.
Qed.

Lemma survivors_bounds_ok (chs : list Channel) (c : Cluster) :
  In c (survivors chs) -> bounds_ok c.
Proof.
  intros Hc. apply survivors_In in Hc. destruct Hc as [Hc _].
  pose proof (clusterEvents_bounds_ok _ (sortEvents_sorted (collectEvents chs))) as H.
  rewrite Forall_forall in H. now apply H.
Qed.

Lemma mapRegions_In (involvement : nat -> num) (random : nat -> Q)
      (cs : list Cluster) (r : Region) :
  forall k, In r (mapRegions involvement random k cs) ->
            exists c k', In c cs /\ r = regionOf involvement (random k') c.
Proof.
  induction cs as [|c cs IH]; intros k; cbn [mapRegions In]; [intros []|].
  intros [<- | H].
  - exists c, k. auto.
  - destruct (IH _ H) as (c' & k' & Hc & Hr). exists c', k'. auto.
Qed.

(** Every emitted region is the region of a surviving cluster. *)
Lemma regionsOf_In (involvement : nat -> num) (random : nat -> Q)
      (chs : list Channel) (r : Region) :
  In r (regionsOf involvement random chs) ->
  exists c k, In c (survivors chs) /\ r = regionOf involvement (random k) c.
Proof.
  unfold regionsOf. intros H.
  eapply Permutation_in in H; [|apply sort_by_perm].
  eapply mapRegions_In; eassumption.
Qed.

(** *** Type counters *)

Lemma totalEvents_countType (c : EventCount) (ty : string) :
  totalEvents (countType c ty) =
  (totalEvents c + if labelled ty then 1 else 0)%nat.
Proof.
  unfold countType, labelled, totalEvents.
  destruct (includes ty "HFO"), (includes ty "IED"), (includes ty "Rhythmic");
    cbn; lia.
Qed.

Lemma totalEvents_fold (evs : list PooledEvent) :
  forall c0,
    totalEvents (fold_left (fun c ev => countType c (type (event ev))) evs c0) =
    (totalEvents c0
     + length (filter (fun ev => labelled (type (event ev))) evs))%nat.
Proof.
  induction evs as [|ev evs IH]; intros c0; cbn [fold_left filter].
  - cbn. lia.
  - rewrite IH, totalEvents_countType.
    destruct (labelled (type (event ev))); cbn [length]; lia.
Qed.

(** [hfo + ied + rhythmic] is the number of members with a recognised label. *)
Lemma totalEvents_countEvents (evs : list PooledEvent) :
  totalEvents (countEvents evs) =
  length (filter (fun ev => labelled (type (event ev))) evs).
Proof. unfold countEvents. rewrite totalEvents_fold. reflexivity. Qed.

Lemma totalEvents_all_labelled (evs : list PooledEvent) :
  (forall e, In e evs -> labelled (type (event e)) = true) ->
  totalEvents (countEvents evs) = length evs.
Proof.
  intros H. rewrite totalEvents_countEvents.
  induction evs as [|ev evs IH]; [reflexivity|]. cbn [filter].
  rewrite (H ev) by now left. cbn [length]. f_equal. apply IH.
  intros e He. apply H. now right.
Qed.

Lemma labelled_detector_labels :
  labelled HFO_label = true /\ labelled IED_label = true
  /\ labelled Rhythmic_label = true.
Proof. repeat split; reflexivity. Qed.

(** C5.  Every emitted region stems from a surviving cluster of at least
    three pooled events; its start is the least start among the members and
    its end the greatest end among them (both attained), and when every
    member carries a label containing [HFO], [IED] or [Rhythmic] the three
    counters add up to the number of members. *)
Theorem region_bounds_and_counts
        (random : nat -> Q) (chs : list Channel) (r : Region) :
  In r (identifyIctalRegions random chs) ->
  exists c,
    In c (survivors chs)
    /\ (3 <= length (cluster_events c))%nat
    /\ (forall e, In e (cluster_events c) -> In e (collectEvents chs))
    /\ (exists e, In e (cluster_events c) /\ region_start r = start (event e))
    /\ (forall e, In e (cluster_events c) -> region_start r <= start (event e))
    /\ (exists e, In e (cluster_events c) /\ region_end r = end_ (event e))
    /\ (forall e, In e (cluster_events c) -> end_ (event e) <= region_end r)
    /\ ((forall e, In e (cluster_events c) -> labelled (type (event e)) = true) ->
        (hfo (eventCount r) + ied (eventCount r) + rhythmic (eventCount r))%nat
        = length (cluster_events c)).
Proof.
  intros Hr. apply regionsOf_In in Hr. destruct Hr as (c & k & Hc & ->).
  exists c. split; [assumption|].
  split; [now apply survivors_In in Hc|].
  split; [intros e He; eapply survivors_member; eassumption|].
  destruct (survivors_bounds_ok chs c Hc) as (H1 & H2 & H3 & H4).
  cbn [regionOf region_start region_end eventCount].
  repeat (split; [assumption|]).
  intros Hlab. apply (totalEvents_all_labelled _ Hlab).
Qed.

(** The region of [three_events] spans [[1, 5]]. *)
Lemma region_bounds_and_counts_witness :
  exists c,
    In c (survivors three_events)
    /\ (3 <= length (cluster_events c))%nat
    /\ (exists e, In e (cluster_events c) /\ 1 = start (event e))
    /\ (exists e, In e (cluster_events c) /\ 5 = end_ (event e)).
Proof.
  destruct (region_bounds_and_counts
              (fun _ => 0) three_events
              (nth 0 (identifyIctalRegions (fun _ => 0) three_events)
                   (mkRegion 0 0 [] NaN (mkEventCount 0 0 0) low)))
    as (c & Hc & Hlen & _ & Hs & _ & He & _).
  - vm_compute. left. reflexivity.
  - exists c. repeat split; assumption.
Defined.

(* ================================================================= *)
(** ** Severity *)

Lemma ofNat_nonneg (n : nat) : 0 <= ofNat n.
Proof. unfold ofNat, inject_Z, Qle. cbn. lia. Qed.

Lemma ofNat_pos (n : nat) : (0 < n)%nat -> 0 < ofNat n.
Proof. unfold ofNat, inject_Z, Qlt. cbn. lia. Qed.

Lemma ofNat_eq0 (n : nat) : Qeq_bool (ofNat n) 0 = true <-> n = O.
Proof.
  rewrite Qeq_bool_iff. unfold ofNat, inject_Z, Qeq. cbn. lia.
Qed.

Lemma ofNat_neq0 (n : nat) : (0 < n)%nat -> Qeq_bool (ofNat n) 0 = false.
Proof.
  intros H. destruct (Qeq_bool (ofNat n) 0) eqn:E; [|reflexivity].
  apply ofNat_eq0 in E. lia.
Qed.

(** [hfoRatio > q] read over the rationals: the [NaN] of [0 / 0] compares
    false, as does the rational quotient, which is [0] there. *)
Lemma hfoRatio_gt (c : EventCount) (q : Q) :
  0 <= q ->
  (ngtb (hfoRatio c) q = true <-> q < ofNat (hfo c) / ofNat (totalEvents c)).
Proof.
  intros Hq. unfold hfoRatio, ndiv.
  destruct (Qeq_bool (ofNat (totalEvents c)) 0) eqn:E.
  - pose proof E as E'. apply ofNat_eq0 in E'.
    assert (Hh : hfo c = O) by (unfold totalEvents in E'; lia).
    rewrite Hh, E'. cbn.
    split; [discriminate|]. intros H. exfalso.
    assert (H0 : 0 / 0 == 0) by reflexivity.
    change (inject_Z 0) with 0 in H. rewrite H0 in H. apply (Qlt_not_le _ _ H Hq).
  - cbn [ngtb]. apply ltb_iff.
Qed.

Lemma severityOf_spec (c : EventCount) :
  (severityOf c = high <-> high_condition c)
  /\ (severityOf c = medium <-> ~ high_condition c /\ medium_condition c)
  /\ (severityOf c = low <-> ~ high_condition c /\ ~ medium_condition c).
Proof.
  assert (Hh : ngtb (hfoRatio c) (5 # 10) || (10 <? totalEvents c)%nat = true
               <-> high_condition c).
  { unfold high_condition. rewrite orb_true_iff, Nat.ltb_lt.
    rewrite hfoRatio_gt by (unfold Qle; cbn; lia). reflexivity. }
  assert (Hm : ngtb (hfoRatio c) (2 # 10) || (5 <? totalEvents c)%nat = true
               <-> medium_condition c).
  { unfold medium_condition. rewrite orb_true_iff, Nat.ltb_lt.
    rewrite hfoRatio_gt by (unfold Qle; cbn; lia). reflexivity. }
  unfold severityOf.
  destruct (ngtb (hfoRatio c) (5 # 10) || (10 <? totalEvents c)%nat).
  - assert (high_condition c) by now apply Hh.
    repeat split; try discriminate; tauto.
  - assert (~ high_condition c) by (intros H; apply Hh in H; discriminate).
    destruct (ngtb (hfoRatio c) (2 # 10) || (5 <? totalEvents c)%nat).
    + assert (medium_condition c) by now apply Hm.
      repeat split; try discriminate; tauto.
    + assert (~ medium_condition c) by (intros H'; apply Hm in H'; discriminate).
      repeat split; try discriminate; tauto.
Qed.

(** Events that all start within 5 s of an instant [t] no member ends
    before form one cluster. *)
Lemma greedy_single (t : Q) (l : list PooledEvent) :
  forall (cur : list PooledEvent) (cStart cEnd : Q),
    t <= cEnd ->
    (forall e, In e l -> start (event e) <= t + 5 /\ t <= end_ (event e)) ->
    exists cEnd', greedy cur cStart cEnd l = [mkCluster (cur ++ l) cStart cEnd'].
Proof.
  induction l as [|ev rest IH]; intros cur cStart cEnd Ht Hl; cbn [greedy].
  - exists cEnd. now rewrite app_nil_r.
  - destruct (Hl ev (or_introl eq_refl)) as [Hs He].
    assert (Hjoin : leb (start (event ev)) (cEnd + 10) = true) by (apply leb_iff; lra).
    rewrite Hjoin.
    destruct (IH (cur ++ [ev]) cStart (Math_max cEnd (end_ (event ev)))) as [cEnd' Heq].
    + eapply Qle_trans; [exact Ht|apply Math_max_l].
    + intros e Hin. apply Hl. now right.
    + exists cEnd'. rewrite Heq. now rewrite <- app_assoc.
Qed.

Lemma countEvents_all_IED (evs : list PooledEvent) :
  (forall e, In e evs -> type (event e) = IED_label) ->
  countEvents evs = mkEventCount 0 (length evs) 0.
Proof.
  intros H. unfold countEvents.
  enough (G : forall n, fold_left (fun c ev => countType c (type (event ev))) evs
                                  (mkEventCount 0 n 0)
                        = mkEventCount 0 (n + length evs) 0) by apply (G O).
  induction evs as [|ev evs IH]; intros n; cbn [fold_left length].
  - f_equal. lia.
  - rewrite (H ev) by now left. cbn. rewrite IH.
    + f_equal. lia.
    + intros e He. apply H. now right.
Qed.

(** C3.  The severity of every emitted region follows the two-threshold
    rule on [hfoRatio = eventCount.hfo / totalEvents] and [totalEvents];
    and four IED events of one channel lying within a 5 s span yield
    exactly one region, with [eventCount.ied = 4], no other count, and
    severity [low]. *)
Theorem severity_rule :
  (forall (random : nat -> Q) (chs : list Channel) (r : Region),
      In r (identifyIctalRegions random chs) ->
      (severity r = high <-> high_condition (eventCount r))
      /\ (severity r = medium <->
          ~ high_condition (eventCount r) /\ medium_condition (eventCount r))
      /\ (severity r = low <->
          ~ high_condition (eventCount r) /\ ~ medium_condition (eventCount r)))
  /\ (forall (random : nat -> Q) (nm : string) (samples : list Q) (v t : Q)
             (e1 e2 e3 e4 : Event),
         (forall e, In e [e1; e2; e3; e4] ->
                    type e = IED_label
                    /\ t <= start e /\ start e < end_ e /\ end_ e <= t + 5) ->
         exists r,
           identifyIctalRegions random [mkChannel nm samples [e1; e2; e3; e4] v] = [r]
           /\ eventCount r = mkEventCount 0 4 0
           /\ severity r = low).
Proof.
  split.
  - intros random chs r Hr. apply regionsOf_In in Hr. destruct Hr as (c & k & _ & ->).
    cbn [regionOf severity eventCount]. apply severityOf_spec.
  - intros random nm samples v t e1 e2 e3 e4 H.
    set (chs := [mkChannel nm samples [e1; e2; e3; e4] v]).
    set (sorted := sortEvents (collectEvents chs)).
    assert (Hperm : Permutation sorted (collectEvents chs)) by apply sortEvents_perm.
    assert (Hev : forall p, In p sorted ->
                  type (event p) = IED_label
                  /\ t <= start (event p) /\ start (event p) < end_ (event p)
                  /\ end_ (event p) <= t + 5).
    { intros p Hp. eapply Permutation_in in Hp; [|exact Hperm].
      apply collectEvents_In in Hp. destruct Hp as (ch & [<- | []] & Hin & _).
      apply H. exact Hin. }
    assert (Hlen : length sorted = 4%nat)
      by (rewrite (Permutation_length Hperm); reflexivity).
    assert (Hcl : exists cEnd cStart, clusterEvents sorted = [mkCluster sorted cStart cEnd]).
    { rewrite clusterEvents_greedy. destruct sorted as [|p rest] eqn:E; [discriminate|].
      cbn [greedyClusters].
      destruct (greedy_single t rest [p] (start (event p)) (end_ (event p))) as [cEnd Heq].
      - destruct (Hev p (or_introl eq_refl)) as (_ & ? & ? & _). lra.
      - intros e He. destruct (Hev e (or_intror He)) as (_ & ? & ? & ?). split; lra.
      - exists cEnd, (start (event p)). exact Heq. }
    destruct Hcl as (cEnd & cStart & Hcl).
    unfold identifyIctalRegions, regionsOf, survivors. fold chs. fold sorted.
    rewrite Hcl. cbn [filter cluster_events]. rewrite Hlen.
    cbn [Nat.leb mapRegions sort_by fold_right insert_by].
    eexists. split; [reflexivity|].
    cbn [regionOf eventCount severity cluster_events].
    rewrite countEvents_all_IED by (intros e He; apply (Hev e He)).
    rewrite Hlen. split; reflexivity.
Qed.

(** The rule on the region of [three_events], and four IED events between
    10 s and 15 s. *)
Lemma severity_rule_witness :
  (exists r, In r (identifyIctalRegions (fun _ => 0) three_events)
             /\ (severity r = high <-> high_condition (eventCount r)))
  /\ exists r,
      identifyIctalRegions
        (fun _ => 0)
        [mkChannel "C4" []
                   [mkEvent 10 (21 # 2) IED_label 60 10; mkEvent 11 (23 # 2) IED_label 60 10;
                    mkEvent 12 (25 # 2) IED_label 60 10; mkEvent 14 15 IED_label 60 10]
                   (388 # 10)] = [r]
      /\ eventCount r = mkEventCount 0 4 0 /\ severity r = low.
Proof.
  split.
  - exists (nth 0 (identifyIctalRegions (fun _ => 0) three_events)
                (mkRegion 0 0 [] NaN (mkEventCount 0 0 0) low)).
    assert (Hin : In (nth 0 (identifyIctalRegions (fun _ => 0) three_events)
                          (mkRegion 0 0 [] NaN (mkEventCount 0 0 0) low))
                     (identifyIctalRegions (fun _ => 0) three_events))
      by (vm_compute; left; reflexivity).
    split; [exact Hin|].
    exact (proj1 (proj1 severity_rule (fun _ => 0) three_events _ Hin)).
  - apply (proj2 severity_rule (fun _ => 0) "C4"%string [] (388 # 10) 10).
    intros e [<- | [<- | [<- | [<- | []]]]]; vm_compute; intuition congruence.
Defined.

(* ================================================================= *)
(** ** What the detectors emit *)

Lemma window_times (i W : Z) :
  (0 < W)%Z -> ofZ i / sampleRate250 < ofZ (i + W) / sampleRate250.
Proof.
  intros H. unfold Qdiv. apply Qmult_lt_compat_r; [reflexivity|].
  unfold ofZ. rewrite <- Zlt_Qlt. lia.
Qed.

Lemma push_ok (evs : list Event) (e : Event) :
  Forall event_ok evs -> event_ok e -> Forall event_ok (evs ++ [e]).
Proof.
  intros H He. apply Forall_app. split; [assumption|].
  constructor; [assumption|constructor].
Qed.

Lemma hfo_window_ok (evs : list Event) (iw : Z * list Q) :
  Forall event_ok evs -> Forall event_ok (hfo_window sampleRate250 25 evs iw).
Proof.
  intros H. destruct iw as [i w]. unfold hfo_window. cbv zeta.
  destruct (ltb 80 _ && ltb 100 _); [|assumption].
  destruct (overlapping _ _ _); [assumption|].
  apply push_ok; [assumption|]. split; [apply window_times; lia|reflexivity].
Qed.

Lemma ied_window_ok (random : Z -> Q) (evs : list Event) (iw : Z * list Q) :
  Forall event_ok evs -> Forall event_ok (ied_window random sampleRate250 50 evs iw).
Proof.
  intros H. destruct iw as [i w]. unfold ied_window.
  destruct (maxAmpPos w) as [maxAmp maxPos]. destruct (slopes w maxPos) as [sb sa].
  cbv zeta. destruct (ied_classify _ _ _); [|assumption].
  destruct (overlapping _ _ _); [assumption|].
  apply push_ok; [assumption|]. split; [apply window_times; lia|reflexivity].
Qed.

Lemma rhythmic_window_ok (evs : list Event) (iw : Z * list Q) :
  Forall event_ok evs -> Forall event_ok (rhythmic_window sampleRate250 750 evs iw).
Proof.
  intros H. destruct iw as [i w]. unfold rhythmic_window. cbv zeta.
  destruct (3 <=? _)%nat; [|assumption].
  destruct (intervalCV_below _ _ && ltb 10 _ && ltb _ 100); [|assumption].
  destruct (overlapping _ _ _); [assumption|].
  apply push_ok; [assumption|]. split; [apply window_times; lia|reflexivity].
Qed.

Lemma fold_left_ok {A : Type} (f : list Event -> A -> list Event) (ws : list A) :
  (forall evs a, Forall event_ok evs -> Forall event_ok (f evs a)) ->
  forall evs, Forall event_ok evs -> Forall event_ok (fold_left f ws evs).
Proof.
  intros Hf. induction ws as [|w ws IH]; intros evs H; cbn [fold_left]; auto.
Qed.

(** At 250 Hz every detector terminates, and leaves the events well
    formed. *)
Lemma detectHFOs_ok (samples : list Q) (evs : list Event) :
  Forall event_ok evs ->
  exists evs', detectHFOs samples evs sampleRate250 = Some evs' /\ Forall event_ok evs'.
Proof.
  intros H. unfold detectHFOs.
  change (Math_floor (sampleRate250 * (1 # 10))) with 25%Z.
  change (Math_floor (sampleRate250 * (5 # 100))) with 12%Z.
  destruct (scan_windows samples 25 12) as (ws & -> & _); [lia|].
  eexists. split; [reflexivity|]. apply fold_left_ok; [apply hfo_window_ok|assumption].
Qed.

Lemma detectIEDs_ok (random : Z -> Q) (samples : list Q) (evs : list Event) :
  Forall event_ok evs ->
  exists evs', detectIEDs random samples evs sampleRate250 = Some evs'
               /\ Forall event_ok evs'.
Proof.
  intros H. unfold detectIEDs.
  change (Math_floor (sampleRate250 * (2 # 10))) with 50%Z.
  change (Math_floor (sampleRate250 * (1 # 10))) with 25%Z.
  destruct (scan_windows samples 50 25) as (ws & -> & _); [lia|].
  eexists. split; [reflexivity|]. apply fold_left_ok; [apply ied_window_ok|assumption].
Qed.

Lemma detectRhythmicDischarges_ok (samples : list Q) (evs : list Event) :
  Forall event_ok evs ->
  exists evs', detectRhythmicDischarges samples evs sampleRate250 = Some evs'
               /\ Forall event_ok evs'.
Proof.
  intros H. unfold detectRhythmicDischarges.
  change (Math_floor (sampleRate250 * 3)) with 750%Z.
  change (Math_floor (sampleRate250 * 1)) with 250%Z.
  destruct (scan_windows samples 750 250) as (ws & -> & _); [lia|].
  eexists. split; [reflexivity|]. apply fold_left_ok; [apply rhythmic_window_ok|assumption].
Qed.

Lemma detectChannel_ok (random : Z -> Q) (ch : Channel) :
  Forall event_ok (events ch) ->
  exists ch', detectChannel random ch = Some ch'
              /\ Forall event_ok (events ch') /\ name ch' = name ch.
Proof.
  intros H. unfold detectChannel.
  destruct (detectHFOs_ok (data ch) (events ch) H) as (ev1 & -> & H1).
  destruct (detectIEDs_ok random (data ch) ev1 H1) as (ev2 & -> & H2).
  destruct (detectRhythmicDischarges_ok (data ch) ev2 H2) as (ev3 & -> & H3).
  eexists. split; [reflexivity|]. cbn. auto.
Qed.

Lemma detectPatterns_from_ok (random : nat -> Z -> Q) (chs : list Channel) :
  (forall ch, In ch chs -> Forall event_ok (events ch)) ->
  forall c, exists detected,
      detectPatterns_from c random chs = Some detected
      /\ (forall ch, In ch detected -> Forall event_ok (events ch))
      /\ map name detected = map name chs.
Proof.
  induction chs as [|ch chs IH]; intros H c; cbn [detectPatterns_from].
  - exists []. repeat split. intros ch [].
  - destruct (detectChannel_ok (random c) ch (H ch (or_introl eq_refl)))
      as (ch' & -> & Hok & Hname).
    destruct (IH (fun x Hx => H x (or_intror Hx)) (S c)) as (rest & -> & Hrest & Hnames).
    exists (ch' :: rest). cbn [option_map map]. split; [reflexivity|]. split.
    + intros x [<- | Hx]; auto.
    + now rewrite Hname, Hnames.
Qed.

Lemma detectPatterns_ok (random : nat -> Z -> Q) (chs : list Channel) :
  (forall ch, In ch chs -> Forall event_ok (events ch)) ->
  exists detected,
    detectPatterns random chs = Some detected
    /\ (forall ch, In ch detected -> Forall event_ok (events ch))
    /\ map name detected = map name chs.
Proof. intros H. apply detectPatterns_from_ok. exact H. Qed.

Lemma events_ok_pool (chs : list Channel) :
  (forall ch, In ch chs -> Forall event_ok (events ch)) ->
  forall e, In e (collectEvents chs) -> event_ok (event e).
Proof.
  intros H e He. apply collectEvents_In in He. destruct He as (ch & Hch & Hin & _).
  specialize (H ch Hch). rewrite Forall_forall in H. now apply H.
Qed.

Lemma events_ok_well_formed (chs : list Channel) :
  (forall ch, In ch chs -> Forall event_ok (events ch)) -> well_formed chs.
Proof. intros H e He. apply (events_ok_pool chs H e He). Qed.

(** The events the processor pools after detection, from channels that
    start without events, satisfy both preconditions of the clusterer's
    divisions. *)
Lemma detected_events_ok (random : nat -> Z -> Q) (chs : list Channel) :
  (forall ch, In ch chs -> events ch = []) ->
  exists detected,
    detectPatterns random chs = Some detected
    /\ well_formed detected
    /\ forall e, In e (collectEvents detected) -> labelled (type (event e)) = true.
Proof.
  intros Hempty.
  destruct (detectPatterns_ok random chs) as (detected & Hdet & Hok & _).
  - intros ch Hch. rewrite (Hempty ch Hch). constructor.
  - exists detected. split; [exact Hdet|]. split.
    + now apply events_ok_well_formed.
    + intros e He. apply (events_ok_pool detected Hok e He).
Qed.

(* ================================================================= *)
(** ** Confidence *)

Lemma set_add_In (s : list string) (x y : string) :
  In y (set_add s x) <-> In y s \/ y = x.
Proof.
  unfold set_add. destruct (existsb (String.eqb x) s) eqn:E.
  - split; [now left|]. intros [H | ->]; [assumption|].
    apply existsb_exists in E. destruct E as (z & Hz & Heq).
    apply String.eqb_eq in Heq. now subst.
  - rewrite in_app_iff. cbn. intuition.
Qed.

Lemma set_add_NoDup (s : list string) (x : string) :
  NoDup s -> NoDup (set_add s x).
Proof.
  intros H. unfold set_add. destruct (existsb (String.eqb x) s) eqn:E; [assumption|].
  apply NoDup_app; [assumption|repeat constructor; intros []|].
  intros y Hy [<- | []].
  assert (existsb (String.eqb x) s = true); [|congruence].
  apply existsb_exists. exists x. split; [assumption|apply String.eqb_refl].
Qed.

Lemma channelSet_fold (evs : list PooledEvent) :
  forall s0,
    NoDup s0 ->
    NoDup (fold_left (fun s ev => set_add s (channel ev)) evs s0)
    /\ forall x, In x (fold_left (fun s ev => set_add s (channel ev)) evs s0) <->
                 In x s0 \/ exists e, In e evs /\ channel e = x.
Proof.
  induction evs as [|ev evs IH]; intros s0 Hnd; cbn [fold_left].
  - split; [assumption|]. intros x. split; [now left|].
    intros [H | (e & [] & _)]. assumption.
  - destruct (IH (set_add s0 (channel ev)) (set_add_NoDup _ _ Hnd)) as [H1 H2].
    split; [assumption|]. intros x. rewrite H2, set_add_In. split.
    + intros [[H | ->] | (e & He & Hx)]; [now left| |].
      * right. exists ev. split; [now left|reflexivity].
      * right. exists e. split; [now right|assumption].
    + intros [H | (e & [<- | He] & Hx)].
      * left. now left.
      * left. right. now symmetry.
      * right. now exists e.
Qed.

(** [channelSet] holds each member channel once. *)
Lemma channelSet_spec (evs : list PooledEvent) :
  NoDup (channelSet evs)
  /\ forall x, In x (channelSet evs) <-> exists e, In e evs /\ channel e = x.
Proof.
  destruct (channelSet_fold evs [] (NoDup_nil _)) as [H1 H2].
  split; [exact H1|]. intros x. unfold channelSet. rewrite H2. cbn. intuition.
Qed.

Lemma survivors_duration_pos (chs : list Channel) (c : Cluster) :
  well_formed chs -> In c (survivors chs) -> 0 < cluster_end c - cluster_start c.
Proof.
  intros Hwf Hc.
  destruct (survivors_bounds_ok chs c Hc) as ((e & He & Hs) & _ & _ & Hmax).
  pose proof (Hmax e He) as H1.
  pose proof (Hwf e (survivors_member chs c e Hc He)) as H2.
  rewrite Hs. lra.
Qed.

Lemma survivors_channels_pos (chs : list Channel) (c : Cluster) :
  In c (survivors chs) -> (0 < length chs)%nat.
Proof.
  intros Hc. pose proof Hc as Hc'. apply survivors_In in Hc'. destruct Hc' as [_ Hlen].
  destruct (cluster_events c) as [|e rest] eqn:E; [cbn in Hlen; lia|].
  assert (He : In e (collectEvents chs)).
  { eapply survivors_member; [exact Hc|]. rewrite E. now left. }
  apply collectEvents_In in He. destruct He as (ch & Hch & _).
  destruct chs; [destruct Hch|cbn; lia].
Qed.

Lemma Qeq_bool_pos_false (x : Q) : 0 < x -> Qeq_bool x 0 = false.
Proof.
  intros H. destruct (Qeq_bool x 0) eqn:E; [|reflexivity].
  apply Qeq_bool_iff in E. rewrite E in H. exfalso. apply (Qlt_irrefl _ H).
Qed.

Lemma Qdiv_nonneg (a b : Q) : 0 <= a -> 0 < b -> 0 <= a / b.
Proof.
  intros Ha Hb. unfold Qdiv. apply Qmult_le_0_compat; [assumption|].
  apply Qinv_le_0_compat. now apply Qlt_le_weak.
Qed.

Lemma Math_round_nonneg (x : Q) : 0 <= x -> (0 <= Math_round x)%Z.
Proof.
  intros H. unfold Math_round.
  change 0%Z with (Qfloor 0). apply Qfloor_resp_le. lra.
Qed.

Lemma Math_round_le_100 (x : Q) : x <= 100 -> (Math_round x <= 100)%Z.
Proof.
  intros H. unfold Math_round.
  apply (Z.le_trans _ (Qfloor (100 + (1 # 2)))).
  - apply Qfloor_resp_le. lra.
  - vm_compute. discriminate.
Qed.

(** [Math.min(95, z)] of an integer [z >= 0] is an integer of [0..95]. *)
Lemma Math_min_95 (z : Z) :
  (0 <= z)%Z -> exists z', Math_min 95 (ofZ z) = ofZ z' /\ (0 <= z' <= 95)%Z.
Proof.
  intros Hz. unfold Math_min. destruct (leb 95 (ofZ z)) eqn:E.
  - exists 95%Z. split; [reflexivity|lia].
  - exists z. split; [reflexivity|].
    apply leb_false_iff in E. unfold ofZ, inject_Z, Qlt in E. cbn in E. lia.
Qed.

(** The confidence of a cluster with a positive duration, in a recording
    with at least one channel. *)
Lemma confidenceOf_finite (size channelCount : nat) (rand : Q) (c : Cluster) :
  0 < cluster_end c - cluster_start c ->
  (0 < channelCount)%nat ->
  confidenceOf (ndiv (ofNat size) (ofNat channelCount)) rand c =
  Fin (Math_min 95
         (ofZ (Math_round
                 ((ofNat (totalEvents (countEvents (cluster_events c)))
                   / (cluster_end c - cluster_start c) * 20
                   + ofNat size / ofNat channelCount * 50)
                  * ((7 # 10) + rand * (3 # 10)))))).
Proof.
  intros Hd Hn. unfold confidenceOf, eventDensity, ndiv.
  rewrite (Qeq_bool_pos_false _ Hd), (ofNat_neq0 _ Hn). reflexivity.
Qed.

(* ================================================================= *)
(** ** The clusterer in double precision *)

(** *** Clusters and their members *)

Lemma greedy64_bounds_ok (l : list PooledEvent) :
  forall (cur : list PooledEvent) (cStart cEnd : Q),
    bounds_ok (mkCluster cur cStart cEnd) ->
    StronglySorted start_le l ->
    (forall e, In e l -> cStart <= start (event e)) ->
    Forall bounds_ok (greedy64 cur cStart cEnd l).
Proof.
  induction l as [|ev rest IH]; intros cur cStart cEnd Hok Hs Hlow; cbn [greedy64].
  - constructor; [assumption|constructor].
  - inversion Hs as [|? ? Hs' Hall]; subst. rewrite Forall_forall in Hall.
    destruct (within10 (start (event ev)) cEnd).
    + apply IH; [|assumption|].
      * apply bounds_ok_snoc; [assumption|]. apply Hlow. now left.
      * intros e He. apply Hlow. now right.
    + constructor; [assumption|].
      apply IH; [apply bounds_ok_single|assumption|].
      intros e He. apply (Hall e He).
Qed.

Lemma clusterEvents64_bounds_ok (l : list PooledEvent) :
  StronglySorted start_le l -> Forall bounds_ok (clusterEvents64 l).
Proof.
  intros Hs. rewrite clusterEvents64_greedy. destruct l as [|ev rest]; [constructor|].
  cbn [greedyClusters64]. inversion Hs as [|? ? Hs' Hall]; subst.
  rewrite Forall_forall in Hall.
  apply greedy64_bounds_ok; [apply bounds_ok_single|assumption|].
  intros e He. apply (Hall e He).
Qed.

Lemma greedy64_concat (l : list PooledEvent) :
  forall (cur : list PooledEvent) (cStart cEnd : Q),
    concat (map cluster_events (greedy64 cur cStart cEnd l)) = cur ++ l.
Proof.
  induction l as [|ev rest IH]; intros cur cStart cEnd; cbn [greedy64].
  - cbn. now rewrite app_nil_r.
  - destruct (within10 (start (event ev)) cEnd).
    + rewrite IH. now rewrite <- app_assoc.
    + cbn [map concat]. rewrite IH. reflexivity.
Qed.

Lemma clusterEvents64_member (l : list PooledEvent) (c : Cluster) (e : PooledEvent) :
  In c (clusterEvents64 l) -> In e (cluster_events c) -> In e l.
Proof.
  intros Hc He.
  assert (Hcat : concat (map cluster_events (clusterEvents64 l)) = l).
  { rewrite clusterEvents64_greedy. destruct l as [|ev rest]; [reflexivity|].
    cbn [greedyClusters64]. now rewrite greedy64_concat. }
  rewrite <- Hcat. apply in_concat. exists (cluster_events c). split; [|assumption].
  apply in_map_iff. now exists c.
Qed.

Lemma survivors64_In (chs : list Channel) (c : Cluster) :
  In c (survivors64 chs) <->
  In c (clusterEvents64 (sortEvents (collectEvents chs)))
  /\ (3 <= length (cluster_events c))%nat.
Proof.
  unfold survivors64. rewrite filter_In. now rewrite Nat.leb_le.
Qed.

Lemma survivors64_member (chs : list Channel) (c : Cluster) (e : PooledEvent) :
  In c (survivors64 chs) -> In e (cluster_events c) -> In e (collectEvents chs).
Proof.
  intros Hc He. apply survivors64_In in Hc. destruct Hc as [Hc _].
  eapply Permutation_in; [apply sortEvents_perm|].
  eapply clusterEvents64_member; eassumption.
Qed.

Lemma survivors64_bounds_ok (chs : list Channel) (c : Cluster) :
  In c (survivors64 chs) -> bounds_ok c.
Proof.
  intros Hc. apply survivors64_In in Hc. destruct Hc as [Hc _].
  pose proof (clusterEvents64_bounds_ok _ (sortEvents_sorted (collectEvents chs))) as H.
  rewrite Forall_forall in H. now apply H.
Qed.

Lemma mapRegions64_In (channelCount : nat) (random : nat -> Q)
      (cs : list Cluster) (r : Region) :
  forall k, In r (mapRegions64 channelCount random k cs) ->
            exists c k', In c cs /\ r = regionOf64 channelCount (random k') c.
Proof.
  induction cs as [|c cs IH]; intros k; cbn [mapRegions64 In]; [intros []|].
  intros [<- | H].
  - exists c, k. auto.
  - destruct (IH _ H) as (c' & k' & Hc & Hr). exists c', k'. auto.
Qed.

(** Every emitted region is the region of a surviving cluster. *)
Lemma regions64_In (random : nat -> Q) (chs : list Channel) (r : Region) :
  In r (identifyIctalRegions64 random chs) ->
  exists c k, In c (survivors64 chs) /\ r = regionOf64 (length chs) (random k) c.
Proof.
  unfold identifyIctalRegions64. intros H.
  eapply Permutation_in in H; [|apply sort_by_perm].
  eapply mapRegions64_In; eassumption.
Qed.

Lemma survivors64_channels_pos (chs : list Channel) (c : Cluster) :
  In c (survivors64 chs) -> (0 < length chs)%nat.
Proof.
  intros Hc. pose proof Hc as Hc'. apply survivors64_In in Hc'. destruct Hc' as [_ Hlen].
  destruct (cluster_events c) as [|e rest] eqn:E; [cbn in Hlen; lia|].
  assert (He : In e (collectEvents chs)).
  { eapply survivors64_member; [exact Hc|]. rewrite E. now left. }
  apply collectEvents_In in He. destruct He as (ch & Hch & _).
  destruct chs; [destruct Hch|cbn; lia].
Qed.

(** A surviving cluster of events with [end > start] starts at the start
    of a member and ends, later, at the end of a member. *)
Lemma survivors64_span (chs : list Channel) (c : Cluster) :
  well_formed chs -> In c (survivors64 chs) ->
  cluster_start c < cluster_end c
  /\ (exists e, In e (collectEvents chs) /\ cluster_start c = start (event e))
  /\ (exists e, In e (collectEvents chs) /\ cluster_end c = end_ (event e)).
Proof.
  intros Hwf Hc.
  destruct (survivors64_bounds_ok chs c Hc) as ((e1 & He1 & Hs) & _ & (e2 & He2 & He) & Hmax).
  pose proof (Hmax e1 He1) as H1.
  pose proof (survivors64_member chs c e1 Hc He1) as Hm1.
  pose proof (survivors64_member chs c e2 Hc He2) as Hm2.
  pose proof (Hwf e1 Hm1) as H2.
  split; [rewrite Hs; lra|]. split; [now exists e1|now exists e2].
Qed.

(** *** Signs of the rounded results *)

Lemma is_double_rnd (q : Q) : is_double q = true -> rnd q == q.
Proof.
  unfold is_double. intros H. apply andb_true_iff in H. destruct H as [H _].
  now apply Qeq_bool_iff.
Qed.

Lemma round64_nonneg (q : Q) : 0 <= q -> nonneg (round64 q).
Proof.
  intros H. pose proof (rnd_nonneg q H) as Hr. pose proof (pow2_pos 1024) as Hp.
  unfold round64. cbv zeta.
  destruct (Qle_bool (pow2 1024) (rnd q)); [exact I|].
  destruct (Qle_bool (rnd q) (- pow2 1024)) eqn:E; [|exact Hr].
  apply Qle_bool_iff in E. exfalso. lra.
Qed.

Lemma round64_positive (q : Q) : 0 < rnd q -> positive (round64 q).
Proof.
  intros Hr. pose proof (pow2_pos 1024) as Hp.
  unfold round64. cbv zeta.
  destruct (Qle_bool (pow2 1024) (rnd q)); [exact I|].
  destruct (Qle_bool (rnd q) (- pow2 1024)) eqn:E; [|exact Hr].
  apply Qle_bool_iff in E. exfalso. lra.
Qed.

(** A result between two bounds whose roundings are finite is finite. *)
Lemma round64_range (q lo hi L H : Q) :
  lo <= q -> q <= hi -> L <= rnd lo -> rnd hi <= H ->
  - pow2 1024 < L -> H < pow2 1024 ->
  round64 q = Fin (rnd q) /\ L <= rnd q /\ rnd q <= H.
Proof.
  intros Hlo Hhi HL HH HLf HHf.
  pose proof (rnd_mono _ _ Hlo) as H1. pose proof (rnd_mono _ _ Hhi) as H2.
  unfold round64. cbv zeta.
  destruct (Qle_bool (pow2 1024) (rnd q)) eqn:E1.
  { apply Qle_bool_iff in E1. exfalso. lra. }
  destruct (Qle_bool (rnd q) (- pow2 1024)) eqn:E2.
  { apply Qle_bool_iff in E2. exfalso. lra. }
  split; [reflexivity|]. split; lra.
Qed.

Lemma fmul_nonneg (x : num) (c : Q) : nonneg x -> 0 < c -> nonneg (fmul x (Fin c)).
Proof.
  intros Hx Hc. destruct x as [| | |q]; cbn [nonneg] in Hx; try contradiction.
  - unfold fmul, nmul. rewrite (Qeq_bool_pos_false c Hc).
    assert (E : ltb 0 c = true) by now apply ltb_iff.
    rewrite E. exact I.
  - unfold fmul, nmul, fl. apply round64_nonneg.
    apply Qmult_le_0_compat; [assumption|now apply Qlt_le_weak].
Qed.

Lemma fadd_nonneg (x y : num) : nonneg x -> nonneg y -> nonneg (fadd x y).
Proof.
  intros Hx Hy.
  destruct x as [| | |a]; cbn [nonneg] in Hx; try contradiction;
    destruct y as [| | |b]; cbn [nonneg] in Hy; try contradiction;
    try exact I.
  unfold fadd, nadd, fl. apply round64_nonneg. lra.
Qed.

Lemma fdiv_nonneg (a : Q) (d : num) : 0 <= a -> positive d -> nonneg (fdiv (Fin a) d).
Proof.
  intros Ha Hd. destruct d as [| | |q]; cbn [positive] in Hd; try contradiction.
  - unfold fdiv, ndivn, fl. apply round64_nonneg. apply Qle_refl.
  - unfold fdiv, ndivn, ndiv. rewrite (Qeq_bool_pos_false q Hd).
    unfold fl. apply round64_nonneg. now apply Qdiv_nonneg.
Qed.

(** [Math.min(95, Math.round(x))] of a number that is not negative. *)
Lemma confidence_range (x : num) :
  nonneg x -> exists z, nmin 95 (nround x) = Fin (ofZ z) /\ (0 <= z <= 95)%Z.
Proof.
  intros Hx. destruct x as [| | |q]; cbn [nonneg] in Hx; try contradiction.
  - exists 95%Z. split; [reflexivity|lia].
  - cbn [nround nmin]. destruct (Math_min_95 (Math_round q)) as (z & Hz & Hb).
    + now apply Math_round_nonneg.
    + exists z. rewrite Hz. auto.
Qed.

(** [0.7 + Math.random() * 0.3] lies between the doubles [0.7] and [1]. *)
Lemma jitter64_range (rand : Q) :
  0 <= rand -> rand < 1 ->
  exists j, jitter64 rand = Fin j /\ double (7 # 10) <= j /\ j <= 1.
Proof.
  intros H0 H1. unfold jitter64.
  assert (P3 : 0 < double (3 # 10)) by (vm_compute; reflexivity).
  destruct (round64_range (rand * double (3 # 10)) 0 (double (3 # 10)) 0 (double (3 # 10)))
    as (E1 & L1 & U1).
  - apply Qmult_le_0_compat; lra.
  - rewrite <- (Qmult_1_l (double (3 # 10))) at 2.
    apply Qmult_le_compat_r; lra.
  - vm_compute. discriminate.
  - vm_compute. discriminate.
  - vm_compute. reflexivity.
  - vm_compute. reflexivity.
  - unfold fmul, nmul, fl. rewrite E1.
    set (t := rnd (rand * double (3 # 10))) in *.
    destruct (round64_range (double (7 # 10) + t) (double (7 # 10))
                            (double (7 # 10) + double (3 # 10)) (double (7 # 10)) 1)
      as (E2 & L2 & U2).
    + lra.
    + lra.
    + vm_compute. discriminate.
    + vm_compute. discriminate.
    + vm_compute. reflexivity.
    + vm_compute. reflexivity.
    + unfold fadd, nadd, fl. rewrite E2. eexists. split; [reflexivity|]. split; assumption.
Qed.

(** The difference of two doubles [a < b] rounds to a positive number. *)
Lemma fsub_positive (a b : Q) :
  is_double a = true -> is_double b = true -> a < b ->
  positive (fsub (Fin b) (Fin a)).
Proof.
  intros Ha Hb Hab. unfold fsub, nsub, nneg, nadd, fl. apply round64_positive.
  exact (rnd_sub_pos a b (is_double_rnd a Ha) (is_double_rnd b Hb) Hab).
Qed.

(** The comparator [a.start - b.start] of the sort: the rounded
    difference of two doubles is positive exactly when the exact one is. *)
Lemma start_gt_rounded (a b : PooledEvent) :
  is_double (start (event a)) = true -> is_double (start (event b)) = true ->
  ngtb (fsub (Fin (start (event a))) (Fin (start (event b)))) 0 = start_gt a b.
Proof.
  intros Da Db. unfold start_gt.
  destruct (Qlt_le_dec (start (event b)) (start (event a))) as [Hlt | Hle].
  - pose proof (fsub_positive _ _ Db Da Hlt) as Hp.
    assert (E : ltb 0 (start (event a) - start (event b)) = true)
      by (apply ltb_iff; lra).
    rewrite E.
    destruct (fsub (Fin (start (event a))) (Fin (start (event b)))) as [| | |q];
      cbn [positive] in Hp; try contradiction; [reflexivity|].
    cbn [ngtb]. now apply ltb_iff.
  - assert (E : ltb 0 (start (event a) - start (event b)) = false)
      by (apply ltb_false_iff; lra).
    rewrite E. unfold fsub, nsub, nneg, nadd, fl, round64.
    pose proof (rnd_nonpos (start (event a) + - start (event b)) ltac:(lra)) as Hr.
    pose proof (pow2_pos 1024) as Hp.
    destruct (Qle_bool (pow2 1024) (rnd (start (event a) + - start (event b)))) eqn:E1.
    { apply Qle_bool_iff in E1. exfalso. lra. }
    destruct (Qle_bool (rnd (start (event a) + - start (event b))) (- pow2 1024));
      [reflexivity|].
    cbn [ngtb]. apply ltb_false_iff. assumption.
Qed.

(** The duration of a surviving cluster of events with [end > start]. *)
Lemma duration64_positive (chs : list Channel) (c : Cluster) :
  well_formed chs -> doubles chs -> In c (survivors64 chs) ->
  positive (duration64 c).
Proof.
  intros Hwf Hdb Hc.
  destruct (survivors64_span chs c Hwf Hc) as (Hlt & (e1 & He1 & Hs) & (e2 & He2 & He)).
  unfold duration64. apply fsub_positive; [| |assumption].
  - rewrite Hs. apply (Hdb e1 He1).
  - rewrite He. apply (Hdb e2 He2).
Qed.

(** The product under [Math.round] is not negative. *)
Lemma confidence_base_nonneg (chs : list Channel) (c : Cluster) (size : nat) (j : Q) :
  well_formed chs -> doubles chs -> In c (survivors64 chs) -> 0 < j ->
  nonneg (fmul (fadd (fmul (eventDensity64 c) (Fin 20))
                     (fmul (channelInvolvement64 size (length chs)) (Fin 50)))
               (Fin j)).
Proof.
  intros Hwf Hdb Hc Hj.
  pose proof (duration64_positive chs c Hwf Hdb Hc) as Hd.
  pose proof (survivors64_channels_pos chs c Hc) as Hn.
  apply fmul_nonneg; [|assumption]. apply fadd_nonneg.
  - apply fmul_nonneg; [|reflexivity].
    unfold eventDensity64. apply fdiv_nonneg; [apply ofNat_nonneg|assumption].
  - apply fmul_nonneg; [|reflexivity].
    unfold channelInvolvement64. apply fdiv_nonneg; [apply ofNat_nonneg|].
    cbn [positive]. now apply ofNat_pos.
Qed.

(* ================================================================= *)
(** ** Confidence of the emitted regions *)

(** C6 (counterexample to the claim as stated).  The three events of
    [one_second] make one region of density 3 and involvement 1/2; with
    [Math.random()] at 0 the code computes [85 * 0.7] in doubles, which is
    59.49999999999999, and returns 59.  Over the reals no jitter of
    [[0.7, 1.0]] gives 59: the least value of the formula is 60. *)
Lemma confidence_59_has_no_exact_jitter :
  identifyIctalRegions64 (fun _ => 0) one_second
  = [mkRegion 0 1 ["C4"%string] (Fin 59) (mkEventCount 1 2 0) medium]
  /\ ~ (exists j, 7 # 10 <= j /\ j <= 1
                  /\ Math_min 95 (ofZ (Math_round ((3 / (1 - 0) * 20 + 1 / 2 * 50) * j)))
                     == 59).
Proof.
  split; [vm_compute; reflexivity|].
  intros (j & Hj1 & Hj2 & Heq).
  assert (Hr : (60 <= Math_round ((3 / (1 - 0) * 20 + 1 / 2 * 50) * j))%Z).
  { unfold Math_round. change 60%Z with (Qfloor 60).
    apply Qfloor_resp_le.
    assert (E : (3 / (1 - 0) * 20 + 1 / 2 * 50) == 85) by (vm_compute; reflexivity).
    rewrite E. lra. }
  set (z := Math_round ((3 / (1 - 0) * 20 + 1 / 2 * 50) * j)) in *. clearbody z.
  unfold Math_min in Heq. destruct (leb 95 (ofZ z)).
  - vm_compute in Heq. discriminate Heq.
  - unfold ofZ, inject_Z, Qeq in Heq. cbn in Heq. lia.
Qed.

(** C6 (amended).  For events with [end > start] and draws of
    [Math.random()] in [[0, 1)], every emitted region has a jitter [j]
    between the doubles [0.7] and [1.0] with
    [confidence = min(95, round((eventDensity * 20 + channelInvolvement * 50) * j))],
    every operation being rounded to the nearest double, where
    [eventDensity = totalEvents / (end - start)] and [channelInvolvement]
    is the number of distinct member channels over the number of channels
    of the recording; the confidence is an integer between 0 and 95. *)
Theorem confidence_formula (random : nat -> Q) (chs : list Channel) (r : Region) :
  well_formed chs ->
  doubles chs ->
  (forall k, 0 <= random k /\ random k < 1) ->
  In r (identifyIctalRegions64 random chs) ->
  confidence_spec chs r.
Proof.
  intros Hwf Hdb Hrand Hr. apply regions64_In in Hr. destruct Hr as (c & k & Hc & ->).
  destruct (survivors64_span chs c Hwf Hc) as (Hlt & _).
  pose proof (survivors64_channels_pos chs c Hc) as Hn.
  destruct (Hrand k) as [Hr0 Hr1].
  destruct (jitter64_range (random k) Hr0 Hr1) as (j & Hj & Hj1 & Hj2).
  destruct (channelSet_spec (cluster_events c)) as [Hnd Hset].
  assert (Hjpos : 0 < j).
  { apply (Qlt_le_trans _ (double (7 # 10))); [vm_compute; reflexivity|assumption]. }
  exists c, j.
  split; [assumption|]. split; [split; assumption|].
  cbn [regionOf64 channels confidence eventCount region_start region_end].
  split; [assumption|]. split; [assumption|].
  split; [assumption|]. split; [assumption|].
  unfold confidenceOf64. rewrite Hj. split; [reflexivity|].
  apply confidence_range.
  exact (confidence_base_nonneg chs c _ j Hwf Hdb Hc Hjpos).
Qed.

(** The region of [one_second] with every draw at 1/2. *)
Lemma confidence_formula_witness :
  confidence_spec one_second
                  (nth 0 (identifyIctalRegions64 (fun _ => 1 # 2) one_second)
                       (mkRegion 0 0 [] NaN (mkEventCount 0 0 0) low)).
Proof.
  apply (confidence_formula (fun _ => 1 # 2) one_second).
  - intros e He. vm_compute in He.
    destruct He as [<- | [<- | [<- | []]]]; vm_compute; reflexivity.
  - intros e He. vm_compute in He.
    destruct He as [<- | [<- | [<- | []]]]; split; vm_compute; reflexivity.
  - intros k. split; vm_compute; congruence.
  - vm_compute. left. reflexivity.
Defined.

(* ================================================================= *)
(** ** The divisions of the clusterer *)

(** C10.  When every input event has [end > start], its times being
    doubles and its label one of [HFO], [IED], [Rhythmic] as the data model
    has them, each division made for a surviving cluster has a nonzero
    divisor: [totalEvents] is the number of members (at least 3), the
    duration [end - start] is positive, and the recording has a channel;
    so [hfoRatio], [eventDensity] and [channelInvolvement] are numbers
    that are neither [NaN] nor negative, and the confidence is an integer
    between 0 and 95. *)
Theorem clusterer_divisions_defined (chs : list Channel) (c : Cluster) :
  well_formed chs ->
  doubles chs ->
  (forall e, In e (collectEvents chs) -> labelled (type (event e)) = true) ->
  In c (survivors64 chs) ->
  let count := countEvents (cluster_events c) in
  let size := length (channelSet (cluster_events c)) in
  totalEvents count = length (cluster_events c)
  /\ (3 <= totalEvents count)%nat
  /\ cluster_start c < cluster_end c
  /\ positive (duration64 c)
  /\ (0 < length chs)%nat
  /\ nonneg (hfoRatio64 count)
  /\ nonneg (eventDensity64 c)
  /\ nonneg (channelInvolvement64 size (length chs))
  /\ forall rand,
      0 <= rand -> rand < 1 ->
      exists z,
        confidenceOf64 (channelInvolvement64 size (length chs)) rand c = Fin (ofZ z)
        /\ (0 <= z <= 95)%Z.
Proof.
  intros Hwf Hdb Hlab Hc count size.
  assert (Htot : totalEvents count = length (cluster_events c)).
  { apply totalEvents_all_labelled. intros e He. apply Hlab.
    eapply survivors64_member; eassumption. }
  assert (Hlen : (3 <= length (cluster_events c))%nat) by now apply survivors64_In in Hc.
  destruct (survivors64_span chs c Hwf Hc) as (Hlt & _).
  pose proof (duration64_positive chs c Hwf Hdb Hc) as Hd.
  pose proof (survivors64_channels_pos chs c Hc) as Hn.
  split; [assumption|]. split; [lia|]. split; [assumption|]. split; [assumption|].
  split; [assumption|]. split; [|split; [|split]].
  - unfold hfoRatio64. apply fdiv_nonneg; [apply ofNat_nonneg|].
    cbn [positive]. apply ofNat_pos. lia.
  - unfold eventDensity64. apply fdiv_nonneg; [apply ofNat_nonneg|assumption].
  - unfold channelInvolvement64. apply fdiv_nonneg; [apply ofNat_nonneg|].
    cbn [positive]. now apply ofNat_pos.
  - intros rand H0 H1.
    destruct (jitter64_range rand H0 H1) as (j & Hj & Hj1 & _).
    unfold confidenceOf64. rewrite Hj. apply confidence_range.
    apply (confidence_base_nonneg chs c size j Hwf Hdb Hc).
    apply (Qlt_le_trans _ (double (7 # 10))); [vm_compute; reflexivity|assumption].
Qed.

(** The cluster of [three_events]: one HFO among three events that span
    4 s, in one of two channels each. *)
Lemma clusterer_divisions_defined_witness :
  exists c,
    In c (survivors64 three_events)
    /\ totalEvents (countEvents (cluster_events c)) = 3%nat
    /\ positive (duration64 c).
Proof.
  exists (nth 0 (survivors64 three_events) (mkCluster [] 0 0)).
  assert (Hc : In (nth 0 (survivors64 three_events) (mkCluster [] 0 0))
                  (survivors64 three_events))
    by (vm_compute; left; reflexivity).
  split; [exact Hc|].
  destruct (clusterer_divisions_defined three_events _
              ltac:(intros e He; vm_compute in He;
                    destruct He as [<- | [<- | [<- | []]]]; vm_compute; reflexivity)
              ltac:(intros e He; vm_compute in He;
                    destruct He as [<- | [<- | [<- | []]]]; split; vm_compute; reflexivity)
              ltac:(intros e He; vm_compute in He;
                    destruct He as [<- | [<- | [<- | []]]]; vm_compute; reflexivity)
              Hc) as (H1 & _ & _ & H4 & _).
  split; [|exact H4]. rewrite H1. reflexivity.
Defined.

(* ================================================================= *)
(** ** The summary of the analysis panel *)

Lemma Math_min_Qmin (x y : Q) : Math_min x y == Qmin x y.
Proof.
  unfold Math_min. destruct (leb x y) eqn:E.
  - apply leb_iff in E. symmetry. now apply Q.min_l.
  - apply leb_false_iff in E. symmetry. apply Q.min_r. now apply Qlt_le_weak.
Qed.

Lemma Math_round_comp (x y : Q) : x == y -> Math_round x = Math_round y.
Proof. intros H. unfold Math_round. now rewrite H. Qed.

Lemma normalized_bounds (n : nat) (d : Q) :
  0 < d -> 0 <= Math_min (ofNat n / d) 1 /\ Math_min (ofNat n / d) 1 <= 1.
Proof.
  intros Hd. split.
  - apply Math_min_glb; [|lra]. apply Qdiv_nonneg; [apply ofNat_nonneg|assumption].
  - apply Math_min_le_r.
Qed.

Lemma riskScore_spec (counts : PatternCounts) (regions : nat) :
  riskScore counts regions =
  spec_risk (count_hfo counts) (count_ied counts) (count_rhythmic counts) regions.
Proof.
  unfold riskScore, spec_risk. cbv zeta. apply Math_round_comp.
  rewrite <- !Math_min_Qmin. ring.
Qed.

Lemma riskScore_bounds (counts : PatternCounts) (regions : nat) :
  (0 <= riskScore counts regions <= 100)%Z.
Proof.
  unfold riskScore. cbv zeta.
  destruct (normalized_bounds (count_hfo counts) 50) as [H1 H1']; [reflexivity|].
  destruct (normalized_bounds (count_ied counts) 50) as [H2 H2']; [reflexivity|].
  destruct (normalized_bounds (count_rhythmic counts) 50) as [H3 H3']; [reflexivity|].
  destruct (normalized_bounds regions 5) as [H4 H4']; [reflexivity|].
  split.
  - apply Math_round_nonneg. lra.
  - apply Math_round_le_100. lra.
Qed.

Lemma countType_fold (evs : list Event) :
  forall c0,
    let c := fold_left (fun c e => countType c (type e)) evs c0 in
    hfo c = (hfo c0 + count_label 0 evs)%nat
    /\ ied c = (ied c0 + count_label 1 evs)%nat
    /\ rhythmic c = (rhythmic c0 + count_label 2 evs)%nat.
Proof.
  induction evs as [|e evs IH]; intros c0; cbn [fold_left].
  - cbn. repeat split; lia.
  - destruct (IH (countType c0 (type e))) as (Hh & Hi & Hr).
    cbn zeta. rewrite Hh, Hi, Hr. unfold count_label. cbn [filter].
    unfold countType, first_label.
    destruct (includes (type e) "HFO"), (includes (type e) "IED"),
             (includes (type e) "Rhythmic"); cbn; repeat split; lia.
Qed.

(** C7.  The analysis of a recording returns a summary whose
    [epilepsyRisk] is
    [round(100 * (0.4 min(hfo/50, 1) + 0.3 min(ied/50, 1)
                  + 0.1 min(rhythmic/50, 1) + 0.2 min(regions/5, 1)))]
    over the pattern counts of its events and the number of its regions,
    and lies between 0 and 100. *)
Theorem epilepsyRisk_formula
        (random : nat -> nat -> nat -> Q) (jitter : nat -> Q) (chs : list Channel) :
  exists res,
    generateAnalysisResults random jitter (mkEegData (Some chs)) = Some res
    /\ count_hfo (patternCounts res) = count_label 0 (flat_map events chs)
    /\ count_ied (patternCounts res) = count_label 1 (flat_map events chs)
    /\ count_rhythmic (patternCounts res) = count_label 2 (flat_map events chs)
    /\ ictalRegions res = panel_identifyIctalRegions jitter (mkEegData (Some chs))
    /\ epilepsyRisk res =
       spec_risk (count_hfo (patternCounts res)) (count_ied (patternCounts res))
                 (count_rhythmic (patternCounts res)) (length (ictalRegions res))
    /\ (0 <= epilepsyRisk res <= 100)%Z.
Proof.
  unfold generateAnalysisResults. cbn [eeg_channels]. eexists. split; [reflexivity|].
  cbn [patternCounts ictalRegions epilepsyRisk].
  destruct (countType_fold (flat_map events chs) (mkEventCount 0 0 0)) as (Hh & Hi & Hr).
  unfold countPatterns. cbn [count_hfo count_ied count_rhythmic].
  split; [exact Hh|]. split; [exact Hi|]. split; [exact Hr|].
  split; [reflexivity|]. split; [apply riskScore_spec|apply riskScore_bounds].
Qed.

(** C9.  A recording with zero channels is analysed without an error: no
    event, no region, every percentage 0 and [epilepsyRisk = 0]; the
    processor's clusterer and detectors return empty lists as well. *)
Theorem empty_recording_analysis
        (random : nat -> nat -> nat -> Q) (jitter : nat -> Q)
        (detector_random : nat -> Z -> Q) :
  exists res,
    generateAnalysisResults random jitter (mkEegData (Some [])) = Some res
    /\ allEvents res = []
    /\ ictalRegions res = []
    /\ patternCounts res = mkCounts 0 0 0 0
    /\ patternPercentages res = mkPercentages 0 0 0
    /\ epilepsyRisk res = 0%Z
    /\ panel_identifyIctalRegions jitter (mkEegData (Some [])) = []
    /\ identifyIctalRegions jitter [] = []
    /\ detectPatterns detector_random [] = Some [].
Proof. eexists. repeat split; reflexivity. Qed.

(* ================================================================= *)
(** * Further properties of the processor and the panel *)

(** ** The IED detector never fires *)

Lemma Math_sign_pos (x : Q) : 0 < x -> Math_sign x = 1%Z.
Proof.
  unfold Math_sign, Qlt. destruct x as [n d]. cbn. intros H.
  apply Z.sgn_pos. lia.
Qed.

Lemma Math_sign_neg (x : Q) : x < 0 -> Math_sign x = (-1)%Z.
Proof.
  unfold Math_sign, Qlt. destruct x as [n d]. cbn. intros H.
  apply Z.sgn_neg. lia.
Qed.

Lemma maxAmpPos_fold (rest : list Q) :
  forall (pre : list Q) (m : Q) (p : nat),
    amp_inv pre m p ->
    amp_inv (pre ++ rest)
            (fst (fst (fold_left amp_step rest (m, p, length pre))))
            (snd (fst (fold_left amp_step rest (m, p, length pre)))).
Proof.
  induction rest as [|x rest IH]; intros pre m p Hinv.
  - cbn. now rewrite app_nil_r.
  - cbn [fold_left].
    replace (pre ++ x :: rest) with ((pre ++ [x]) ++ rest)
      by (rewrite <- app_assoc; reflexivity).
    assert (Hlen : S (length pre) = length (pre ++ [x]))
      by (rewrite length_app; cbn; lia).
    destruct Hinv as (Hm & Hall & Hat).
    unfold amp_step at 2 4.
    destruct (ltb m (Math_abs x)) eqn:E; rewrite Hlen; apply IH.
    + apply ltb_iff in E. split; [apply Qabs_nonneg|]. split.
      * intros y Hy. apply in_app_or in Hy. destruct Hy as [Hy | [<- | []]].
        -- eapply Qle_trans; [apply Hall, Hy|]. now apply Qlt_le_weak.
        -- apply Qle_refl.
      * intros _. split; [lia|].
        rewrite app_nth2 by lia. now rewrite Nat.sub_diag.
    + apply ltb_false_iff in E. split; [assumption|]. split.
      * intros y Hy. apply in_app_or in Hy. destruct Hy as [Hy | [<- | []]]; auto.
      * intros H. destruct (Hat H) as [Hp Heq]. split; [lia|].
        now rewrite app_nth1.
Qed.

Lemma maxAmpPos_inv (w : list Q) :
  amp_inv w (fst (maxAmpPos w)) (snd (maxAmpPos w)).
Proof.
  assert (H0 : amp_inv [] 0 0).
  { split; [apply Qle_refl|]. split; [intros x []|].
    intros H. exfalso. apply (Qlt_irrefl 0 H). }
  apply (maxAmpPos_fold w [] 0 O) in H0. exact H0.
Qed.

(** The two slopes around the largest sample never have opposite signs
    while both exceed 10 in absolute value. *)
Lemma ied_classify_never (w : list Q) :
  ied_classify (fst (maxAmpPos w))
               (fst (slopes w (snd (maxAmpPos w))))
               (snd (slopes w (snd (maxAmpPos w)))) = false.
Proof.
  destruct (maxAmpPos_inv w) as (Hm & Hall & Hat).
  set (m := fst (maxAmpPos w)) in *. set (p := snd (maxAmpPos w)) in *.
  clearbody m p. unfold slopes.
  destruct ((5 <? Z.of_nat p)%Z && (Z.of_nat p <? Z.of_nat (length w) - 5)%Z) eqn:G;
    [|apply ied_classify_zero_slopes].
  apply andb_true_iff in G. destruct G as [G1 G2].
  apply Z.ltb_lt in G1. apply Z.ltb_lt in G2.
  cbn [fst snd]. unfold ied_classify, Qdiv. change (/ 5) with (1 # 5).
  destruct (ltb 50 m) eqn:E50; [|reflexivity].
  apply ltb_iff in E50.
  assert (Hpos : 0 < m) by lra.
  destruct (Hat Hpos) as [Hp Hmp].
  set (a := nth p w 0) in *. set (b := nth (p - 5) w 0). set (c := nth (p + 5) w 0).
  assert (Hb : Qabs b <= m) by (apply Hall, nth_In; lia).
  assert (Hc : Qabs c <= m) by (apply Hall, nth_In; lia).
  clearbody a b c.
  apply Qabs_Qle_condition in Hb. apply Qabs_Qle_condition in Hc.
  destruct (ltb 10 (Math_abs ((a - b) * (1 # 5)))) eqn:Eb; [|reflexivity].
  destruct (ltb 10 (Math_abs ((a - c) * (1 # 5)))) eqn:Ec; [|reflexivity].
  apply ltb_iff in Eb. apply ltb_iff in Ec. unfold Math_abs in Eb, Ec.
  cbn [andb]. apply negb_false_iff, Z.eqb_eq.
  destruct (Qlt_le_dec a 0) as [Ha | Ha].
  - assert (Hma : m == - a) by (rewrite Hmp; apply Qabs_neg; lra).
    assert (Hsb : (a - b) * (1 # 5) <= 0) by lra.
    assert (Hsc : (a - c) * (1 # 5) <= 0) by lra.
    rewrite (Qabs_neg _ Hsb) in Eb. rewrite (Qabs_neg _ Hsc) in Ec.
    rewrite !Math_sign_neg by lra. reflexivity.
  - assert (Hma : m == a) by (rewrite Hmp; apply Qabs_pos; lra).
    assert (Hsb : 0 <= (a - b) * (1 # 5)) by lra.
    assert (Hsc : 0 <= (a - c) * (1 # 5)) by lra.
    rewrite (Qabs_pos _ Hsb) in Eb. rewrite (Qabs_pos _ Hsc) in Ec.
    rewrite !Math_sign_pos by lra. reflexivity.
Qed.

Lemma ied_window_id (random : Z -> Q) (sampleRate : Q) (windowSize : Z)
      (evs : list Event) (iw : Z * list Q) :
  ied_window random sampleRate windowSize evs iw = evs.
Proof.
  destruct iw as [i w]. unfold ied_window.
  pose proof (ied_classify_never w) as H.
  destruct (maxAmpPos w) as [m p]. cbn [fst snd] in H.
  destruct (slopes w p) as [sb sa]. cbn [fst snd] in H.
  cbv zeta. now rewrite H.
Qed.

Lemma fold_ied_window_id (random : Z -> Q) (sampleRate : Q) (windowSize : Z)
      (ws : list (Z * list Q)) (evs : list Event) :
  fold_left (ied_window random sampleRate windowSize) ws evs = evs.
Proof.
  induction ws as [|w ws IH]; cbn [fold_left]; [reflexivity|].
  now rewrite ied_window_id.
Qed.

Lemma detectIEDs_250 (random : Z -> Q) (samples : list Q) (evs : list Event) :
  detectIEDs random samples evs sampleRate250 = Some evs.
Proof.
  unfold detectIEDs.
  change (Math_floor (sampleRate250 * (2 # 10))) with 50%Z.
  change (Math_floor (sampleRate250 * (1 # 10))) with 25%Z.
  destruct (scan_windows samples 50 25) as (ws & -> & _); [lia|].
  cbn [option_map]. now rewrite fold_ied_window_id.
Qed.

(** X1.  Whatever the samples, the random draws and the events accepted so
    far, [detectIEDs] adds no event: when its loop terminates it returns
    the events it was given, and at 250 Hz it always terminates. *)
Theorem detectIEDs_adds_nothing
        (random : Z -> Q) (samples : list Q) (evs : list Event) :
  (forall sampleRate,
      detectIEDs random samples evs sampleRate = None
      \/ detectIEDs random samples evs sampleRate = Some evs)
  /\ detectIEDs random samples evs sampleRate250 = Some evs.
Proof.
  split; [|apply detectIEDs_250].
  intros sampleRate. unfold detectIEDs.
  destruct (scan samples _ _) as [ws|]; cbn [option_map]; [right|now left].
  now rewrite fold_ied_window_id.
Qed.

(* ================================================================= *)
(** ** Quiet channels *)

Lemma In_firstn_In {A : Type} (n : nat) (l : list A) (x : A) :
  In x (firstn n l) -> In x l.
Proof.
  revert l. induction n as [|n IH]; intros [|y l]; cbn; try tauto.
  intros [-> | H]; auto.
Qed.

Lemma In_skipn_In {A : Type} (n : nat) (l : list A) (x : A) :
  In x (skipn n l) -> In x l.
Proof.
  revert l. induction n as [|n IH]; intros [|y l]; cbn; try tauto.
  intros H. right. now apply IH.
Qed.

Lemma In_slice {A : Type} (l : list A) (a b : Z) (x : A) :
  In x (slice l a b) -> In x l.
Proof.
  unfold slice. intros H. eapply In_skipn_In, In_firstn_In. exact H.
Qed.

Lemma ofNat_S (n : nat) : ofNat (S n) == ofNat n + 1.
Proof.
  unfold ofNat. rewrite Nat2Z.inj_succ. unfold Z.succ.
  now rewrite inject_Z_plus.
Qed.

Lemma fold_plus_le_100 (l : list Q) :
  (forall x, In x l -> x <= 100) ->
  forall a, fold_left Qplus l a <= a + 100 * ofNat (length l).
Proof.
  induction l as [|x l IH]; intros H a; cbn [fold_left length].
  - change (ofNat 0) with 0. lra.
  - eapply Qle_trans; [apply IH; intros y Hy; apply H; now right|].
    rewrite ofNat_S. specialize (H x (or_introl eq_refl)). lra.
Qed.

Lemma square_le_100 (x : Q) : - (10) <= x /\ x <= 10 -> x * x <= 100.
Proof.
  intros [H1 H2].
  assert (H : 0 <= (10 - x) * (10 + x)) by (apply Qmult_le_0_compat; lra).
  lra.
Qed.

Lemma square_nonneg (x : Q) : 0 <= x * x.
Proof.
  destruct (Qlt_le_dec x 0) as [H | H].
  - assert (H' : 0 <= (- x) * (- x)) by (apply Qmult_le_0_compat; lra). lra.
  - now apply Qmult_le_0_compat.
Qed.

(** The energy test of the HFO detector fails on a quiet window. *)
Lemma quiet_variance (w : list Q) :
  quiet w ->
  sumQ (map (fun x => x * x) w) / ofNat (length w)
  - sumQ w / ofNat (length w) * (sumQ w / ofNat (length w)) <= 100.
Proof.
  intros Hq.
  pose proof (square_nonneg (sumQ w / ofNat (length w))) as Hsq.
  assert (Hs : sumQ (map (fun x => x * x) w) / ofNat (length w) <= 100).
  { destruct w as [|x w]; [vm_compute; discriminate|].
    apply Qle_shift_div_r; [apply ofNat_pos; cbn; lia|].
    unfold sumQ.
    eapply Qle_trans; [apply fold_plus_le_100|].
    - intros y Hy. apply in_map_iff in Hy. destruct Hy as (z & <- & Hz).
      now apply square_le_100, Hq.
    - rewrite length_map. lra. }
  lra.
Qed.

Lemma hfo_window_quiet (sampleRate : Q) (windowSize : Z) (evs : list Event)
      (i : Z) (w : list Q) :
  quiet w -> hfo_window sampleRate windowSize evs (i, w) = evs.
Proof.
  intros Hq. unfold hfo_window. cbv zeta.
  assert (H : ltb 100 (sumQ (map (fun x => x * x) w) / ofNat (length w)
                       - sumQ w / ofNat (length w) * (sumQ w / ofNat (length w)))
              = false) by (apply ltb_false_iff, quiet_variance, Hq).
  rewrite H. now rewrite andb_false_r.
Qed.

Lemma peaks_from_quiet (w : list Q) :
  (forall x, In x w -> x <= 20) -> forall j0, peaks_from j0 w = [].
Proof.
  induction w as [|a w IH]; intros H j0; [reflexivity|].
  destruct w as [|b [|c w]]; try reflexivity.
  cbn [peaks_from].
  assert (Hb : ltb 20 b = false).
  { apply ltb_false_iff. apply H. right. now left. }
  rewrite Hb, !andb_false_r. cbn [app].
  apply IH. intros x Hx. apply H. now right.
Qed.

Lemma rhythmic_window_quiet (sampleRate : Q) (windowSize : Z) (evs : list Event)
      (i : Z) (w : list Q) :
  quiet w -> rhythmic_window sampleRate windowSize evs (i, w) = evs.
Proof.
  intros Hq. unfold rhythmic_window.
  rewrite peaks_from_quiet; [reflexivity|].
  intros x Hx. destruct (Hq x Hx). lra.
Qed.

Lemma fold_left_fixed {A B : Type} (f : A -> B -> A) (l : list B) (a : A) :
  (forall b, In b l -> f a b = a) -> fold_left f l a = a.
Proof.
  induction l as [|b l IH]; intros H; cbn [fold_left]; [reflexivity|].
  rewrite (H b) by now left. apply IH. intros; apply H. now right.
Qed.

Lemma scan_quiet (samples : list Q) (W S : Z) (ws : list (Z * list Q)) :
  quiet samples -> scan samples W S = Some ws ->
  forall iw, In iw ws -> quiet (snd iw).
Proof.
  intros Hq Hscan [i w] Hin.
  assert (Hw : w = slice samples i (i + W)).
  { clear Hq. unfold scan in Hscan. revert Hscan Hin.
    generalize (Z.to_nat (Z.of_nat (length samples) - W)) as fuel.
    generalize 0%Z as i0. intros i0 fuel. revert i0 ws.
    induction fuel as [|fuel IH]; intros i0 ws; cbn [scan_loop];
      destruct (i0 <? Z.of_nat (length samples) - W)%Z; try discriminate;
      try (intros [= <-] []).
    destruct (scan_loop fuel samples W S (i0 + S)) as [ws'|] eqn:E;
      cbn [option_map]; [|discriminate].
    intros [= <-] [[= <- <-] | Hin]; [reflexivity|].
    eapply IH; eassumption. }
  cbn [snd]. subst w. intros x Hx. apply Hq. eapply In_slice. exact Hx.
Qed.

Lemma detectChannel_quiet (random : Z -> Q) (ch : Channel) :
  quiet (data ch) -> detectChannel random ch = Some ch.
Proof.
  intros Hq. unfold detectChannel.
  assert (H1 : detectHFOs (data ch) (events ch) sampleRate250 = Some (events ch)).
  { unfold detectHFOs.
    destruct (scan (data ch) _ _) as [ws|] eqn:E.
    - cbn [option_map]. f_equal. apply fold_left_fixed. intros [i w] Hin.
      apply hfo_window_quiet. apply (scan_quiet _ _ _ _ Hq E (i, w) Hin).
    - exfalso. revert E.
      change (Math_floor (sampleRate250 * (1 # 10))) with 25%Z.
      change (Math_floor (sampleRate250 * (5 # 100))) with 12%Z.
      destruct (scan_windows (data ch) 25 12) as (ws & -> & _); [lia|discriminate]. }
  rewrite H1, detectIEDs_250.
  assert (H3 : detectRhythmicDischarges (data ch) (events ch) sampleRate250
               = Some (events ch)).
  { unfold detectRhythmicDischarges.
    destruct (scan (data ch) _ _) as [ws|] eqn:E.
    - cbn [option_map]. f_equal. apply fold_left_fixed. intros [i w] Hin.
      apply rhythmic_window_quiet. apply (scan_quiet _ _ _ _ Hq E (i, w) Hin).
    - exfalso. revert E.
      change (Math_floor (sampleRate250 * 3)) with 750%Z.
      change (Math_floor (sampleRate250 * 1)) with 250%Z.
      destruct (scan_windows (data ch) 750 250) as (ws & -> & _); [lia|discriminate]. }
  rewrite H3. now destruct ch.
Qed.

Lemma detectPatterns_from_quiet (random : nat -> Z -> Q) (chs : list Channel) :
  (forall ch, In ch chs -> quiet (data ch)) ->
  forall c, detectPatterns_from c random chs = Some chs.
Proof.
  induction chs as [|ch chs IH]; intros H c; cbn [detectPatterns_from]; [reflexivity|].
  rewrite detectChannel_quiet by (apply H; now left).
  rewrite IH by (intros; apply H; now right). reflexivity.
Qed.

(** X2.  On channels whose samples all lie within 10 of zero (silence in
    particular) the three detectors terminate and accept nothing: every
    channel keeps the events it had. *)
Theorem quiet_channels_yield_no_event
        (random : nat -> Z -> Q) (chs : list Channel) :
  (forall ch, In ch chs -> quiet (data ch)) ->
  detectPatterns random chs = Some chs.
Proof. intros H. now apply detectPatterns_from_quiet. Qed.

(** Ten seconds of an all-zero channel at 250 Hz give no event. *)
Lemma quiet_channels_yield_no_event_witness :
  detectPatterns (fun _ _ => 0) [mkChannel "C4" silence [] (388 # 10)]
  = Some [mkChannel "C4" silence [] (388 # 10)].
Proof.
  apply quiet_channels_yield_no_event.
  intros ch [<- | []] x Hx. cbn [data] in Hx.
  apply repeat_spec in Hx. subst x. split; vm_compute; discriminate.
Defined.

(* ================================================================= *)
(** ** The events a channel ends up with *)

Lemma fold_left_invariant {A B : Type} (P : A -> Prop) (f : A -> B -> A)
      (l : list B) :
  (forall a b, In b l -> P a -> P (f a b)) ->
  forall a, P a -> P (fold_left f l a).
Proof.
  induction l as [|b l IH]; intros H a Ha; cbn [fold_left]; [assumption|].
  apply IH.
  - intros a' b' Hb'. apply H. now right.
  - apply H; [now left|assumption].
Qed.

Lemma ForallOrdPairs_snoc {A : Type} (R : A -> A -> Prop) (l : list A) (x : A) :
  ForallOrdPairs R l -> (forall a, In a l -> R a x) -> ForallOrdPairs R (l ++ [x]).
Proof.
  induction 1 as [|a l Ha Hl IH]; intros Hx; cbn [app].
  - repeat constructor.
  - constructor.
    + apply Forall_app. split; [assumption|].
      constructor; [apply Hx; now left|constructor].
    + apply IH. intros b Hb. apply Hx. now right.
Qed.

Lemma ForallOrdPairs_refine {A : Type} (P : A -> Prop) (R R' : A -> A -> Prop)
      (l : list A) :
  (forall a b, P a -> P b -> R a b -> R' a b) ->
  Forall P l -> ForallOrdPairs R l -> ForallOrdPairs R' l.
Proof.
  intros Himp HP HR. induction HR as [|a l Ha Hl IH].
  - constructor.
  - inversion HP as [|? ? Pa Pl]; subst. constructor; [|now apply IH].
    rewrite Forall_forall in *. intros b Hb. apply Himp; auto.
Qed.

Lemma overlapping_false_clear (evs : list Event) (e : Event) :
  overlapping evs (start e) (end_ e) = false ->
  forall a, In a evs -> clear_of a e.
Proof.
  intros H a Ha.
  assert (Hn : ~ exists ev, In ev evs
                 /\ ((start ev <= start e /\ start e <= end_ ev)
                     \/ (start ev <= end_ e /\ end_ e <= end_ ev))).
  { rewrite <- overlapping_iff. congruence. }
  split; intros Hc; apply Hn; exists a; auto.
Qed.

Lemma events_inv_push (L : Z) (evs : list Event) (e : Event) :
  events_inv L evs -> detector_event L e ->
  overlapping evs (start e) (end_ e) = false ->
  events_inv L (evs ++ [e]).
Proof.
  intros [Hall Hpairs] He Hov. split.
  - apply Forall_app. split; [assumption|]. constructor; [assumption|constructor].
  - apply ForallOrdPairs_snoc; [assumption|].
    now apply overlapping_false_clear.
Qed.

Lemma hfo_window_inv (L : Z) (evs : list Event) (k : Z) (w : list Q) :
  (0 <= k)%Z -> (k * 12 + 25 < L)%Z ->
  events_inv L evs ->
  events_inv L (hfo_window sampleRate250 25 evs ((k * 12)%Z, w)).
Proof.
  intros Hk HL Hinv. unfold hfo_window. cbv zeta.
  destruct (ltb 80 _ && ltb 100 _); [|assumption].
  match goal with
  | |- context [overlapping evs ?s ?t] => destruct (overlapping evs s t) eqn:Hov
  end; [assumption|].
  apply events_inv_push; [assumption| |exact Hov].
  left. exists k. repeat split; assumption.
Qed.

Lemma rhythmic_window_inv (L : Z) (evs : list Event) (k : Z) (w : list Q) :
  (0 <= k)%Z -> (k * 250 + 750 < L)%Z ->
  events_inv L evs ->
  events_inv L (rhythmic_window sampleRate250 750 evs ((k * 250)%Z, w)).
Proof.
  intros Hk HL Hinv. unfold rhythmic_window. cbv zeta.
  destruct (3 <=? _)%nat; [|assumption].
  destruct (intervalCV_below _ _ && ltb 10 _ && ltb _ 100); [|assumption].
  match goal with
  | |- context [overlapping evs ?s ?t] => destruct (overlapping evs s t) eqn:Hov
  end; [assumption|].
  apply events_inv_push; [assumption| |exact Hov].
  right. exists k. repeat split; assumption.
Qed.

Lemma detectHFOs_inv (samples : list Q) (evs : list Event) :
  events_inv (Z.of_nat (length samples)) evs ->
  exists evs', detectHFOs samples evs sampleRate250 = Some evs'
               /\ events_inv (Z.of_nat (length samples)) evs'.
Proof.
  intros H. unfold detectHFOs.
  change (Math_floor (sampleRate250 * (1 # 10))) with 25%Z.
  change (Math_floor (sampleRate250 * (5 # 100))) with 12%Z.
  destruct (scan_windows samples 25 12) as (ws & -> & Hin & _); [lia|].
  eexists. split; [reflexivity|].
  apply fold_left_invariant; [|assumption].
  intros a [i w] Hiw Ha. apply Hin in Hiw. destruct Hiw as (k & Hk & -> & HL & _).
  now apply hfo_window_inv.
Qed.

Lemma detectRhythmicDischarges_inv (samples : list Q) (evs : list Event) :
  events_inv (Z.of_nat (length samples)) evs ->
  exists evs', detectRhythmicDischarges samples evs sampleRate250 = Some evs'
               /\ events_inv (Z.of_nat (length samples)) evs'.
Proof.
  intros H. unfold detectRhythmicDischarges.
  change (Math_floor (sampleRate250 * 3)) with 750%Z.
  change (Math_floor (sampleRate250 * 1)) with 250%Z.
  destruct (scan_windows samples 750 250) as (ws & -> & Hin & _); [lia|].
  eexists. split; [reflexivity|].
  apply fold_left_invariant; [|assumption].
  intros a [i w] Hiw Ha. apply Hin in Hiw. destruct Hiw as (k & Hk & -> & HL & _).
  now apply rhythmic_window_inv.
Qed.

Lemma detectChannel_inv (random : Z -> Q) (ch : Channel) :
  events_inv (Z.of_nat (length (data ch))) (events ch) ->
  exists evs,
    detectChannel random ch = Some (mkChannel (name ch) (data ch) evs (voltage ch))
    /\ events_inv (Z.of_nat (length (data ch))) evs.
Proof.
  intros H. unfold detectChannel.
  destruct (detectHFOs_inv _ _ H) as (ev1 & -> & H1).
  rewrite detectIEDs_250.
  destruct (detectRhythmicDischarges_inv _ _ H1) as (ev3 & -> & H3).
  exists ev3. split; [reflexivity|assumption].
Qed.

Lemma window_duration (i W : Z) :
  ofZ (i + W) / sampleRate250 - ofZ i / sampleRate250 == ofZ W / sampleRate250.
Proof. unfold ofZ. rewrite inject_Z_plus. unfold sampleRate250. field. Qed.

Lemma window_inside (L W S k : Z) :
  (0 <= k)%Z -> (0 < S)%Z -> (0 < W)%Z -> (k * S + W < L)%Z ->
  0 <= ofZ (k * S) / sampleRate250
  /\ ofZ (k * S) / sampleRate250 < ofZ (k * S + W) / sampleRate250
  /\ ofZ (k * S + W) / sampleRate250 < ofZ L / sampleRate250.
Proof.
  intros Hk HS HW HL. unfold Qdiv. change (/ sampleRate250) with (1 # 250).
  assert (H0 : 0 <= ofZ (k * S)).
  { unfold ofZ. change 0 with (inject_Z 0). rewrite <- Zle_Qle. nia. }
  assert (H1 : ofZ (k * S) < ofZ (k * S + W)).
  { unfold ofZ. rewrite <- Zlt_Qlt. lia. }
  assert (H2 : ofZ (k * S + W) < ofZ L).
  { unfold ofZ. rewrite <- Zlt_Qlt. lia. }
  repeat split; lra.
Qed.

(** X3.  Run on a channel that has no event yet, the detectors terminate
    and leave name, samples and voltage scale as they were; every event
    they leave is one window of the HFO detector (100 ms, label HFO) or of
    the rhythmic detector (3 s, label Rhythmic), never an IED; it starts at
    or after 0, ends after it starts, and ends before the end of the
    recording. *)
Theorem detected_events_are_windows
        (random : Z -> Q) (nm : string) (samples : list Q) (v : Q) :
  exists evs,
    detectChannel random (mkChannel nm samples [] v)
    = Some (mkChannel nm samples evs v)
    /\ Forall (fun e =>
                 ((type e = HFO_label /\ end_ e - start e == 1 # 10)
                  \/ (type e = Rhythmic_label /\ end_ e - start e == 3))
                 /\ 0 <= start e /\ start e < end_ e
                 /\ end_ e < ofNat (length samples) / sampleRate250)
              evs.
Proof.
  destruct (detectChannel_inv random (mkChannel nm samples [] v))
    as (evs & Hdet & Hall & _).
  - split; constructor.
  - cbn [name data voltage events] in *. exists evs. split; [exact Hdet|].
    eapply Forall_impl; [|exact Hall]. intros e [He | He];
      destruct He as (k & Hk & HL & Hs & He & Hty); rewrite Hs, He.
    + destruct (window_inside _ 25 12 k Hk eq_refl eq_refl HL) as (A & B & C).
      split; [|repeat split; assumption].
      left. split; [assumption|]. rewrite window_duration. reflexivity.
    + destruct (window_inside _ 750 250 k Hk eq_refl eq_refl HL) as (A & B & C).
      split; [|repeat split; assumption].
      right. split; [assumption|]. rewrite window_duration. reflexivity.
Qed.

Lemma same_type_disjoint (L : Z) (a b : Event) :
  detector_event L a -> detector_event L b -> clear_of a b ->
  type a = type b -> ~ intersects a b.
Proof.
  intros Ha Hb [Hc1 Hc2] Hty [Hi1 Hi2].
  assert (Hd : end_ a - start a == end_ b - start b /\ start a < end_ a).
  { destruct Ha as [Ha | Ha], Hb as [Hb | Hb];
      destruct Ha as (ka & Hka & HLa & Hsa & Hea & Hta);
      destruct Hb as (kb & Hkb & HLb & Hsb & Heb & Htb);
      try (rewrite Hta, Htb in Hty; discriminate);
      rewrite Hsa, Hea, Hsb, Heb, !window_duration; split; try reflexivity.
    - apply (window_inside _ 25 12 ka Hka eq_refl eq_refl HLa).
    - apply (window_inside _ 750 250 ka Hka eq_refl eq_refl HLa). }
  destruct Hd as [Hd Hpos].
  destruct (Qlt_le_dec (start b) (start a)) as [Hlt | Hle].
  - apply Hc2. split; [assumption|lra].
  - apply Hc1. split; assumption.
Qed.

(** X4.  Among the events the detectors leave on a channel that had none,
    neither end of a later event lies within an earlier event, and two
    events of the same type never intersect (inclusive bounds). *)
Theorem detected_events_of_one_type_are_disjoint
        (random : Z -> Q) (nm : string) (samples : list Q) (v : Q) :
  exists evs,
    detectChannel random (mkChannel nm samples [] v)
    = Some (mkChannel nm samples evs v)
    /\ ForallOrdPairs clear_of evs
    /\ ForallOrdPairs (fun a b => type a = type b -> ~ intersects a b) evs.
Proof.
  destruct (detectChannel_inv random (mkChannel nm samples [] v))
    as (evs & Hdet & Hall & Hpairs).
  - split; constructor.
  - cbn [name data voltage events] in *. exists evs.
    split; [exact Hdet|]. split; [exact Hpairs|].
    eapply ForallOrdPairs_refine; [|exact Hall|exact Hpairs].
    intros a b Ha Hb Hc Hty. eapply same_type_disjoint; eassumption.
Qed.

(* ================================================================= *)
(** ** The sliding-window loop, window by window *)

Lemma slice_length (l : list Q) (i W : Z) :
  (0 <= i)%Z -> (0 <= W)%Z -> (i + W <= Z.of_nat (length l))%Z ->
  length (slice l i (i + W)) = Z.to_nat W.
Proof.
  intros Hi HW HL. unfold slice.
  destruct (Z.ltb_spec (i + W) 0); [lia|]. destruct (Z.ltb_spec i 0); [lia|].
  rewrite length_firstn, length_skipn. lia.
Qed.

Lemma scan_loop_list (samples : list Q) (W S : Z) :
  (0 < S)%Z ->
  forall (fuel : nat) (i : Z),
    (Z.of_nat (length samples) - W - i <= Z.of_nat fuel)%Z ->
    scan_loop fuel samples W S i =
    Some (map (fun n => window_at samples W (i + Z.of_nat n * S))
              (seq 0 (Z.to_nat ((Z.of_nat (length samples) - W - i + S - 1) / S)))).
Proof.
  intros HS. induction fuel as [|fuel IH]; intros i Hfuel; cbn [scan_loop];
    destruct (Z.ltb_spec i (Z.of_nat (length samples) - W)) as [Hlt | Hge];
    try lia.
  - assert (Hdiv : ((Z.of_nat (length samples) - W - i + S - 1) / S < 1)%Z)
      by (apply Z.div_lt_upper_bound; lia).
    assert (Hz : Z.to_nat ((Z.of_nat (length samples) - W - i + S - 1) / S) = O) by lia.
    rewrite Hz. reflexivity.
  - rewrite IH by lia. cbn [option_map]. f_equal.
    replace (Z.of_nat (length samples) - W - i + S - 1)%Z
      with ((Z.of_nat (length samples) - W - (i + S) + S - 1) + 1 * S)%Z by lia.
    rewrite Z.div_add by lia.
    assert (0 <= (Z.of_nat (length samples) - W - (i + S) + S - 1) / S)%Z
      by (apply Z.div_pos; lia).
    replace (Z.to_nat ((Z.of_nat (length samples) - W - (i + S) + S - 1) / S + 1))
      with (Datatypes.S (Z.to_nat ((Z.of_nat (length samples) - W - (i + S) + S - 1) / S)))
      by lia.
    cbn [seq map]. f_equal.
    + unfold window_at. replace (i + Z.of_nat 0 * S)%Z with i by lia. reflexivity.
    + rewrite <- seq_shift, map_map. apply map_ext. intros n.
      f_equal. lia.
  - assert (Hdiv : ((Z.of_nat (length samples) - W - i + S - 1) / S < 1)%Z)
      by (apply Z.div_lt_upper_bound; lia).
    assert (Hz : Z.to_nat ((Z.of_nat (length samples) - W - i + S - 1) / S) = O) by lia.
    rewrite Hz. reflexivity.
Qed.

(** X5.  With a positive step and a window length [W >= 0] the loop of a
    detector terminates; over [L] samples it visits
    [ceil((L - W) / S)] windows (none when [L <= W]), the [n]-th at
    offset [n * S], each holding exactly [W] samples. *)
Theorem scan_visits_full_windows (samples : list Q) (W S : Z) :
  (0 < S)%Z -> (0 <= W)%Z ->
  exists ws,
    scan samples W S = Some ws
    /\ ws = map (fun n => window_at samples W (Z.of_nat n * S))
                (seq 0 (Z.to_nat ((Z.of_nat (length samples) - W + S - 1) / S)))
    /\ Forall (fun iw => length (snd iw) = Z.to_nat W) ws.
Proof.
  intros HS HW. eexists. split; [|split; [reflexivity|]].
  - unfold scan. rewrite (scan_loop_list samples W S HS) by lia.
    rewrite Z.sub_0_r. reflexivity.
  - apply Forall_forall. intros iw Hin. apply in_map_iff in Hin.
    destruct Hin as (n & <- & Hn). apply in_seq in Hn. cbn [window_at snd].
    apply slice_length; [lia|assumption|].
    assert (Hlt : (Z.of_nat n < (Z.of_nat (length samples) - W + S - 1) / S)%Z) by lia.
    assert (Hmul : (S * ((Z.of_nat (length samples) - W + S - 1) / S)
                    <= Z.of_nat (length samples) - W + S - 1)%Z)
      by (apply Z.mul_div_le; lia).
    nia.
Qed.

(** Ten samples, windows of 4 every 3: offsets 0 and 3. *)
Lemma scan_visits_full_windows_witness :
  exists ws,
    scan (repeat 0 10) 4 3 = Some ws
    /\ ws = map (fun n => window_at (repeat 0 10) 4 (Z.of_nat n * 3)) (seq 0 2)
    /\ Forall (fun iw => length (snd iw) = 4%nat) ws.
Proof. apply (scan_visits_full_windows (repeat 0 10) 4 3); lia. Defined.

Lemma scan_loop_diverges (samples : list Q) (W S : Z) :
  (S <= 0)%Z ->
  forall (fuel : nat) (i : Z),
    (i < Z.of_nat (length samples) - W)%Z ->
    scan_loop fuel samples W S i = None.
Proof.
  intros HS. induction fuel as [|fuel IH]; intros i Hi; cbn [scan_loop];
    destruct (Z.ltb_spec i (Z.of_nat (length samples) - W)); try lia.
  - reflexivity.
  - rewrite IH by lia. reflexivity.
Qed.

Lemma small_rate_no_step (sampleRate : Q) :
  sampleRate < 20 -> (Math_floor (sampleRate * (5 # 100)) <= 0)%Z.
Proof.
  intros H. unfold Math_floor.
  pose proof (Qfloor_le (sampleRate * (5 # 100))) as Hfl.
  assert (Hlt : inject_Z (Qfloor (sampleRate * (5 # 100))) < inject_Z 1).
  { eapply Qle_lt_trans; [exact Hfl|]. change (inject_Z 1) with 1. lra. }
  rewrite <- Zlt_Qlt in Hlt. lia.
Qed.

(** X6.  With a step of zero or less and more samples than one window
    holds, the loop of a detector never ends, however many iterations it
    is given; so [detectHFOs] does not return for a sampling rate below
    20 Hz (its step is then [floor(0.05 * rate) <= 0]) on samples longer
    than its window. *)
Theorem detectors_never_end_without_step (samples : list Q) :
  (forall W S,
      (S <= 0)%Z -> (W < Z.of_nat (length samples))%Z ->
      forall fuel, scan_loop fuel samples W S 0 = None)
  /\ (forall evs sampleRate,
         sampleRate < 20 ->
         (Math_floor (sampleRate * (1 # 10)) < Z.of_nat (length samples))%Z ->
         detectHFOs samples evs sampleRate = None).
Proof.
  split.
  - intros W S HS HW fuel. apply scan_loop_diverges; lia.
  - intros evs sampleRate Hrate HW. unfold detectHFOs, scan.
    rewrite scan_loop_diverges; [reflexivity| |lia].
    now apply small_rate_no_step.
Qed.

(** At 10 Hz the window is one sample and the step is zero. *)
Lemma detectors_never_end_without_step_witness :
  detectHFOs [1; 2; 3] [] 10 = None.
Proof.
  apply (proj2 (detectors_never_end_without_step [1; 2; 3])).
  - reflexivity.
  - reflexivity.
Defined.

(* ================================================================= *)
(** ** Clusters as a partition of the pool *)

Lemma greedy_nonempty (l : list PooledEvent) :
  forall (cur : list PooledEvent) (cStart cEnd : Q),
    cur <> [] ->
    Forall (fun c => cluster_events c <> []) (greedy cur cStart cEnd l).
Proof.
  induction l as [|ev rest IH]; intros cur cStart cEnd Hcur; cbn [greedy].
  - constructor; [exact Hcur|constructor].
  - destruct (leb (start (event ev)) (cEnd + 10)).
    + apply IH. now destruct cur.
    + constructor; [exact Hcur|]. apply IH. discriminate.
Qed.

Lemma greedy_starts_ge (lo : Q) (l : list PooledEvent) :
  forall (cur : list PooledEvent) (cStart cEnd : Q),
    lo <= cStart ->
    (forall e, In e l -> lo <= start (event e)) ->
    Forall (fun c => lo <= cluster_start c) (greedy cur cStart cEnd l).
Proof.
  induction l as [|ev rest IH]; intros cur cStart cEnd Hlo Hl; cbn [greedy].
  - constructor; [exact Hlo|constructor].
  - destruct (leb (start (event ev)) (cEnd + 10)).
    + apply IH; [assumption|]. intros e He. apply Hl. now right.
    + constructor; [exact Hlo|]. apply IH.
      * apply Hl. now left.
      * intros e He. apply Hl. now right.
Qed.

Lemma greedy_gap (l : list PooledEvent) :
  StronglySorted start_le l ->
  forall (cur : list PooledEvent) (cStart cEnd : Q),
    StronglySorted cluster_gap (greedy cur cStart cEnd l).
Proof.
  induction 1 as [|ev rest Hs IH Hall]; intros cur cStart cEnd; cbn [greedy].
  - repeat constructor.
  - destruct (leb (start (event ev)) (cEnd + 10)) eqn:E; [apply IH|].
    apply leb_false_iff in E. constructor; [apply IH|].
    eapply Forall_impl;
      [|apply (greedy_starts_ge (start (event ev)) rest [ev] _ _ (Qle_refl _))].
    + intros c Hc. unfold cluster_gap. cbn [cluster_end]. cbn beta in Hc. lra.
    + rewrite Forall_forall in Hall. exact Hall.
Qed.

Lemma clusterEvents_gap (l : list PooledEvent) :
  StronglySorted start_le l -> StronglySorted cluster_gap (clusterEvents l).
Proof.
  intros Hs. rewrite clusterEvents_greedy. destruct l as [|ev rest]; [constructor|].
  cbn [greedyClusters]. apply greedy_gap. now inversion Hs.
Qed.

Lemma StronglySorted_filter {A : Type} (R : A -> A -> Prop) (f : A -> bool)
      (l : list A) :
  StronglySorted R l -> StronglySorted R (filter f l).
Proof.
  induction 1 as [|a l Hs IH Hall]; cbn [filter]; [constructor|].
  destruct (f a); [|assumption].
  constructor; [assumption|].
  rewrite Forall_forall in *. intros x Hx. apply Hall.
  now apply filter_In in Hx.
Qed.

Lemma mapRegions_core (involvement : nat -> num) (random : nat -> Q)
      (cs : list Cluster) :
  forall k, map region_core (mapRegions involvement random k cs)
            = map cluster_core cs.
Proof.
  induction cs as [|c cs IH]; intros k; cbn [mapRegions map]; [reflexivity|].
  now rewrite IH.
Qed.

Lemma regions_core (random : nat -> Q) (chs : list Channel) :
  Permutation (map region_core (identifyIctalRegions random chs))
              (map cluster_core (survivors chs)).
Proof.
  unfold identifyIctalRegions, regionsOf.
  rewrite <- (mapRegions_core
                (fun size => ndiv (ofNat size) (ofNat (length chs)))
                random (survivors chs) 0).
  apply Permutation_map, sort_by_perm.
Qed.

Lemma survivors_count (cs : list Cluster) :
  (3 * length (filter (fun c => 3 <=? length (cluster_events c)) cs)
   <= length (concat (map cluster_events cs)))%nat.
Proof.
  induction cs as [|c cs IH]; cbn [filter map concat]; [cbn; lia|].
  rewrite length_app.
  destruct (Nat.leb_spec 3 (length (cluster_events c))); cbn [length]; lia.
Qed.

(** X7.  The clusters partition the pooled events: their members, taken
    cluster after cluster, are the pool sorted by start time, so every
    event of every channel lies in exactly one cluster; and no cluster is
    empty. *)
Theorem clusters_partition_the_pool (chs : list Channel) :
  let cs := clusterEvents (sortEvents (collectEvents chs)) in
  concat (map cluster_events cs) = sortEvents (collectEvents chs)
  /\ Permutation (concat (map cluster_events cs)) (collectEvents chs)
  /\ Forall (fun c => cluster_events c <> []) cs.
Proof.
  intros cs. unfold cs. split; [apply clusterEvents_concat|]. split.
  - rewrite clusterEvents_concat. apply sortEvents_perm.
  - rewrite clusterEvents_greedy.
    destruct (sortEvents (collectEvents chs)) as [|ev rest]; [constructor|].
    cbn [greedyClusters]. apply greedy_nonempty. discriminate.
Qed.

(** X8.  Clusters follow one another more than 10 s apart: each cluster
    starts more than 10 s after the end of every earlier one.  The same
    holds of the clusters that become regions, whose spans are the spans
    of the emitted regions; so emitted regions never intersect. *)
Theorem regions_are_more_than_10s_apart (random : nat -> Q) (chs : list Channel) :
  StronglySorted cluster_gap (clusterEvents (sortEvents (collectEvents chs)))
  /\ StronglySorted cluster_gap (survivors chs)
  /\ Permutation
       (map (fun r => (region_start r, region_end r))
            (identifyIctalRegions random chs))
       (map (fun c => (cluster_start c, cluster_end c)) (survivors chs)).
Proof.
  assert (H : StronglySorted cluster_gap
                (clusterEvents (sortEvents (collectEvents chs))))
    by apply clusterEvents_gap, sortEvents_sorted.
  split; [exact H|]. split; [now apply StronglySorted_filter|].
  pose proof (regions_core random chs) as Hp.
  apply (Permutation_map (fun x => (fst (fst (fst (fst x))), snd (fst (fst (fst x))))))
    in Hp.
  rewrite !map_map in Hp. exact Hp.
Qed.

(** X9.  A recording with [n] pooled events yields at most [n / 3]
    regions: one region per cluster of three events or more. *)
Theorem at_most_one_region_per_three_events
        (random : nat -> Q) (chs : list Channel) :
  length (identifyIctalRegions random chs) = length (survivors chs)
  /\ (3 * length (identifyIctalRegions random chs)
      <= length (collectEvents chs))%nat.
Proof.
  assert (Hlen : length (identifyIctalRegions random chs) = length (survivors chs)).
  { pose proof (Permutation_length (regions_core random chs)) as H.
    now rewrite !length_map in H. }
  split; [exact Hlen|]. rewrite Hlen. unfold survivors.
  eapply Nat.le_trans; [apply survivors_count|].
  rewrite clusterEvents_concat.
  now rewrite (Permutation_length (sortEvents_perm _)).
Qed.

(** X10.  The random draws only decide the confidence and the order of
    the regions: start, end, channels, event counts and severity of the
    emitted regions are those of the surviving clusters, whatever is
    drawn. *)
Theorem regions_do_not_depend_on_the_draws
        (random random' : nat -> Q) (chs : list Channel) :
  Permutation (map region_core (identifyIctalRegions random chs))
              (map cluster_core (survivors chs))
  /\ Permutation (map region_core (identifyIctalRegions random chs))
                 (map region_core (identifyIctalRegions random' chs)).
Proof.
  split; [apply regions_core|].
  rewrite (regions_core random chs). symmetry. apply regions_core.
Qed.

(* ================================================================= *)
(** ** The order of the emitted regions *)

Lemma insert_by_sorted {A : Type} (gt : A -> A -> bool) (P : A -> Prop) :
  (forall a b, P a -> P b -> gt a b = true -> gt b a = false) ->
  (forall a b c, P a -> P b -> P c ->
                 gt a b = false -> gt b c = false -> gt a c = false) ->
  forall (x : A) (l : list A),
    P x -> Forall P l ->
    StronglySorted (fun a b => gt a b = false) l ->
    StronglySorted (fun a b => gt a b = false) (insert_by gt x l).
Proof.
  intros Hanti Htrans x l Px HP Hs. induction Hs as [|y l Hs IH Hall];
    cbn [insert_by].
  - repeat constructor.
  - inversion HP as [|? ? Py Pl]; subst.
    destruct (gt x y) eqn:E.
    + constructor; [now apply IH|].
      eapply Permutation_Forall; [symmetry; apply insert_by_perm|].
      constructor; [now apply Hanti|assumption].
    + constructor; [now constructor|].
      constructor; [assumption|].
      rewrite Forall_forall in *. intros z Hz.
      apply (Htrans x y z); auto.
Qed.

Lemma sort_by_sorted {A : Type} (gt : A -> A -> bool) (P : A -> Prop) :
  (forall a b, P a -> P b -> gt a b = true -> gt b a = false) ->
  (forall a b c, P a -> P b -> P c ->
                 gt a b = false -> gt b c = false -> gt a c = false) ->
  forall l, Forall P l ->
            StronglySorted (fun a b => gt a b = false) (sort_by gt l).
Proof.
  intros Hanti Htrans l HP. induction HP as [|x l Px Pl IH];
    cbn [sort_by fold_right]; [constructor|].
  apply (insert_by_sorted gt P Hanti Htrans); [assumption| |exact IH].
  eapply Permutation_Forall; [symmetry; apply sort_by_perm|assumption].
Qed.

Lemma StronglySorted_refine {A : Type} (P : A -> Prop) (R R' : A -> A -> Prop)
      (l : list A) :
  (forall a b, P a -> P b -> R a b -> R' a b) ->
  Forall P l -> StronglySorted R l -> StronglySorted R' l.
Proof.
  intros Himp HP HR. induction HR as [|a l Hs IH Hall]; [constructor|].
  inversion HP as [|? ? Pa Pl]; subst. constructor; [now apply IH|].
  rewrite Forall_forall in *. intros b Hb. apply Himp; auto.
Qed.

Lemma severityOrder_inj (a b : Severity) :
  severityOrder a = severityOrder b -> a = b.
Proof. destruct a, b; cbn; congruence. Qed.

(** The comparator of the last [.sort] on regions with finite confidence. *)
Lemma region_gt_spec (a b : Region) (qa qb : Q) :
  confidence a = Fin qa -> confidence b = Fin qb ->
  (region_gt a b = true <->
   (severityOrder (severity b) < severityOrder (severity a))%Z
   \/ (severityOrder (severity a) = severityOrder (severity b) /\ qa < qb)).
Proof.
  intros Ha Hb. unfold region_gt, severity_eqb. rewrite Ha, Hb.
  destruct (Z.eqb_spec (severityOrder (severity a)) (severityOrder (severity b)))
    as [Heq | Hne]; cbn [negb nsub nneg nadd ngtb].
  - rewrite ltb_iff. split.
    + intros H. right. split; [assumption|lra].
    + intros [H | [_ H]]; [lia|lra].
  - rewrite Z.ltb_lt. split.
    + intros H. left. lia.
    + intros [H | [H _]]; lia.
Qed.

Lemma region_gt_false_spec (a b : Region) (qa qb : Q) :
  confidence a = Fin qa -> confidence b = Fin qb ->
  (region_gt a b = false <->
   (severityOrder (severity a) < severityOrder (severity b))%Z
   \/ (severityOrder (severity a) = severityOrder (severity b) /\ qb <= qa)).
Proof.
  intros Ha Hb. pose proof (region_gt_spec a b qa qb Ha Hb) as H.
  destruct (region_gt a b).
  - split; [discriminate|]. intros [H1 | [H1 H2]]; exfalso.
    + destruct (proj1 H eq_refl) as [H3 | [H3 _]]; lia.
    + destruct (proj1 H eq_refl) as [H3 | [_ H3]]; [lia|lra].
  - split; [|reflexivity]. intros _.
    destruct (Z.lt_trichotomy (severityOrder (severity a)) (severityOrder (severity b)))
      as [Hlt | [Heq | Hgt]].
    + now left.
    + right. split; [assumption|].
      destruct (Qlt_le_dec qa qb) as [Hq | Hq]; [|assumption].
      assert (true = false) by (symmetry; apply H; right; split; assumption).
      discriminate.
    + assert (true = false) by (symmetry; apply H; left; lia). discriminate.
Qed.

Lemma mapRegions_finite (chs : list Channel) (random : nat -> Q)
      (cs : list Cluster) :
  well_formed chs ->
  (forall c, In c cs -> In c (survivors chs)) ->
  forall k,
    Forall (fun r => exists q, confidence r = Fin q)
           (mapRegions (fun size => ndiv (ofNat size) (ofNat (length chs)))
                       random k cs).
Proof.
  intros Hwf. induction cs as [|c cs IH]; intros Hcs k; cbn [mapRegions];
    constructor.
  - assert (Hc : In c (survivors chs)) by (apply Hcs; now left).
    cbn [regionOf confidence].
    rewrite (confidenceOf_finite _ _ _ _ (survivors_duration_pos chs c Hwf Hc)
                                 (survivors_channels_pos chs c Hc)).
    eexists. reflexivity.
  - apply IH. intros c' Hc'. apply Hcs. now right.
Qed.

(** X11.  For events with [end > start] the regions come out ordered:
    every region precedes all regions of lower severity, and among regions
    of equal severity the confidence never increases along the list. *)
Theorem regions_are_ordered (random : nat -> Q) (chs : list Channel) :
  well_formed chs ->
  StronglySorted region_before (identifyIctalRegions random chs).
Proof.
  intros Hwf.
  pose proof (mapRegions_finite chs random (survivors chs) Hwf (fun c H => H) 0)
    as Hfin.
  set (P := fun r : Region => exists q, confidence r = Fin q) in *.
  apply (StronglySorted_refine P (fun a b => region_gt a b = false)).
  - intros a b [qa Ha] [qb Hb] H.
    apply (region_gt_false_spec a b qa qb Ha Hb) in H.
    destruct H as [H | [H1 H2]]; [now left|right].
    split; [now apply severityOrder_inj|]. exists qa, qb. auto.
  - eapply Permutation_Forall; [symmetry; apply sort_by_perm|exact Hfin].
  - apply (sort_by_sorted region_gt P); [| |exact Hfin].
    + intros a b [qa Ha] [qb Hb] H.
      apply (region_gt_spec a b qa qb Ha Hb) in H.
      apply (region_gt_false_spec b a qb qa Hb Ha).
      destruct H as [H | [H1 H2]]; [now left|right]. split; [lia|lra].
    + intros a b c [qa Ha] [qb Hb] [qc Hc] H1 H2.
      apply (region_gt_false_spec a b qa qb Ha Hb) in H1.
      apply (region_gt_false_spec b c qb qc Hb Hc) in H2.
      apply (region_gt_false_spec a c qa qc Ha Hc).
      destruct H1 as [H1 | [H1 H1']], H2 as [H2 | [H2 H2']].
      * left; lia.
      * left; lia.
      * left; lia.
      * right. split; [lia|lra].
Qed.

(** Two clusters 20 s apart: the one with an HFO majority comes first. *)
Lemma regions_are_ordered_witness :
  StronglySorted
    region_before
    (identifyIctalRegions
       (fun _ => 1 # 2)
       [mkChannel "C4" []
                  [mkEvent 1 2 IED_label 60 10; mkEvent 2 3 IED_label 60 10;
                   mkEvent 3 4 IED_label 60 10; mkEvent 30 31 HFO_label 30 120;
                   mkEvent 31 32 HFO_label 30 120; mkEvent 32 33 HFO_label 30 120]
                  (388 # 10)]).
Proof.
  apply regions_are_ordered.
  intros e He. vm_compute in He.
  destruct He as [<- | [<- | [<- | [<- | [<- | [<- | []]]]]]]; vm_compute; reflexivity.
Defined.

(* ================================================================= *)
(** ** The two copies of the clusterer, and the channels of a region *)

(** X12.  The panel's copy of [identifyIctalRegions] returns what the
    processor's returns on the same channels and draws: its guard
    [channels.length || 1] only differs on a recording without channels,
    which has no region. *)
Theorem panel_and_processor_agree (random : nat -> Q) (chs : list Channel) :
  panel_identifyIctalRegions random (mkEegData (Some chs))
  = identifyIctalRegions random chs.
Proof.
  unfold panel_identifyIctalRegions, identifyIctalRegions. cbn [eeg_channels].
  destruct chs as [|ch chs]; reflexivity.
Qed.

(** X13.  The channels of an emitted region are distinct names of
    channels of the recording, each with a member event of the region;
    there is at least one and at most as many as the recording has
    channels, so the channel involvement lies in (0, 1]. *)
Theorem region_channels_are_channels_of_the_recording
        (random : nat -> Q) (chs : list Channel) (r : Region) :
  In r (identifyIctalRegions random chs) ->
  NoDup (channels r)
  /\ (forall x, In x (channels r) -> exists ch, In ch chs /\ name ch = x)
  /\ (1 <= length (channels r) <= length chs)%nat.
Proof.
  intros Hr. apply regionsOf_In in Hr. destruct Hr as (c & k & Hc & ->).
  cbn [regionOf channels].
  destruct (channelSet_spec (cluster_events c)) as [Hnd Hset].
  assert (Hname : forall x, In x (channelSet (cluster_events c)) ->
                            In x (map name chs)).
  { intros x Hx. apply Hset in Hx. destruct Hx as (e & He & <-).
    pose proof (survivors_member chs c e Hc He) as Hp.
    apply collectEvents_In in Hp. destruct Hp as (ch & Hch & _ & ->).
    now apply in_map. }
  split; [exact Hnd|]. split; [|split].
  - intros x Hx. apply Hname, in_map_iff in Hx.
    destruct Hx as (ch & Hn & Hch). now exists ch.
  - apply survivors_In in Hc. destruct Hc as [_ Hlen].
    destruct (cluster_events c) as [|e rest] eqn:E; [cbn in Hlen; lia|].
    assert (Hin : In (channel e) (channelSet (e :: rest))).
    { apply Hset. exists e. split; [now left|reflexivity]. }
    destruct (channelSet (e :: rest)); [destruct Hin|cbn; lia].
  - rewrite <- (length_map name chs). now apply NoDup_incl_length.
Qed.

(** The region of [three_events] involves both channels. *)
Lemma region_channels_are_channels_of_the_recording_witness :
  (1 <= length (channels (nth 0 (identifyIctalRegions (fun _ => 0%Q) three_events)
                              (mkRegion 0%Q 0%Q [] NaN (mkEventCount 0 0 0) low)))
   <= 2)%nat.
Proof.
  refine (proj2 (proj2 (region_channels_are_channels_of_the_recording
                          (fun _ => 0) three_events _ _))).
  vm_compute. left. reflexivity.
Defined.

(* ================================================================= *)
(** ** The summary: percentages, listed events, risk *)

Lemma ofNat_plus (a b : nat) : ofNat (a + b) == ofNat a + ofNat b.
Proof. unfold ofNat. rewrite Nat2Z.inj_add, inject_Z_plus. reflexivity. Qed.

Lemma ofNat_le (a b : nat) : (a <= b)%nat -> ofNat a <= ofNat b.
Proof. intros H. unfold ofNat. rewrite <- Zle_Qle. lia. Qed.

(** A result between two doubles stays between them when rounded. *)
Lemma rnd_between (q lo hi : Q) :
  is_double lo = true -> is_double hi = true ->
  lo <= q -> q <= hi -> lo <= rnd q /\ rnd q <= hi.
Proof.
  intros Hlo Hhi H1 H2.
  pose proof (rnd_mono _ _ H1) as A. pose proof (rnd_mono _ _ H2) as B.
  rewrite (is_double_rnd lo Hlo) in A. rewrite (is_double_rnd hi Hhi) in B. split; assumption.
Qed.

Lemma percentage_bounds (n total : nat) :
  (n <= total)%nat -> 0 <= percentage n total /\ percentage n total <= 100.
Proof.
  intros Hle. unfold percentage. destruct (Nat.ltb_spec 0 total) as [Hpos | Hz].
  - pose proof (ofNat_pos total Hpos) as Ht. pose proof (ofNat_le n total Hle) as Hn.
    pose proof (Qdiv_nonneg _ _ (ofNat_nonneg n) Ht) as H0.
    assert (H1 : ofNat n / ofNat total <= 1)
      by (apply Qle_shift_div_r; [assumption|lra]).
    destruct (rnd_between (ofNat n / ofNat total) 0 1 eq_refl eq_refl H0 H1) as [A B].
    apply (rnd_between _ 0 100 eq_refl eq_refl); lra.
  - split; [apply Qle_refl|discriminate].
Qed.

Lemma percentage_mono (n m total : nat) :
  (n <= m)%nat -> percentage n total <= percentage m total.
Proof.
  intros Hle. unfold percentage. destruct (Nat.ltb_spec 0 total) as [Hpos | Hz].
  - pose proof (ofNat_pos total Hpos) as Ht. pose proof (ofNat_le n m Hle) as Hn.
    apply rnd_mono. apply Qmult_le_compat_r; [|discriminate].
    apply rnd_mono. unfold Qdiv. apply Qmult_le_compat_r; [assumption|].
    apply Qlt_le_weak, Qinv_lt_0_compat, Ht.
  - apply Qle_refl.
Qed.

Lemma percentage_none (total : nat) : percentage 0 total == 0.
Proof.
  unfold percentage. destruct (0 <? total)%nat; [|reflexivity].
  assert (E : ofNat 0 / ofNat total == 0) by (unfold Qdiv; change (ofNat 0) with 0; ring).
  assert (E' : rnd (ofNat 0 / ofNat total) * 100 == 0).
  { rewrite (rnd_comp _ _ E). reflexivity. }
  rewrite (rnd_comp _ _ E'). reflexivity.
Qed.

Lemma percentage_all (total : nat) : (0 < total)%nat -> percentage total total == 100.
Proof.
  intros Hpos. unfold percentage. destruct (Nat.ltb_spec 0 total) as [_ | Hz]; [|lia].
  pose proof (ofNat_pos total Hpos) as Ht.
  assert (E : ofNat total / ofNat total == 1) by (field; lra).
  assert (E' : rnd (ofNat total / ofNat total) * 100 == 100).
  { rewrite (rnd_comp _ _ E). vm_compute. reflexivity. }
  rewrite (rnd_comp _ _ E'). vm_compute. reflexivity.
Qed.

(** X14.  The total of the summary is the sum of the three counts.  The
    three percentages are 0 when no event has a recognised label;
    otherwise each lies between 0 and 100, is 0 for a count of 0 and 100
    for a count equal to the total, and a larger count never has the
    smaller percentage.  They are rounded shares and need not add up to
    100: for the counts 0, 1 and 2 the sum the doubles give is below
    100. *)
Theorem percentages_are_rounded_shares
        (random : nat -> nat -> nat -> Q) (jitter : nat -> Q) (chs : list Channel) :
  exists res,
    generateAnalysisResults random jitter (mkEegData (Some chs)) = Some res
    /\ count_total (patternCounts res)
       = (count_hfo (patternCounts res) + count_ied (patternCounts res)
          + count_rhythmic (patternCounts res))%nat
    /\ patternPercentages res
       = mkPercentages
           (percentage (count_hfo (patternCounts res)) (count_total (patternCounts res)))
           (percentage (count_ied (patternCounts res)) (count_total (patternCounts res)))
           (percentage (count_rhythmic (patternCounts res))
                       (count_total (patternCounts res)))
    /\ (count_total (patternCounts res) = 0%nat ->
        patternPercentages res = mkPercentages 0 0 0)
    /\ (0 <= pct_hfo (patternPercentages res) <= 100
        /\ 0 <= pct_ied (patternPercentages res) <= 100
        /\ 0 <= pct_rhythmic (patternPercentages res) <= 100)
    /\ (forall n m total : nat,
           (n <= m)%nat -> percentage n total <= percentage m total)
    /\ (forall total : nat,
           percentage 0 total == 0
           /\ ((0 < total)%nat -> percentage total total == 100))
    /\ rnd (rnd (percentage 0 3 + percentage 1 3) + percentage 2 3) < 100.
Proof.
  unfold generateAnalysisResults. cbn [eeg_channels]. eexists.
  split; [reflexivity|]. cbn [patternCounts patternPercentages].
  set (counts := countPatterns (flat_map events chs)).
  assert (Htot : count_total counts
                 = (count_hfo counts + count_ied counts + count_rhythmic counts)%nat)
    by reflexivity.
  cbn [pct_hfo pct_ied pct_rhythmic].
  split; [exact Htot|]. split; [reflexivity|]. split; [|split; [|split; [|split]]].
  - intros H0. unfold percentage. rewrite H0. reflexivity.
  - repeat split; apply percentage_bounds; lia.
  - apply percentage_mono.
  - intros total. split; [apply percentage_none|apply percentage_all].
  - vm_compute. reflexivity.
Qed.

Lemma featureEvents_from_features (random : nat -> nat -> Q) (ch : Channel)
      (evs : list Event) :
  forall k,
    map listed_features (featureEvents_from k random ch evs)
    = map (fun e => (type e, name ch, end_ e - start e)) evs.
Proof.
  induction evs as [|e evs IH]; intros k; cbn [featureEvents_from map];
    [reflexivity|].
  now rewrite IH.
Qed.

Lemma allEvents_from_features (random : nat -> nat -> nat -> Q)
      (chs : list Channel) :
  forall c,
    map listed_features (allEvents_from c random chs)
    = map pooled_features (collectEvents chs).
Proof.
  induction chs as [|ch chs IH]; intros c; cbn [allEvents_from]; [reflexivity|].
  unfold collectEvents. cbn [flat_map]. rewrite !map_app.
  rewrite featureEvents_from_features, map_map. f_equal. apply IH.
Qed.

Lemma count_label_le (k : nat) (evs : list Event) :
  (count_label k evs <= length evs)%nat.
Proof. unfold count_label. apply filter_length_le. Qed.

Lemma count_labels_le (evs : list Event) :
  (count_label 0 evs + count_label 1 evs + count_label 2 evs <= length evs)%nat.
Proof.
  unfold count_label. induction evs as [|e evs IH]; cbn [filter length]; [lia|].
  destruct (first_label (type e)) as [[|[|[|n]]]|]; cbn [Nat.eqb length]; lia.
Qed.

(** X15.  The panel lists every event of every channel once, in the order
    of the clusterer's pool, with its type, the name of its channel and
    its duration [end - start]; the total of the pattern counts never
    exceeds the number of listed events. *)
Theorem panel_lists_every_event
        (random : nat -> nat -> nat -> Q) (jitter : nat -> Q) (chs : list Channel) :
  exists res,
    generateAnalysisResults random jitter (mkEegData (Some chs)) = Some res
    /\ map listed_features (allEvents res) = map pooled_features (collectEvents chs)
    /\ length (allEvents res) = length (collectEvents chs)
    /\ (count_total (patternCounts res) <= length (allEvents res))%nat.
Proof.
  unfold generateAnalysisResults. cbn [eeg_channels]. eexists.
  split; [reflexivity|]. cbn [allEvents patternCounts].
  pose proof (allEvents_from_features random chs 0) as Hf.
  assert (Hlen : length (allEvents_from 0 random chs) = length (collectEvents chs)).
  { apply (f_equal (@length _)) in Hf. now rewrite !length_map in Hf. }
  split; [exact Hf|]. split; [exact Hlen|].
  rewrite Hlen.
  destruct (countType_fold (flat_map events chs) (mkEventCount 0 0 0))
    as (Hh & Hi & Hr).
  unfold countPatterns. cbn [count_total]. rewrite Hh, Hi, Hr. cbn [hfo ied rhythmic].
  eapply Nat.le_trans; [apply count_labels_le|].
  unfold collectEvents. rewrite !flat_map_concat_map, !length_concat, !map_map.
  apply Nat.eq_le_incl. f_equal. apply map_ext. intros ch. now rewrite length_map.
Qed.

Lemma normalized_50 (n : nat) :
  Math_min (ofNat n / 50) 1 == inject_Z (Z.min (Z.of_nat n) 50) * (1 # 50).
Proof.
  unfold Math_min, Qdiv. change (/ 50) with (1 # 50).
  destruct (leb (ofNat n * (1 # 50)) 1) eqn:E.
  - apply leb_iff in E.
    assert (H : ofNat n <= inject_Z 50) by (change (inject_Z 50) with 50; lra).
    unfold ofNat in H. rewrite <- Zle_Qle in H.
    rewrite Z.min_l by assumption. reflexivity.
  - apply leb_false_iff in E.
    assert (H : inject_Z 50 < ofNat n) by (change (inject_Z 50) with 50; lra).
    unfold ofNat in H. rewrite <- Zlt_Qlt in H.
    rewrite Z.min_r by lia. reflexivity.
Qed.

Lemma normalized_5 (n : nat) :
  Math_min (ofNat n / 5) 1 == inject_Z (Z.min (Z.of_nat n) 5) * (1 # 5).
Proof.
  unfold Math_min, Qdiv. change (/ 5) with (1 # 5).
  destruct (leb (ofNat n * (1 # 5)) 1) eqn:E.
  - apply leb_iff in E.
    assert (H : ofNat n <= inject_Z 5) by (change (inject_Z 5) with 5; lra).
    unfold ofNat in H. rewrite <- Zle_Qle in H.
    rewrite Z.min_l by assumption. reflexivity.
  - apply leb_false_iff in E.
    assert (H : inject_Z 5 < ofNat n) by (change (inject_Z 5) with 5; lra).
    unfold ofNat in H. rewrite <- Zlt_Qlt in H.
    rewrite Z.min_r by lia. reflexivity.
Qed.

Lemma Math_round_tenths (N : Z) :
  Math_round (inject_Z N * (1 # 10)) = ((N + 5) / 10)%Z.
Proof.
  unfold Math_round.
  assert (H : inject_Z N * (1 # 10) + (1 # 2) == (N + 5) # 10).
  { unfold Qeq, Qplus, Qmult, inject_Z. cbn [Qnum Qden]. lia. }
  rewrite H. reflexivity.
Qed.

Lemma riskScore_int (counts : PatternCounts) (regions : nat) :
  riskScore counts regions =
  risk_int (Z.of_nat (count_hfo counts)) (Z.of_nat (count_ied counts))
           (Z.of_nat (count_rhythmic counts)) (Z.of_nat regions).
Proof.
  unfold riskScore, risk_int. cbv zeta.
  rewrite <- Math_round_tenths. apply Math_round_comp.
  rewrite !normalized_50, normalized_5.
  rewrite !inject_Z_plus, !inject_Z_mult.
  change (inject_Z 8) with 8. change (inject_Z 6) with 6.
  change (inject_Z 2) with 2. change (inject_Z 40) with 40.
  ring.
Qed.

Lemma risk_int_mono (h i r g h' i' r' g' : Z) :
  (h <= h')%Z -> (i <= i')%Z -> (r <= r')%Z -> (g <= g')%Z ->
  (risk_int h i r g <= risk_int h' i' r' g')%Z.
Proof.
  intros. unfold risk_int. apply Z.div_le_mono; lia.
Qed.

(** X16.  The risk score is integer arithmetic in disguise:
    [(8 min(hfo, 50) + 6 min(ied, 50) + 2 min(rhythmic, 50)
      + 40 min(regions, 5) + 5) div 10].  It never decreases when a count
    grows, and it is 100 once there are 50 events of each type and 5
    regions. *)
Theorem risk_is_integer_arithmetic (counts : PatternCounts) (regions : nat) :
  riskScore counts regions =
  risk_int (Z.of_nat (count_hfo counts)) (Z.of_nat (count_ied counts))
           (Z.of_nat (count_rhythmic counts)) (Z.of_nat regions)
  /\ (forall counts' regions',
         (count_hfo counts <= count_hfo counts')%nat ->
         (count_ied counts <= count_ied counts')%nat ->
         (count_rhythmic counts <= count_rhythmic counts')%nat ->
         (regions <= regions')%nat ->
         (riskScore counts regions <= riskScore counts' regions')%Z)
  /\ ((50 <= count_hfo counts)%nat -> (50 <= count_ied counts)%nat ->
      (50 <= count_rhythmic counts)%nat -> (5 <= regions)%nat ->
      riskScore counts regions = 100%Z).
Proof.
  split; [apply riskScore_int|]. split.
  - intros counts' regions' Hh Hi Hr Hg. rewrite !riskScore_int.
    apply risk_int_mono; lia.
  - intros Hh Hi Hr Hg. rewrite riskScore_int. unfold risk_int.
    rewrite !Z.min_r by lia. reflexivity.
Qed.

(** Twelve HFOs, three IEDs, one rhythmic discharge and two regions score
    20; with fifty of everything the score is 100. *)
Lemma risk_is_integer_arithmetic_witness :
  (riskScore (mkCounts 12 3 1 16) 2 <= riskScore (mkCounts 50 50 50 150) 5)%Z
  /\ riskScore (mkCounts 50 50 50 150) 5 = 100%Z.
Proof.
  split.
  - apply (proj1 (proj2 (risk_is_integer_arithmetic (mkCounts 12 3 1 16) 2)));
      cbn; lia.
  - apply (proj2 (proj2 (risk_is_integer_arithmetic (mkCounts 50 50 50 150) 5)));
      cbn; lia.
Defined.

Lemma Math_round_ge (x : Q) (n : Z) : inject_Z n <= x -> (n <= Math_round x)%Z.
Proof.
  intros H. unfold Math_round.
  rewrite <- (Qfloor_Z n). apply Qfloor_resp_le. lra.
Qed.

Lemma Math_round_le (x : Q) (n : Z) : x <= inject_Z n -> (Math_round x <= n)%Z.
Proof.
  intros H. unfold Math_round.
  assert (Hlt : inject_Z (Qfloor (x + (1 # 2))) < inject_Z (n + 1)).
  { eapply Qle_lt_trans; [apply Qfloor_le|]. rewrite inject_Z_plus.
    change (inject_Z 1) with 1. lra. }
  rewrite <- Zlt_Qlt in Hlt. lia.
Qed.

(** [c + Math.random() * w] lies between the roundings of [c] and of
    [c + w]. *)
Lemma generated_value (c w r : Q) :
  is_double w = true -> 0 <= w -> 0 <= r -> r < 1 ->
  rnd c <= rnd (c + rnd (r * w)) /\ rnd (c + rnd (r * w)) <= rnd (c + w).
Proof.
  intros Dw Hw H0 H1.
  assert (A : 0 <= r * w) by (apply Qmult_le_0_compat; assumption).
  assert (B : r * w <= w).
  { rewrite <- (Qmult_1_l w) at 2. apply Qmult_le_compat_r; [lra|assumption]. }
  destruct (rnd_between (r * w) 0 w eq_refl Dw A B) as [A' B'].
  split; apply rnd_mono; lra.
Qed.

(** X17.  With draws of [Math.random()] in [[0, 1)], an event listed by
    the panel has a confidence between 70 and 100, and a frequency in the
    band of the first label its type contains: 80 to 150 Hz for HFO, 8 to
    20 Hz for IED, 1 to 5 Hz for Rhythmic, the upper end included since
    the sum is rounded, and 0 without a label; a nonzero amplitude is kept
    as it is. *)
Theorem listed_event_features (draw : nat -> Q) (ch : Channel) (e : Event) :
  (forall k, 0 <= draw k /\ draw k < 1) ->
  let f := featureEvent draw ch e in
  (70 <= f_confidence f <= 100)%Z
  /\ (match first_label (type e) with
      | Some 0%nat => 80 <= f_frequency f /\ f_frequency f <= 150
      | Some 1%nat => 8 <= f_frequency f /\ f_frequency f <= 20
      | Some _ => 1 <= f_frequency f /\ f_frequency f <= 5
      | None => f_frequency f = 0
      end)
  /\ (~ amplitude e == 0 -> f_amplitude f = amplitude e).
Proof.
  intros Hdraw f. unfold f, featureEvent. cbn [f_confidence f_frequency f_amplitude].
  pose proof (Hdraw 1%nat) as [H1 H1']. pose proof (Hdraw 2%nat) as [H2 H2'].
  split; [|split].
  - destruct (generated_value (double (7 # 10)) (double (3 # 10)) (draw 2%nat) eq_refl)
      as [A B]; [vm_compute; discriminate|assumption|assumption|].
    set (j := rnd (double (7 # 10) + rnd (draw 2%nat * double (3 # 10)))) in *.
    assert (A' : double (7 # 10) <= j).
    { eapply Qle_trans; [|exact A]. vm_compute. discriminate. }
    assert (B' : j <= 1).
    { eapply Qle_trans; [exact B|]. vm_compute. discriminate. }
    assert (L : rnd (double (7 # 10) * 100) <= rnd (j * 100))
      by (apply rnd_mono; lra).
    assert (U : rnd (j * 100) <= rnd (1 * 100)) by (apply rnd_mono; lra).
    assert (L70 : 70 <= rnd (double (7 # 10) * 100)) by (vm_compute; discriminate).
    assert (U100 : rnd (1 * 100) <= 100) by (vm_compute; discriminate).
    split; [apply Math_round_ge|apply Math_round_le];
      [change (inject_Z 70) with 70|change (inject_Z 100) with 100]; lra.
  - unfold first_label.
    destruct (includes (type e) "HFO").
    { destruct (generated_value 80 70 (draw 1%nat) eq_refl) as [A B];
        [discriminate|assumption|assumption|].
      split; [eapply Qle_trans; [|exact A]|eapply Qle_trans; [exact B|]];
        vm_compute; discriminate. }
    destruct (includes (type e) "IED").
    { destruct (generated_value 8 12 (draw 1%nat) eq_refl) as [A B];
        [discriminate|assumption|assumption|].
      split; [eapply Qle_trans; [|exact A]|eapply Qle_trans; [exact B|]];
        vm_compute; discriminate. }
    destruct (includes (type e) "Rhythmic"); [|reflexivity].
    destruct (generated_value 1 4 (draw 1%nat) eq_refl) as [A B];
      [discriminate|assumption|assumption|].
    split; [eapply Qle_trans; [|exact A]|eapply Qle_trans; [exact B|]];
      vm_compute; discriminate.
  - intros Hne. destruct (Qeq_bool (amplitude e) 0) eqn:E; [|reflexivity].
    apply Qeq_bool_iff in E. contradiction.
Qed.

(** An HFO of amplitude 30 with every draw at 1/2. *)
Lemma listed_event_features_witness :
  (70 <= f_confidence (featureEvent (fun _ => 1 # 2)
                                    (mkChannel "C4" [] [] (388 # 10))
                                    (mkEvent 1 2 HFO_label 30 120)) <= 100)%Z.
Proof.
  refine (proj1 (listed_event_features
                   (fun _ => 1 # 2) (mkChannel "C4" [] [] (388 # 10))
                   (mkEvent 1 2 HFO_label 30 120) _)).
  intros k. split; vm_compute; congruence.
Defined.

(** Two draws at which the rounding shows: the confidence of a draw of
    1/4 is 77, where the exact value 77.5 would round to 78; and a draw of
    [1 - 2^-52] gives an HFO the frequency 150. *)
Lemma rounded_features :
  f_confidence (featureEvent (fun _ => 1 # 4) (mkChannel "C4" [] [] (388 # 10))
                             (mkEvent 1 2 HFO_label 30 120)) = 77%Z
  /\ f_frequency (featureEvent (fun _ => 1 - pow2 (-52))
                               (mkChannel "C4" [] [] (388 # 10))
                               (mkEvent 1 2 HFO_label 30 120)) == 150.
Proof. split; vm_compute; reflexivity. Qed.

(* ================================================================= *)
(** ** formatTime *)

Lemma Qfloor_div60 (x : Q) : Qfloor (x / 60) = (Qfloor x / 60)%Z.
Proof.
  destruct x as [n d]. unfold Qdiv, Qmult, Qinv, Qfloor. cbn [Qnum Qden].
  rewrite Z.mul_1_r, Pos2Z.inj_mul. rewrite Z.div_div; lia.
Qed.

Lemma Qfloor_minus_Z (x : Q) (k : Z) : Qfloor (x - inject_Z k) = (Qfloor x - k)%Z.
Proof.
  destruct x as [n d]. unfold Qminus, Qplus, Qopp, inject_Z, Qfloor.
  cbn [Qnum Qden]. rewrite Pos.mul_1_r, Z.mul_1_r.
  replace (n + - k * Z.pos d)%Z with (n + (- k) * Z.pos d)%Z by lia.
  rewrite Z.div_add by lia. lia.
Qed.

Lemma floor_rem60 (x : Q) :
  0 <= x -> Math_floor (js_rem x 60) = (Qfloor x mod 60)%Z.
Proof.
  intros Hx. unfold Math_floor, js_rem, Math_trunc.
  assert (Hq : leb 0 (x / 60) = true).
  { apply leb_iff. unfold Qdiv. change (/ 60) with (1 # 60). lra. }
  rewrite Hq, Qfloor_div60.
  assert (He : 60 * ofZ (Qfloor x / 60) == inject_Z (60 * (Qfloor x / 60))).
  { unfold ofZ. rewrite inject_Z_mult. reflexivity. }
  rewrite He, Qfloor_minus_Z. rewrite Z.mod_eq by lia. reflexivity.
Qed.

Lemma two_digits (z : Z) :
  (0 <= z < 100)%Z -> String.length (padStart0 2 (decimal z)) = 2%nat.
Proof.
  intros H.
  assert (G : forall n, (n < 100)%nat ->
                        String.length (padStart0 2 (decimal (Z.of_nat n))) = 2%nat).
  { intros n Hn. do 100 (destruct n as [|n]; [reflexivity|]). lia. }
  rewrite <- (Z2Nat.id z) by lia. apply G. lia.
Qed.

Lemma length_append (s t : string) :
  String.length (s ++ t)%string = (String.length s + String.length t)%nat.
Proof. induction s as [|c s IH]; cbn; [reflexivity|now rewrite IH]. Qed.

(** *** The rounded quotient [seconds / 60] *)

(** Rounding moves a positive number up by half a unit of its last place
    at most. *)
Lemma rnd_pos_error_up (q : Q) :
  0 < q -> rnd_pos q <= q + pow2 (ulp_exponent q) * (1 # 2).
Proof.
  intros Hq. rewrite rnd_pos_eq. set (e := ulp_exponent q).
  pose proof (pow2_pos e) as He.
  destruct (round_even_error (q / pow2 e)) as [Hup _].
  assert (Hback : q / pow2 e * pow2 e == q) by (field; lra).
  assert (Hm : (inject_Z (round_even (q / pow2 e)) - q / pow2 e) * pow2 e
               <= (1 # 2) * pow2 e)
    by (apply Qmult_le_compat_r; lra).
  lra.
Qed.

Lemma rnd_of_positive (q : Q) : 0 < q -> rnd q = rnd_pos q.
Proof.
  intros Hq. unfold rnd.
  destruct (Qcompare_spec q 0) as [E | E | E]; [exfalso; lra|exfalso; lra|reflexivity].
Qed.

Lemma ilog2_lt (q : Q) (e : Z) : 0 < q -> q < pow2 e -> (ilog2 q < e)%Z.
Proof.
  intros Hq Hlt. destruct (ilog2_spec q Hq) as [L _].
  destruct (Z_lt_le_dec (ilog2 q) e) as [H | H]; [assumption|exfalso].
  pose proof (pow2_le e (ilog2 q) H). lra.
Qed.

Lemma ilog2_ge (q : Q) (e : Z) : pow2 e <= q -> (e <= ilog2 q)%Z.
Proof.
  intros Hle. pose proof (pow2_pos e) as He.
  destruct (ilog2_spec q ltac:(lra)) as [_ U].
  destruct (Z_le_gt_dec e (ilog2 q)) as [H | H]; [assumption|exfalso].
  pose proof (pow2_le (ilog2 q + 1) e ltac:(lia)). lra.
Qed.

(** A double [s] below a whole number [T] is at least one unit of its
    last place below it, when that unit is 1 at most. *)
Lemma double_below_whole (s : Q) (T : Z) :
  0 < s -> rnd s == s -> (ulp_exponent s <= 0)%Z -> s < inject_Z T ->
  s + pow2 (ulp_exponent s) <= inject_Z T.
Proof.
  intros Hs Hfix He Hlt. set (e := ulp_exponent s) in *.
  pose proof (pow2_pos e) as Hp.
  rewrite (rnd_of_positive s Hs), rnd_pos_eq in Hfix. fold e in Hfix.
  set (m := round_even (s / pow2 e)) in *.
  assert (HT : inject_Z T == inject_Z (T * 2 ^ (- e)) * pow2 e).
  { rewrite inject_Z_mult, <- (pow2_Z (- e)) by lia.
    rewrite <- Qmult_assoc, <- pow2_add. replace (- e + e)%Z with 0%Z by ring.
    change (pow2 0) with 1. ring. }
  assert (Hm : (m + 1 <= T * 2 ^ (- e))%Z).
  { destruct (Z_lt_le_dec m (T * 2 ^ (- e))) as [H | H]; [lia|exfalso].
    rewrite Zle_Qle in H.
    assert (H' : inject_Z (T * 2 ^ (- e)) * pow2 e <= inject_Z m * pow2 e)
      by (apply Qmult_le_compat_r; lra).
    lra. }
  rewrite Zle_Qle, inject_Z_plus in Hm. change (inject_Z 1) with 1 in Hm.
  assert (Hm' : (inject_Z m + 1) * pow2 e <= inject_Z (T * 2 ^ (- e)) * pow2 e)
    by (apply Qmult_le_compat_r; lra).
  lra.
Qed.

(** The floor of the rounded quotient is the floor of the exact one. *)
Lemma floor_div60_rounded (s : Q) :
  is_double s = true -> 0 <= s -> s < pow2 53 ->
  Qfloor (rnd (s / 60)) = (Qfloor s / 60)%Z.
Proof.
  intros Ds H0 H53. rewrite <- Qfloor_div60.
  set (k := Qfloor (s / 60)).
  pose proof (Qfloor_le (s / 60)) as K1. pose proof (Qlt_floor (s / 60)) as K2.
  fold k in K1, K2. rewrite inject_Z_plus in K2. change (inject_Z 1) with 1 in K2.
  assert (Hx : s / 60 == s * (1 # 60)) by reflexivity.
  assert (Hk0 : (0 <= k)%Z).
  { unfold k. change 0%Z with (Qfloor 0). apply Qfloor_resp_le. lra. }
  assert (Hk53 : (k < 2 ^ 53)%Z).
  { rewrite Zlt_Qlt, <- (pow2_Z 53) by lia. lra. }
  assert (Lo : inject_Z k <= rnd (s / 60)).
  { rewrite <- (rnd_Z k) by lia. now apply rnd_mono. }
  assert (Up : rnd (s / 60) < inject_Z k + 1).
  { destruct (Qlt_le_dec 30 s) as [Hbig | Hsmall].
    - assert (Hs : 0 < s) by lra.
      pose proof (is_double_rnd s Ds) as Hfix.
      assert (L4 : (4 <= ilog2 s)%Z).
      { apply ilog2_ge. change (pow2 4) with 16. lra. }
      assert (L53 : (ilog2 s < 53)%Z) by now apply ilog2_lt.
      assert (Es : ulp_exponent s = (ilog2 s - 52)%Z) by (unfold ulp_exponent; lia).
      destruct (ilog2_spec s Hs) as [_ S2].
      assert (Lx : (ilog2 (s / 60) < ilog2 s - 4)%Z).
      { apply ilog2_lt; [lra|].
        assert (P : pow2 (ilog2 s + 1) == pow2 (ilog2 s - 4) * 32).
        { rewrite (pow2_split (ilog2 s + 1) 5).
          replace (ilog2 s + 1 - 5)%Z with (ilog2 s - 4)%Z by ring. reflexivity. }
        lra. }
      assert (Ex : (ulp_exponent (s / 60) <= ulp_exponent s - 5)%Z)
        by (unfold ulp_exponent in *; lia).
      pose proof (pow2_le _ _ Ex) as Px.
      assert (P5 : pow2 (ulp_exponent s - 5) * 32 == pow2 (ulp_exponent s)).
      { rewrite (pow2_split (ulp_exponent s) 5). reflexivity. }
      pose proof (pow2_pos (ulp_exponent s)) as Ps.
      pose proof (rnd_pos_error_up (s / 60) ltac:(lra)) as Err.
      rewrite <- (rnd_of_positive (s / 60)) in Err by lra.
      assert (HT : s < inject_Z (60 * (k + 1))).
      { rewrite inject_Z_mult, inject_Z_plus.
        change (inject_Z 60) with 60. change (inject_Z 1) with 1. lra. }
      pose proof (double_below_whole s (60 * (k + 1)) Hs Hfix ltac:(lia) HT) as Gap.
      rewrite inject_Z_mult, inject_Z_plus in Gap.
      change (inject_Z 60) with 60 in Gap. change (inject_Z 1) with 1 in Gap.
      lra.
    - assert (Hhalf : s / 60 <= 1 # 2) by lra.
      pose proof (rnd_mono _ _ Hhalf) as R.
      rewrite (is_double_rnd (1 # 2) eq_refl) in R.
      assert (Hk : inject_Z 0 <= inject_Z k) by (rewrite <- Zle_Qle; assumption).
      change (inject_Z 0) with 0 in Hk. lra. }
  assert (F1 : (k <= Qfloor (rnd (s / 60)))%Z).
  { rewrite <- (Qfloor_Z k) at 1. now apply Qfloor_resp_le. }
  assert (F2 : (Qfloor (rnd (s / 60)) < k + 1)%Z).
  { rewrite Zlt_Qlt, inject_Z_plus. change (inject_Z 1) with 1.
    eapply Qle_lt_trans; [apply Qfloor_le|exact Up]. }
  lia.
Qed.

(** X18.  For a double of 0 s or more and less than [2^53] s,
    [formatTime] shows the whole seconds elapsed as minutes and seconds
    below 60, each padded to two digits: the rounding of the quotient
    [seconds / 60] never reaches the next minute.  Below 100 minutes the
    text is five characters long ([mm:ss]). *)
Theorem formatTime_shows_minutes_and_seconds (seconds : Q) :
  is_double seconds = true ->
  0 <= seconds ->
  seconds < pow2 53 ->
  formatTime seconds
  = Some (padStart0 2 (decimal (Qfloor seconds / 60)) ++ ":"
          ++ padStart0 2 (decimal (Qfloor seconds mod 60)))%string
  /\ (0 <= Qfloor seconds mod 60 < 60)%Z
  /\ (seconds < 6000 ->
      exists text, formatTime seconds = Some text /\ String.length text = 5%nat).
Proof.
  intros Ds H0 H53.
  assert (Hf0 : (0 <= Qfloor seconds)%Z).
  { change 0%Z with (Qfloor 0). now apply Qfloor_resp_le. }
  assert (Hf53 : (Qfloor seconds < 2 ^ 53)%Z).
  { rewrite Zlt_Qlt, <- (pow2_Z 53) by lia.
    eapply Qle_lt_trans; [apply Qfloor_le|exact H53]. }
  pose proof (Z.mod_pos_bound (Qfloor seconds) 60 ltac:(lia)) as Hmod.
  assert (Hdiv : (0 <= Qfloor seconds / 60 <= 2 ^ 53)%Z).
  { split; [apply Z.div_pos; lia|].
    apply Z.lt_le_incl, Z.div_lt_upper_bound; lia. }
  assert (Heq : formatTime seconds
                = Some (padStart0 2 (decimal (Qfloor seconds / 60)) ++ ":"
                        ++ padStart0 2 (decimal (Qfloor seconds mod 60)))%string).
  { unfold formatTime. cbv zeta. rewrite floor_rem60 by assumption.
    unfold Math_floor. rewrite floor_div60_rounded by assumption.
    unfold toString.
    rewrite (Z.abs_eq (Qfloor seconds / 60)) by lia.
    rewrite (Z.abs_eq (Qfloor seconds mod 60)) by lia.
    destruct (Z.leb_spec (Qfloor seconds / 60) (2 ^ 53)) as [_ | H]; [|lia].
    destruct (Z.leb_spec (Qfloor seconds mod 60) (2 ^ 53)) as [_ | H]; [|lia].
    reflexivity. }
  split; [exact Heq|]. split; [exact Hmod|].
  intros Hlt. eexists. split; [exact Heq|]. rewrite !length_append.
  assert (Hf1 : (Qfloor seconds < 6000)%Z).
  { rewrite Zlt_Qlt. eapply Qle_lt_trans; [apply Qfloor_le|]. exact Hlt. }
  rewrite !two_digits.
  - reflexivity.
  - lia.
  - split; [apply Z.div_pos; lia|apply Z.div_lt_upper_bound; lia].
Qed.

(** Two minutes, five seconds and a half. *)
Lemma formatTime_shows_minutes_and_seconds_witness :
  formatTime (251 # 2) = Some "02:05"%string.
Proof.
  rewrite (proj1 (formatTime_shows_minutes_and_seconds
                    (251 # 2) eq_refl ltac:(vm_compute; discriminate)
                    ltac:(vm_compute; reflexivity))).
  reflexivity.
Defined.

(** Beyond [2^53] s the minutes are those of the rounded quotient: of
    [10^21] s the code keeps 16666666666666665984 minutes, which it does
    not print digit by digit. *)
Lemma formatTime_of_a_huge_time :
  Math_floor (rnd (inject_Z (10 ^ 21) / 60)) = 16666666666666665984%Z
  /\ (Qfloor (inject_Z (10 ^ 21)) / 60)%Z = 16666666666666666666%Z
  /\ formatTime (inject_Z (10 ^ 21)) = None.
Proof. repeat split; vm_compute; reflexivity. Qed.

(* ================================================================= *)
(** ** createChannelsFromData *)

Lemma firstn_S_nth {A : Type} (d : A) (l : list A) (n : nat) :
  (n < length l)%nat -> firstn (S n) l = firstn n l ++ [nth n l d].
Proof.
  revert n. induction l as [|x l IH]; intros n Hn; cbn in Hn; [lia|].
  destruct n as [|n]; [reflexivity|].
  cbn [firstn nth app]. f_equal. apply IH. lia.
Qed.

Lemma split_data_push (channels : list RawChannel) (cur : list num)
      (c : RawChannel) :
  raw_data c = cur ->
  concat (map raw_data (channels ++ [c])) ++ []
  = concat (map raw_data channels) ++ cur.
Proof.
  intros <-. rewrite map_app, concat_app. cbn. now rewrite !app_nil_r.
Qed.

Lemma split_ok_push (channelNames : list string) (voltages : list Q)
      (st : SplitState) (value : num) :
  split_ok channelNames voltages st ->
  (split_count st < length channelNames)%nat ->
  isNaN value = false ->
  (100 <? length (split_current st ++ [value]))%nat = true ->
  split_ok channelNames voltages
           (mkSplit (pushChannel channelNames voltages (split_channels st)
                                 (split_current st ++ [value]) (split_count st))
                    [] (S (split_count st))).
Proof.
  intros (Hlen & Hnames & Hvolt & Hall & Hcur) Hcount Hval Hbig.
  unfold pushChannel, split_ok.
  destruct (Nat.ltb_spec (split_count st) (length channelNames)); [|lia].
  cbn [split_channels split_current split_count].
  split; [rewrite length_app; cbn; lia|].
  split; [rewrite map_app, Hnames, (firstn_S_nth EmptyString) by assumption;
          reflexivity|].
  split; [rewrite map_app, Hvolt, seq_S, map_app; reflexivity|].
  split; [|reflexivity].
  apply Forall_app. split; [assumption|].
  constructor; [|constructor]. cbn [raw_events raw_data].
  split; [reflexivity|]. split; [now apply Nat.ltb_lt|].
  rewrite forallb_app, Hcur. cbn. unfold clean. now rewrite Hval.
Qed.

Lemma split_loop_spec (channelNames : list string) (voltages : list Q) :
  forall (n : nat) (l : list num) (st : SplitState),
    split_ok channelNames voltages st ->
    (split_count st < length channelNames)%nat ->
    split_ok channelNames voltages (split_loop channelNames voltages n l st)
    /\ (split_count (split_loop channelNames voltages n l st)
        <= length channelNames)%nat
    /\ ((split_count (split_loop channelNames voltages n l st)
         < length channelNames)%nat
        \/ split_current (split_loop channelNames voltages n l st) = [])
    /\ exists consumed rest,
        l = consumed ++ rest
        /\ (length consumed <= n)%nat
        /\ (length consumed = Nat.min n (length l)
            \/ split_count (split_loop channelNames voltages n l st)
               = length channelNames)
        /\ split_data (split_loop channelNames voltages n l st)
           = split_data st ++ filter clean consumed.
Proof.
  induction n as [|n IH]; intros l st Hok Hcount.
  - cbn [split_loop]. split; [assumption|]. split; [lia|]. split; [now left|].
    exists [], l. cbn. split; [reflexivity|]. split; [lia|].
    split; [now left|now rewrite app_nil_r].
  - destruct l as [|value rest].
    + cbn [split_loop]. split; [assumption|]. split; [lia|]. split; [now left|].
      exists [], []. cbn. split; [reflexivity|]. split; [lia|].
      split; [now left|now rewrite app_nil_r].
    + cbn [split_loop]. destruct (isNaN value) eqn:Hnan.
      * destruct (IH rest st Hok Hcount) as (H1 & H2 & H3 & consumed & rest' & E & Hl & Hall & Hd).
        split; [assumption|]. split; [assumption|]. split; [assumption|].
        exists (value :: consumed), rest'. cbn [app length filter].
        unfold clean at 1. rewrite Hnan. cbn [negb].
        split; [now rewrite E|]. split; [lia|].
        split; [destruct Hall as [Hall | Hall]; [left; cbn [length]; lia|now right]|].
        assumption.
      * cbv zeta.
        destruct ((100 <? length (split_current st ++ [value]))%nat
                  && match rest with
                     | next :: _ => abs_gt next 50
                     | [] => false
                     end) eqn:Hb.
        -- apply andb_true_iff in Hb. destruct Hb as [Hbig _].
           pose proof (split_ok_push _ _ st value Hok Hcount Hnan Hbig) as Hok'.
           assert (Hdata :
                     split_data
                       (mkSplit (pushChannel channelNames voltages (split_channels st)
                                             (split_current st ++ [value])
                                             (split_count st))
                                [] (S (split_count st)))
                     = split_data st ++ [value]).
           { unfold split_data, pushChannel.
             destruct (Nat.ltb_spec (split_count st) (length channelNames)); [|lia].
             cbn [split_channels split_current].
             rewrite (split_data_push _ (split_current st ++ [value])) by reflexivity.
             now rewrite app_assoc. }
           destruct (Nat.leb_spec (length channelNames) (S (split_count st)))
             as [Hbreak | Hgo].
           ++ split; [assumption|]. cbn [split_count split_current].
              split; [lia|]. split; [now right|].
              exists [value], rest. cbn [app length filter].
              unfold clean at 1. rewrite Hnan. cbn [negb].
              split; [reflexivity|]. split; [lia|]. split; [right; lia|exact Hdata].
           ++ destruct (IH rest _ Hok' Hgo)
                as (H1 & H2 & H3 & consumed & rest' & E & Hl & Hall & Hd).
              split; [assumption|]. split; [assumption|]. split; [assumption|].
              exists (value :: consumed), rest'. cbn [app length filter].
              unfold clean at 1. rewrite Hnan. cbn [negb].
              split; [now rewrite E|]. split; [lia|].
              split; [destruct Hall as [Hall | Hall]; [left; cbn [length]; lia|now right]|].
              rewrite Hd, Hdata. now rewrite <- app_assoc.
        -- assert (Hok' : split_ok channelNames voltages
                                   (mkSplit (split_channels st)
                                            (split_current st ++ [value])
                                            (split_count st))).
           { destruct Hok as (A & B & C & D & E). unfold split_ok.
             cbn [split_channels split_current split_count].
             repeat (split; [assumption|]).
             rewrite forallb_app, E. cbn. unfold clean. now rewrite Hnan. }
           destruct (IH rest _ Hok' Hcount)
             as (H1 & H2 & H3 & consumed & rest' & E & Hl & Hall & Hd).
           split; [assumption|]. split; [assumption|]. split; [assumption|].
           exists (value :: consumed), rest'. cbn [app length filter].
           unfold clean at 1. rewrite Hnan. cbn [negb].
           split; [now rewrite E|]. split; [lia|].
           split; [destruct Hall as [Hall | Hall]; [left; cbn [length]; lia|now right]|].
           rewrite Hd. unfold split_data. cbn [split_channels split_current].
           now rewrite <- !app_assoc.
Qed.

Lemma split_loop_no_names (voltages : list Q) :
  forall (n : nat) (l : list num) (st : SplitState),
    split_channels st = [] ->
    split_channels (split_loop [] voltages n l st) = [].
Proof.
  induction n as [|n IH]; intros l st Hst; [assumption|].
  destruct l as [|value rest]; [assumption|]. cbn [split_loop].
  destruct (isNaN value); [now apply IH|]. cbv zeta.
  destruct (_ && _); [|now apply IH].
  cbn [length Nat.leb]. unfold pushChannel. cbn [length Nat.ltb Nat.leb].
  exact Hst.
Qed.

(** The channels, once the loop is over and the last channel is pushed. *)
Lemma createChannelsFromData_spec (samples : list num) (channelNames : list string)
      (voltages : list Q) :
  channelNames <> [] ->
  exists (channels : list RawChannel) (cur : list num) (count : nat)
         (consumed rest : list num),
    split_ok channelNames voltages (mkSplit channels cur count)
    /\ (count <= length channelNames)%nat
    /\ ((count < length channelNames)%nat \/ cur = [])
    /\ samples = consumed ++ rest
    /\ (length consumed <= Nat.min (length samples) (100 * 100))%nat
    /\ (length consumed = Nat.min (length samples) (100 * 100)
        \/ count = length channelNames)
    /\ concat (map raw_data channels) ++ cur = filter clean consumed
    /\ createChannelsFromData samples channelNames voltages
       = if (0 <? length cur)%nat && (count <? length channelNames)%nat
         then channels ++ [mkRaw (nth count channelNames EmptyString) cur []
                                 (nth_error voltages count)]
         else channels.
Proof.
  intros Hnames.
  assert (Hok0 : split_ok channelNames voltages (mkSplit [] [] 0)).
  { unfold split_ok. cbn. repeat split; constructor. }
  assert (Hc0 : (split_count (mkSplit [] [] 0) < length channelNames)%nat).
  { cbn. destruct channelNames; [congruence|cbn; lia]. }
  destruct (split_loop_spec channelNames voltages
                            (Nat.min (length samples) (100 * 100)) samples
                            (mkSplit [] [] 0) Hok0 Hc0)
    as (H1 & H2 & H3 & consumed & rest & E & Hl & Hall & Hd).
  unfold createChannelsFromData. cbv zeta.
  destruct (split_loop channelNames voltages _ samples (mkSplit [] [] 0))
    as [channels cur count].
  cbn [split_channels split_current split_count] in *.
  exists channels, cur, count, consumed, rest.
  split; [exact H1|]. split; [exact H2|]. split; [exact H3|].
  split; [exact E|]. split; [exact Hl|]. split; [|split].
  - destruct Hall as [Hall | Hall]; [left|now right].
    rewrite Hall. lia.
  - exact Hd.
  - reflexivity.
Qed.

Lemma createChannelsFromData_no_names (samples : list num) (voltages : list Q) :
  createChannelsFromData samples [] voltages = [].
Proof.
  unfold createChannelsFromData. cbv zeta.
  pose proof (split_loop_no_names voltages (Nat.min (length samples) (100 * 100))
                                  samples (mkSplit [] [] 0) eq_refl) as H.
  destruct (split_loop [] voltages _ samples (mkSplit [] [] 0)) as [channels cur count].
  cbn [split_channels split_current split_count] in *.
  cbn [length Nat.ltb Nat.leb]. rewrite andb_false_r. exact H.
Qed.

Lemma extracted_nonempty_data
      (samples : list num) (channelNames : list string) (voltages : list Q) :
  Forall (fun c => raw_data c <> [])
         (createChannelsFromData samples channelNames voltages).
Proof.
  destruct channelNames as [|nm names].
  { rewrite createChannelsFromData_no_names. constructor. }
  destruct (createChannelsFromData_spec samples (nm :: names) voltages
                                        ltac:(discriminate))
    as (channels & cur & count & consumed & rest
        & (_ & _ & _ & Hall & _) & _ & _ & _ & _ & _ & _ & ->).
  cbn [split_channels] in Hall.
  assert (Hne : Forall (fun c => raw_data c <> []) channels).
  { eapply Forall_impl; [|exact Hall]. intros c (_ & B & _).
    destruct (raw_data c); [cbn in B; lia|discriminate]. }
  destruct (Nat.ltb_spec 0 (length cur)) as [Hcurpos | Hcur0]; cbn [andb];
    [|assumption].
  destruct (count <? length (nm :: names))%nat; [|assumption].
  apply Forall_app. split; [assumption|]. constructor; [|constructor].
  cbn [raw_data]. destruct cur; [cbn in Hcurpos; lia|discriminate].
Qed.

(** X19.  [createChannelsFromData] never builds more channels than it has
    names; the channels carry the first names and the first voltages of
    the tables, in order; each has no event, at least one sample and no
    [NaN]; and every channel but the last holds more than 100 samples. *)
Theorem extracted_channels_are_well_formed
        (samples : list num) (channelNames : list string) (voltages : list Q) :
  let chs := createChannelsFromData samples channelNames voltages in
  (length chs <= length channelNames)%nat
  /\ map raw_name chs = firstn (length chs) channelNames
  /\ map raw_voltage chs = map (nth_error voltages) (seq 0 (length chs))
  /\ Forall (fun c => raw_events c = [] /\ raw_data c <> []
                      /\ forallb clean (raw_data c) = true) chs
  /\ (forall pre last, chs = pre ++ [last] ->
                       Forall (fun c => (100 < length (raw_data c))%nat) pre).
Proof.
  intros chs. unfold chs. clear chs.
  destruct channelNames as [|nm names].
  { rewrite createChannelsFromData_no_names. cbn.
    repeat split; try constructor. intros [|x pre] last H; discriminate. }
  destruct (createChannelsFromData_spec samples (nm :: names) voltages
                                        ltac:(discriminate))
    as (channels & cur & count & consumed & rest
        & (Hlen & Hnames & Hvolt & Hall & Hcur) & Hle & Hdis & _ & _ & _ & _ & ->).
  cbn [split_channels split_current split_count] in *.
  assert (Hbig : Forall (fun c => (100 < length (raw_data c))%nat) channels).
  { eapply Forall_impl; [|exact Hall]. intros c (_ & H & _). exact H. }
  assert (Hall' : Forall (fun c => raw_events c = [] /\ raw_data c <> []
                                   /\ forallb clean (raw_data c) = true) channels).
  { eapply Forall_impl; [|exact Hall]. intros c (A & B & C).
    split; [assumption|]. split; [|assumption].
    destruct (raw_data c); [cbn in B; lia|discriminate]. }
  destruct (Nat.ltb_spec 0 (length cur)) as [Hcurpos | Hcur0];
    destruct (Nat.ltb_spec count (length (nm :: names))) as [Hlt | Hge];
    cbn [andb].
  - rewrite length_app, Hlen. change (length [mkRaw (nth count (nm :: names) EmptyString) cur [] (nth_error voltages count)]) with 1%nat.
    split; [lia|]. rewrite Nat.add_1_r.
    split; [rewrite map_app, Hnames, (firstn_S_nth EmptyString) by assumption;
            reflexivity|].
    split; [rewrite map_app, Hvolt, seq_S, map_app; reflexivity|].
    split.
    + apply Forall_app. split; [assumption|]. constructor; [|constructor].
      cbn [raw_events raw_data]. split; [reflexivity|]. split; [|assumption].
      destruct cur; [cbn in Hcurpos; lia|discriminate].
    + intros pre last E. apply app_inj_tail in E. destruct E as [<- _]. exact Hbig.
  - rewrite Hlen. split; [lia|]. split; [assumption|]. split; [assumption|].
    split; [assumption|]. intros pre last ->. now apply Forall_app in Hbig.
  - rewrite Hlen. split; [lia|]. split; [assumption|]. split; [assumption|].
    split; [assumption|]. intros pre last ->. now apply Forall_app in Hbig.
  - rewrite Hlen. split; [lia|]. split; [assumption|]. split; [assumption|].
    split; [assumption|]. intros pre last ->. now apply Forall_app in Hbig.
Qed.

Lemma filter_clean_nil_iff (l : list num) :
  filter clean l = [] <-> forallb isNaN l = true.
Proof.
  induction l as [|x l IH]; cbn [filter forallb]; [tauto|].
  unfold clean at 1. destruct (isNaN x); cbn [negb andb]; [exact IH|].
  split; discriminate.
Qed.

(** X20.  The channels hold, in their order and without repetition, the
    first numbers among the first 10000 samples: the [NaN] entries are
    skipped, and whatever follows the last channel is dropped.  With at
    least one name there is no channel exactly when each of the first
    10000 samples is [NaN] (an empty recording included). *)
Theorem extracted_channels_keep_the_samples
        (samples : list num) (channelNames : list string) (voltages : list Q) :
  let chs := createChannelsFromData samples channelNames voltages in
  (exists dropped,
      filter clean (firstn (100 * 100) samples)
      = concat (map raw_data chs) ++ dropped)
  /\ (channelNames <> [] ->
      (chs = [] <-> forallb isNaN (firstn (100 * 100) samples) = true)).
Proof.
  intros chs. unfold chs. clear chs.
  destruct channelNames as [|nm names].
  { rewrite createChannelsFromData_no_names. split; [|congruence].
    eexists. reflexivity. }
  destruct (createChannelsFromData_spec samples (nm :: names) voltages
                                        ltac:(discriminate))
    as (channels & cur & count & consumed & rest
        & (Hlen & _ & _ & Hall & _) & Hle & Hdis & E & Hl & Hcons & Hd & Heq).
  cbn [split_channels split_current split_count] in *.
  set (chs := createChannelsFromData samples (nm :: names) voltages) in *.
  assert (Hdata : concat (map raw_data chs) = filter clean consumed).
  { rewrite Heq, <- Hd.
    destruct (Nat.ltb_spec 0 (length cur)) as [Hcurpos | Hcur0];
      destruct (Nat.ltb_spec count (length (nm :: names))) as [Hlt | Hge];
      cbn [andb].
    - rewrite map_app, concat_app. cbn. now rewrite app_nil_r.
    - destruct Hdis as [Hdis | ->]; [lia|now rewrite app_nil_r].
    - destruct cur; [now rewrite app_nil_r|cbn in Hcur0; lia].
    - destruct cur; [now rewrite app_nil_r|cbn in Hcur0; lia]. }
  assert (Hfirst : firstn (100 * 100) samples
                   = consumed ++ firstn (100 * 100 - length consumed) rest).
  { rewrite E, firstn_app. f_equal. apply firstn_all2. lia. }
  split.
  - exists (filter clean (firstn (100 * 100 - length consumed) rest)).
    now rewrite Hfirst, filter_app, Hdata.
  - intros _. rewrite <- filter_clean_nil_iff. split.
    + intros Hnil.
      assert (Hcount : count <> length (nm :: names)).
      { intros Hc. rewrite Heq in Hnil.
        destruct (Nat.ltb_spec count (length (nm :: names))); [lia|].
        rewrite andb_false_r in Hnil. subst channels. cbn in Hlen, Hc. lia. }
      destruct Hcons as [Hcons | Hcons]; [|contradiction].
      rewrite Hfirst, filter_app, <- Hdata, Hnil. cbn [map concat app].
      assert (Hrest : firstn (100 * 100 - length consumed) rest = []).
      { apply (f_equal (@length _)) in E. rewrite length_app in E.
        destruct (Nat.le_ge_cases (length samples) (100 * 100)).
        - assert (rest = []) by (destruct rest; [reflexivity|cbn in E; lia]).
          subst rest. now destruct (100 * 100 - length consumed)%nat.
        - replace (100 * 100 - length consumed)%nat with O by lia. reflexivity. }
      now rewrite Hrest.
    + intros Hnil. rewrite Hfirst, filter_app, <- Hdata in Hnil.
      apply app_eq_nil in Hnil. destruct Hnil as [Hnil _].
      destruct chs as [|c chs'] eqn:Echs; [reflexivity|exfalso].
      pose proof (extracted_nonempty_data samples (nm :: names) voltages) as Hne.
      fold chs in Hne. rewrite Echs in Hne. inversion Hne as [|? ? Hc _]; subst.
      cbn [map concat] in Hnil. apply app_eq_nil in Hnil. destruct Hnil. contradiction.
Qed.

(* ================================================================= *)
(** ** The processed recording *)

Lemma maxLength_ge (chs : list Channel) (ch : Channel) :
  In ch chs -> (length (data ch) <= maxLength chs)%nat.
Proof.
  unfold maxLength. induction chs as [|c chs IH]; intros []; cbn [map fold_right].
  - subst. lia.
  - specialize (IH H). lia.
Qed.

Lemma padChannel_length (chs : list Channel) (ch : Channel) :
  In ch chs -> length (data (padChannel (maxLength chs) ch)) = maxLength chs.
Proof.
  intros H. pose proof (maxLength_ge chs ch H). unfold padChannel. cbn [data].
  rewrite length_app, repeat_length. lia.
Qed.

Lemma detector_event_bounds (L : Z) (e : Event) :
  detector_event L e -> within (ofZ L / sampleRate250) (start e) (end_ e).
Proof.
  intros [He | He]; destruct He as (k & Hk & HL & Hs & He & _); rewrite Hs, He.
  - apply (window_inside _ 25 12 k Hk eq_refl eq_refl HL).
  - apply (window_inside _ 750 250 k Hk eq_refl eq_refl HL).
Qed.

Lemma detectPatterns_from_inv (random : nat -> Z -> Q) (chs : list Channel) :
  (forall ch, In ch chs -> events ch = []) ->
  forall c, exists detected,
      detectPatterns_from c random chs = Some detected
      /\ map channel_signal detected = map channel_signal chs
      /\ forall d, In d detected ->
                   events_inv (Z.of_nat (length (data d))) (events d).
Proof.
  induction chs as [|ch chs IH]; intros H c; cbn [detectPatterns_from].
  - exists []. split; [reflexivity|]. split; [reflexivity|]. intros d [].
  - destruct (detectChannel_inv (random c) ch) as (evs & -> & Hinv).
    { rewrite (H ch (or_introl eq_refl)). split; constructor. }
    destruct (IH (fun x Hx => H x (or_intror Hx)) (S c)) as (rest & -> & Hsig & Hrest).
    eexists. cbn [option_map]. split; [reflexivity|]. split.
    + cbn [map]. now rewrite Hsig.
    + intros d [<- | Hd]; [exact Hinv|now apply Hrest].
Qed.

(** X21.  From extracted channels without events, [processEegData]
    returns a recording sampled at 250 Hz whose duration is the longest
    channel's sample count over 250; every channel keeps its name and
    voltage scale and its samples followed by zeros up to that length;
    every detected event and every region starts at or after 0, ends after
    it starts and ends before the duration.  Without any channel the demo
    recording is returned instead. *)
Theorem processed_recording_is_consistent
        (detector_random : nat -> Z -> Q) (random : nat -> Q) (chs : list Channel) :
  processChannels detector_random random [] = Some DemoData
  /\ (chs <> [] ->
      (forall ch, In ch chs -> events ch = []) ->
      exists detected,
        processChannels detector_random random chs
        = Some (Processed detected 250 (ofNat (maxLength chs) / 250)
                          (identifyIctalRegions random detected))
        /\ map channel_signal detected
           = map (fun ch => channel_signal (padChannel (maxLength chs) ch)) chs
        /\ (forall d, In d detected -> length (data d) = maxLength chs)
        /\ (forall d e, In d detected -> In e (events d) ->
                        within (ofNat (maxLength chs) / 250) (start e) (end_ e))
        /\ (forall r, In r (identifyIctalRegions random detected) ->
                      within (ofNat (maxLength chs) / 250)
                             (region_start r) (region_end r))).
Proof.
  split; [reflexivity|]. intros Hne Hev.
  destruct (detectPatterns_from_inv detector_random
                                    (map (padChannel (maxLength chs)) chs))
    with (c := O) as (detected & Hdet & Hsig & Hinv).
  { intros ch Hch. apply in_map_iff in Hch. destruct Hch as (ch0 & <- & Hch0).
    cbn [padChannel events]. now apply Hev. }
  assert (Hlen : forall d, In d detected -> length (data d) = maxLength chs).
  { intros d Hd.
    assert (Hin : In (channel_signal d) (map channel_signal detected))
      by now apply in_map.
    rewrite Hsig, map_map in Hin. apply in_map_iff in Hin.
    destruct Hin as (ch & Heq & Hch).
    apply (f_equal (fun x => length (snd (fst x)))) in Heq. cbn in Heq.
    rewrite <- Heq. rewrite length_app, repeat_length.
    pose proof (maxLength_ge chs ch Hch). lia. }
  assert (Hevents : forall d e, In d detected -> In e (events d) ->
                                within (ofNat (maxLength chs) / 250) (start e) (end_ e)).
  { intros d e Hd He. destruct (Hinv d Hd) as [Hall _].
    rewrite Forall_forall in Hall. specialize (Hall e He).
    rewrite (Hlen d Hd) in Hall. exact (detector_event_bounds _ e Hall). }
  exists detected.
  split; [|split; [|split; [|split]]].
  - unfold processChannels. destruct chs as [|ch chs']; [congruence|].
    cbv zeta. unfold detectPatterns. rewrite Hdet. reflexivity.
  - now rewrite Hsig, map_map.
  - exact Hlen.
  - exact Hevents.
  - intros r Hr. apply regionsOf_In in Hr. destruct Hr as (c & k & Hc & ->).
    cbn [regionOf region_start region_end].
    assert (Hmem : forall p, In p (cluster_events c) ->
                             within (ofNat (maxLength chs) / 250)
                                    (start (event p)) (end_ (event p))).
    { intros p Hp. pose proof (survivors_member detected c p Hc Hp) as Hpool.
      apply collectEvents_In in Hpool. destruct Hpool as (d & Hd & He & _).
      now apply (Hevents d). }
    destruct (survivors_bounds_ok detected c Hc)
      as ((e1 & He1 & Hs) & _ & (e2 & He2 & Het) & Hmax).
    destruct (Hmem e1 He1) as (A1 & B1 & C1). destruct (Hmem e2 He2) as (A2 & B2 & C2).
    pose proof (Hmax e1 He1) as Hle.
    unfold within. rewrite Hs. split; [assumption|]. split; [lra|].
    rewrite Het. assumption.
Qed.

(** Two channels of 3 and 5 samples: 5 samples, that is 20 ms. *)
Lemma processed_recording_is_consistent_witness :
  exists detected,
    processChannels (fun _ _ => 0) (fun _ => 0)
                    [mkChannel "C4" [1; 2; 3] [] (388 # 10);
                     mkChannel "CP5" [1; 2; 3; 4; 5] [] (384 # 10)]
    = Some (Processed detected 250 (ofNat 5 / 250)
                      (identifyIctalRegions (fun _ => 0) detected))
    /\ forall d, In d detected -> length (data d) = 5%nat.
Proof.
  destruct (proj2 (processed_recording_is_consistent
                     (fun _ _ => 0) (fun _ => 0)
                     [mkChannel "C4" [1; 2; 3] [] (388 # 10);
                      mkChannel "CP5" [1; 2; 3; 4; 5] [] (384 # 10)]))
    as (detected & H1 & _ & H3 & _).
  - discriminate.
  - intros ch [<- | [<- | []]]; reflexivity.
  - exists detected. split; [exact H1|exact H3].
Defined.

(* ================================================================= *)
(** ** Selecting a region *)

Lemma is_selected_iff (index : nat) (selected : option nat) :
  is_selected index selected = true <-> selected = Some index.
Proof.
  destruct selected as [s|]; cbn.
  - rewrite Nat.eqb_eq. split; [intros ->; reflexivity|intros [= ->]; reflexivity].
  - split; discriminate.
Qed.

(** The rounded difference [s - p] stays at or below the double [s], and
    the rounded sum [e + p] at or above the double [e]. *)
Lemma window_start (s p : Q) :
  is_double s = true -> 0 <= s -> 0 <= p ->
  exists lo, nmax 0 (fsub (Fin s) (Fin p)) = Fin lo /\ 0 <= lo /\ lo <= s.
Proof.
  intros Ds Hs Hp. unfold fsub, nsub, nneg, nadd, fl, round64.
  assert (H : rnd (s + - p) <= s).
  { rewrite <- (is_double_rnd s Ds) at 2. apply rnd_mono. lra. }
  unfold is_double in Ds. apply andb_true_iff in Ds. destruct Ds as [_ Dfin].
  apply ltb_iff in Dfin. rewrite (Qabs_pos s Hs) in Dfin.
  destruct (Qle_bool (pow2 1024) (rnd (s + - p))) eqn:E1.
  { apply Qle_bool_iff in E1. exfalso. lra. }
  destruct (Qle_bool (rnd (s + - p)) (- pow2 1024)).
  - exists 0. cbn [nmax]. split; [reflexivity|]. split; [apply Qle_refl|assumption].
  - eexists. cbn [nmax]. split; [reflexivity|]. split; [apply Math_max_l|].
    destruct (Math_max_cases 0 (rnd (s + - p))) as [-> | ->]; assumption.
Qed.

Lemma window_end (e p D : Q) :
  is_double e = true -> 0 <= e -> e <= D -> 0 <= p ->
  exists hi, nmin D (fadd (Fin e) (Fin p)) = Fin hi /\ e <= hi /\ hi <= D.
Proof.
  intros De He HD Hp. unfold fadd, nadd, fl, round64.
  assert (H : e <= rnd (e + p)).
  { rewrite <- (is_double_rnd e De) at 1. apply rnd_mono. lra. }
  pose proof (pow2_pos 1024) as Hpow.
  destruct (Qle_bool (pow2 1024) (rnd (e + p))).
  - exists D. cbn [nmin]. split; [reflexivity|]. split; [assumption|apply Qle_refl].
  - destruct (Qle_bool (rnd (e + p)) (- pow2 1024)) eqn:E2.
    { apply Qle_bool_iff in E2. exfalso. lra. }
    eexists. cbn [nmin]. split; [reflexivity|].
    split; [now apply Math_min_glb|apply Math_min_le_l].
Qed.

(** X22.  Clicking a region that is not the selected one selects it and
    shows a window that contains the region, starts at or after 0 and ends
    at or before the duration of the recording (600 s when there is none),
    provided the region lies between 0 and that duration.  Clicking the
    same region again only deselects it: the window stays. *)
Theorem region_click_zooms_on_the_region
        (ictalRegions : list Region) (duration : option Q) (index : nat)
        (st : PanelState) (region : Region) :
  selectedRegion st <> Some index ->
  nth_error ictalRegions index = Some region ->
  is_double (region_start region) = true ->
  is_double (region_end region) = true ->
  0 <= region_start region ->
  region_start region <= region_end region ->
  region_end region <= durationOr600 duration ->
  exists lo hi,
    handleRegionClick ictalRegions duration index st
    = Some (mkPanel (Some index) (Fin lo, Fin hi))
    /\ 0 <= lo /\ lo <= region_start region
    /\ region_end region <= hi /\ hi <= durationOr600 duration
    /\ handleRegionClick ictalRegions duration index
                         (mkPanel (Some index) (Fin lo, Fin hi))
       = Some (mkPanel None (Fin lo, Fin hi)).
Proof.
  intros Hsel Hnth Ds De H0 Hse HD.
  unfold handleRegionClick at 1.
  destruct (is_selected index (selectedRegion st)) eqn:E.
  { apply is_selected_iff in E. contradiction. }
  rewrite Hnth. cbv zeta.
  assert (Hpad : nonneg (fmul (fsub (Fin (region_end region)) (Fin (region_start region)))
                              (Fin (double (2 # 10))))).
  { apply fmul_nonneg; [|vm_compute; reflexivity].
    unfold fsub, nsub, nneg, nadd, fl. apply round64_nonneg. lra. }
  assert (Hsecond : forall w,
             handleRegionClick ictalRegions duration index (mkPanel (Some index) w)
             = Some (mkPanel None w)).
  { intros w. unfold handleRegionClick. cbn [selectedRegion timeWindow is_selected].
    now rewrite Nat.eqb_refl. }
  destruct (fmul (fsub (Fin (region_end region)) (Fin (region_start region)))
                 (Fin (double (2 # 10)))) as [| | |p];
    cbn [nonneg] in Hpad; try contradiction.
  - exists 0, (durationOr600 duration). split; [reflexivity|].
    split; [apply Qle_refl|]. split; [assumption|]. split; [assumption|].
    split; [apply Qle_refl|apply Hsecond].
  - destruct (window_start (region_start region) p Ds H0 Hpad) as (lo & -> & L1 & L2).
    destruct (window_end (region_end region) p (durationOr600 duration) De
                         ltac:(lra) HD Hpad) as (hi & -> & U1 & U2).
    exists lo, hi. split; [reflexivity|]. repeat (split; [assumption|]).
    apply Hsecond.
Qed.

(** The second of two regions, from 30 s to 40 s of a 60 s recording, with
    nothing selected: the window shown contains the region. *)
Lemma region_click_zooms_on_the_region_witness :
  exists lo hi,
    handleRegionClick
      [mkRegion 0 5 ["C4"%string] (Fin 50) (mkEventCount 3 0 0) high;
       mkRegion 30 40 ["C4"%string] (Fin 50) (mkEventCount 3 0 0) high]
      (Some 60) 1 (mkPanel None (Fin 0, Fin 60))
    = Some (mkPanel (Some 1%nat) (Fin lo, Fin hi))
    /\ 0 <= lo /\ lo <= 30 /\ 40 <= hi /\ hi <= 60.
Proof.
  destruct (region_click_zooms_on_the_region
              [mkRegion 0 5 ["C4"%string] (Fin 50) (mkEventCount 3 0 0) high;
               mkRegion 30 40 ["C4"%string] (Fin 50) (mkEventCount 3 0 0) high]
              (Some 60) 1 (mkPanel None (Fin 0, Fin 60))
              (mkRegion 30 40 ["C4"%string] (Fin 50) (mkEventCount 3 0 0) high))
    as (lo & hi & H1 & H2 & H3 & H4 & H5 & _).
  - discriminate.
  - reflexivity.
  - reflexivity.
  - reflexivity.
  - cbn. lra.
  - cbn. lra.
  - cbn. lra.
  - exists lo, hi. cbn in H3, H4, H5. repeat split; assumption.
Defined.

(** The window of the region from 1 s to 2 s: its padding is the double
    0.2, and the window is longer than 1.4 times the region. *)
Lemma window_of_one_second :
  exists lo hi,
    handleRegionClick [mkRegion 1 2 ["C4"%string] (Fin 50) (mkEventCount 3 0 0) high]
                      (Some 60) 0 (mkPanel None (Fin 0, Fin 60))
    = Some (mkPanel (Some 0%nat) (Fin lo, Fin hi))
    /\ (14 # 10) * (2 - 1) < hi - lo.
Proof. eexists _, _. split; [vm_compute; reflexivity|vm_compute; reflexivity]. Qed.
